(** * fetch HTTP HealthCheck

    A model of [fetch.go], the program that polls the endpoints of a YAML
    file every 15 seconds and prints the availability of each host, and of
    the sequential variant of the same program kept in [README.md].

    The first part of the file holds the definitions, in the order of the
    program: the [float64] arithmetic of the counters, the parts of Go's
    [net/url] and [net/http] the program calls, the program itself with its
    goroutines, and the sequential variant.  The second part holds the
    properties. *)

From Stdlib Require Import ZArith QArith Qround Qabs Qpower Lia Lqa Bool.
From Stdlib Require Import String Ascii List Permutation.
From Stdlib Require Floats.SpecFloat.
From stdpp Require Import base gmap strings list.

(* ================================================================== *)
(** * Part I: definitions *)
(* ================================================================== *)

(** ** float64

    [Result.Attempt] and [Result.Success] are [float64] counters and
    [Uptime] divides and multiplies them, so the arithmetic is modelled as
    IEEE 754 binary64 has it: an operation returns the exact result rounded
    to a 53-bit significand, ties to even.  A finite number is
    [(-1)^neg * m * 2^e]; it is stored with [m = 0], or with
    [2^52 <= m < 2^53].  The exponent range is not bounded: the program
    only computes 0 and numbers between 2^-53 and 2^53, far from overflow
    and from the subnormal range. *)
Module Float64.

Inductive float64 : Type :=
  | Fin (neg : bool) (m e : Z)
  | Inf (neg : bool)
  | NaN.

Definition F2Q (neg : bool) (m e : Z) : Q :=
  ((if neg then -1 else 1) * inject_Z m * 2 ^ e)%Q.

(** The value of a finite number; infinities and NaN have none. *)
Definition val (x : float64) : Q :=
  match x with Fin neg m e => F2Q neg m e | _ => 0%Q end.

(** The exponent [e] with [2^(52+e) <= x < 2^(53+e)], for [0 < x]. *)
Definition exponent (x : Q) : Z :=
  let q := Qred x in
  let e1 := (Z.log2 (Qnum q) - Z.log2 (Zpos (Qden q)) - 53)%Z in
  if Qle_bool (2 ^ (53 + e1)) x then (e1 + 1)%Z else e1.

(** The nearest integer, a tie going to the even one. *)
Definition rne (y : Q) : Z :=
  let f := Qfloor y in
  match (y - inject_Z f ?= 1 # 2)%Q with
  | Lt => f
  | Gt => (f + 1)%Z
  | Eq => if Z.even f then f else (f + 1)%Z
  end.

Definition round_pos (neg : bool) (a : Q) : float64 :=
  let e := exponent a in
  let m := rne (a / 2 ^ e) in
  if (m =? 2 ^ 53)%Z then Fin neg (2 ^ 52) (e + 1) else Fin neg m e.

(** Rounding of an exact result to float64. *)
Definition round_Q (x0 : Q) : float64 :=
  let x := Qred x0 in
  match Qnum x with
  | Z0 => Fin false 0 0
  | Zpos _ => round_pos false x
  | Zneg _ => round_pos true (- x)
  end.

(** Conversion of an integer, [float64(n)], and of an integer constant. *)
Definition of_Z (n : Z) : float64 := round_Q (inject_Z n).

Definition zero : float64 := Fin false 0 0.

Definition is_zero (x : float64) : bool :=
  match x with Fin _ m _ => (m =? 0)%Z | _ => false end.

(** [x == y] *)
Definition feqb (x y : float64) : bool :=
  match x, y with
  | Fin s1 m1 e1, Fin s2 m2 e2 => Qeq_bool (F2Q s1 m1 e1) (F2Q s2 m2 e2)
  | Inf s1, Inf s2 => Bool.eqb s1 s2
  | _, _ => false
  end.

(** [x + y] *)
Definition fadd (x y : float64) : float64 :=
  match x, y with
  | NaN, _ | _, NaN => NaN
  | Inf s1, Inf s2 => if Bool.eqb s1 s2 then Inf s1 else NaN
  | Inf s, Fin _ _ _ | Fin _ _ _, Inf s => Inf s
  | Fin s1 m1 e1, Fin s2 m2 e2 =>
      let r := (F2Q s1 m1 e1 + F2Q s2 m2 e2)%Q in
      if Qeq_bool r 0 then Fin (s1 && s2) 0 0 else round_Q r
  end.

(** [x * y] *)
Definition fmul (x y : float64) : float64 :=
  match x, y with
  | NaN, _ | _, NaN => NaN
  | Inf s1, Inf s2 => Inf (xorb s1 s2)
  | Inf s1, Fin s2 m _ | Fin s2 m _, Inf s1 =>
      if (m =? 0)%Z then NaN else Inf (xorb s1 s2)
  | Fin s1 m1 e1, Fin s2 m2 e2 =>
      if (m1 =? 0)%Z || (m2 =? 0)%Z then Fin (xorb s1 s2) 0 0
      else round_Q (F2Q s1 m1 e1 * F2Q s2 m2 e2)
  end.

(** [x / y] *)
Definition fdiv (x y : float64) : float64 :=
  match x, y with
  | NaN, _ | _, NaN => NaN
  | Inf _, Inf _ => NaN
  | Inf s1, Fin s2 _ _ => Inf (xorb s1 s2)
  | Fin s1 _ _, Inf s2 => Fin (xorb s1 s2) 0 0
  | Fin s1 m1 e1, Fin s2 m2 e2 =>
      if (m2 =? 0)%Z then (if (m1 =? 0)%Z then NaN else Inf (xorb s1 s2))
      else if (m1 =? 0)%Z then Fin (xorb s1 s2) 0 0
      else round_Q (F2Q s1 m1 e1 / F2Q s2 m2 e2)
  end.

(** [math.Round]: the nearest integer, a half going away from zero;
    zeros, infinities and NaN are returned as they are. *)
Definition Round (x : float64) : float64 :=
  match x with
  | Fin neg m e =>
      let r := Qfloor (F2Q false m e + (1 # 2)) in
      if (r =? 0)%Z then Fin neg 0 0 else round_pos neg (inject_Z r)
  | _ => x
  end.

(** [int(x)]: the fraction is dropped.  For a number outside the range of
    [int], and for an infinity or NaN, the language leaves the result to
    the implementation; on amd64 it is the smallest [int]. *)
Definition int_min : Z := (- 2 ^ 63)%Z.

Definition to_int (x : float64) : Z :=
  match x with
  | Fin neg m e =>
      let t := Qfloor (F2Q false m e) in
      let z := if neg then (- t)%Z else t in
      if ((int_min <=? z) && (z <? 2 ^ 63))%Z then z else int_min
  | _ => int_min
  end.

(** The same number as a value of the Standard Library's specification
    of IEEE 754 arithmetic, against which the operations are tested. *)
Definition to_spec (x : float64) : SpecFloat.spec_float :=
  match x with
  | Fin neg (Zpos p) e => SpecFloat.S754_finite neg p e
  | Fin neg _ _ => SpecFloat.S754_zero neg
  | Inf neg => SpecFloat.S754_infinity neg
  | NaN => SpecFloat.S754_nan
  end.

End Float64.

(** ** strings

    The functions of Go's [strings] package that [net/url] calls.  A Go
    string is a sequence of bytes; a byte is an [ascii]. *)
Module strings.

Definition byte (c : ascii) : N := N_of_ascii c.

Fixpoint take (n : nat) (s : string) : string :=
  match n, s with
  | S n', String c s' => String c (take n' s')
  | _, _ => EmptyString
  end.

Fixpoint drop (n : nat) (s : string) : string :=
  match n, s with
  | S n', String _ s' => drop n' s'
  | _, _ => s
  end.

Definition HasPrefix (s prefix : string) : bool := String.prefix prefix s.

Fixpoint Index (s substr : string) : option nat :=
  if String.prefix substr s then Some 0%nat
  else match s with
       | EmptyString => None
       | String _ s' => S <$> Index s' substr
       end.

Fixpoint LastIndexByte (s : string) (c : ascii) : option nat :=
  match s with
  | EmptyString => None
  | String a s' =>
      match LastIndexByte s' c with
      | Some i => Some (S i)
      | None => if Ascii.eqb a c then Some 0%nat else None
      end
  end.

Definition Contains (s substr : string) : bool :=
  match Index s substr with Some _ => true | None => false end.

Definition Cut (s sep : string) : string * string * bool :=
  match Index s sep with
  | Some i => (take i s, drop (i + String.length sep) s, true)
  | None => (s, EmptyString, false)
  end.

Fixpoint CountByte (s : string) (c : ascii) : nat :=
  match s with
  | EmptyString => 0
  | String a s' => (if Ascii.eqb a c then 1 else 0) + CountByte s' c
  end.

Definition HasSuffix (s suffix : string) : bool :=
  (String.length suffix <=? String.length s)%nat &&
  String.eqb (drop (String.length s - String.length suffix) s) suffix.

Definition lower (c : ascii) : ascii :=
  if ((65 <=? byte c) && (byte c <=? 90))%N then ascii_of_N (byte c + 32) else c.

Definition upper (c : ascii) : ascii :=
  if ((97 <=? byte c) && (byte c <=? 122))%N then ascii_of_N (byte c - 32) else c.

Fixpoint ToLower (s : string) : string :=
  match s with
  | EmptyString => EmptyString
  | String c s' => String (lower c) (ToLower s')
  end.

Fixpoint all (p : ascii -> bool) (s : string) : bool :=
  match s with
  | EmptyString => true
  | String c s' => p c && all p s'
  end.

End strings.

(** A call that returns a value and an [error]: the value with a nil
    error, or the error. *)
Inductive result (A : Type) : Type :=
  | Ok (a : A)
  | Err (msg : string).
Arguments Ok {A} a.
Arguments Err {A} msg.

(** ** net/url

    [url.Parse] and [URL.Hostname], after the [net/url] of Go 1.20.  The
    user name and password are checked and kept as they are written; the
    program never reads them. *)
Module url.
Import strings.

Record URL : Type := mkURL {
  Scheme : string;
  Opaque : string;
  User : option string;
  Host : string;
  Path : string;
  OmitHost : bool;
  ForceQuery : bool;
  RawQuery : string;
  Fragment : string
}.

Inductive encoding : Type :=
  | encodePath | encodePathSegment | encodeHost | encodeZone
  | encodeUserPassword | encodeQueryComponent | encodeFragment.

Definition is_host_mode (mode : encoding) : bool :=
  match mode with encodeHost | encodeZone => true | _ => false end.

Definition isalpha (c : ascii) : bool :=
  ((97 <=? byte c) && (byte c <=? 122) || (65 <=? byte c) && (byte c <=? 90))%N.

Definition isdigit (c : ascii) : bool :=
  ((48 <=? byte c) && (byte c <=? 57))%N.

Definition ishex (c : ascii) : bool :=
  (isdigit c || (97 <=? byte c) && (byte c <=? 102)
   || (65 <=? byte c) && (byte c <=? 70))%N.

Definition unhex (c : ascii) : N :=
  if isdigit c then (byte c - 48)%N
  else if ((97 <=? byte c) && (byte c <=? 102))%N then (byte c - 97 + 10)%N
  else if ((65 <=? byte c) && (byte c <=? 70))%N then (byte c - 65 + 10)%N
  else 0%N.

Fixpoint mem (c : ascii) (set : string) : bool :=
  match set with
  | EmptyString => false
  | String a set' => Ascii.eqb a c || mem c set'
  end.

Definition encoding_eqb (m1 m2 : encoding) : bool :=
  match m1, m2 with
  | encodePath, encodePath | encodePathSegment, encodePathSegment
  | encodeHost, encodeHost | encodeZone, encodeZone
  | encodeUserPassword, encodeUserPassword
  | encodeQueryComponent, encodeQueryComponent
  | encodeFragment, encodeFragment => true
  | _, _ => false
  end.

(** Whether the byte must be written as a %-escape in the given part. *)
Definition shouldEscape (c : ascii) (mode : encoding) : bool :=
  if isalpha c || isdigit c then false
  else if is_host_mode mode
          && (mem c "!$&'()*+,;=:[]<>" || (byte c =? 34)%N) then false
  else if mem c "-_.~" then false
  else if mem c "$&+,/:;=?@" then
    match mode with
    | encodePath => Ascii.eqb c "?"
    | encodePathSegment => mem c "/;,?"
    | encodeUserPassword => mem c "@/?:"
    | encodeQueryComponent => true
    | encodeFragment => false
    | encodeHost | encodeZone => true
    end
  else if encoding_eqb mode encodeFragment && mem c "!()*" then false
  else true.

Definition hexbyte (h1 h2 : ascii) : ascii := ascii_of_N (16 * unhex h1 + unhex h2).

(** [unescape]: the string with its %-escapes replaced, or the error of a
    malformed escape or of a byte that a host name cannot hold. *)
Fixpoint unescape (s : string) (mode : encoding) : result string :=
  match s with
  | EmptyString => Ok EmptyString
  | String c rest =>
      if Ascii.eqb c "%" then
        match rest with
        | String h1 (String h2 rest') =>
            if negb (ishex h1 && ishex h2) then Err "invalid URL escape"
            else if encoding_eqb mode encodeHost && (unhex h1 <? 8)%N
                    && negb (Ascii.eqb h1 "2" && Ascii.eqb h2 "5")
            then Err "invalid URL escape"
            else if encoding_eqb mode encodeZone
                    && negb (Ascii.eqb h1 "2" && Ascii.eqb h2 "5")
                    && negb (Ascii.eqb (hexbyte h1 h2) " ")
                    && shouldEscape (hexbyte h1 h2) encodeHost
            then Err "invalid URL escape"
            else match unescape rest' mode with
                 | Ok t => Ok (String (hexbyte h1 h2) t)
                 | Err e => Err e
                 end
        | _ => Err "invalid URL escape"
        end
      else if is_host_mode mode && (byte c <? 128)%N && shouldEscape c encodeHost
      then Err "invalid character in host name"
      else match unescape rest mode with
           | Ok t =>
               Ok (String (if Ascii.eqb c "+" && encoding_eqb mode encodeQueryComponent
                           then " "%char else c) t)
           | Err e => Err e
           end
  end.

Definition stringContainsCTLByte (s : string) : bool :=
  negb (all (fun c => negb ((byte c <? 32) || (byte c =? 127))%N) s).

(** [getScheme]: the scheme before the first colon, and the rest. *)
Fixpoint getScheme_at (i : nat) (rawURL rest : string) : result (string * string) :=
  match rest with
  | EmptyString => Ok (EmptyString, rawURL)
  | String c rest' =>
      if isalpha c then getScheme_at (S i) rawURL rest'
      else if isdigit c || mem c "+-." then
        if (i =? 0)%nat then Ok (EmptyString, rawURL)
        else getScheme_at (S i) rawURL rest'
      else if Ascii.eqb c ":" then
        if (i =? 0)%nat then Err "missing protocol scheme"
        else Ok (take i rawURL, rest')
      else Ok (EmptyString, rawURL)
  end.

Definition getScheme (rawURL : string) : result (string * string) :=
  getScheme_at 0 rawURL rawURL.

Definition validOptionalPort (port : string) : bool :=
  match port with
  | EmptyString => true
  | String c digits => Ascii.eqb c ":" && all isdigit digits
  end.

Definition validUserinfo (s : string) : bool :=
  all (fun c => isalpha c || isdigit c || mem c "-._:~!$&'()*+,;=%@") s.

(** [parseHost]: a host name, or an IP literal in brackets, with an
    optional port. *)
Definition parseHost (host : string) : result string :=
  if HasPrefix host "[" then
    match LastIndexByte host "]" with
    | None => Err "missing ']' in host"
    | Some i =>
        if negb (validOptionalPort (drop (i + 1) host))
        then Err "invalid port after host"
        else match Index (take i host) "%25" with
             | Some zone =>
                 match unescape (take zone host) encodeHost,
                       unescape (take (i - zone) (drop zone host)) encodeZone,
                       unescape (drop i host) encodeHost with
                 | Ok host1, Ok host2, Ok host3 => Ok (host1 +:+ host2 +:+ host3)
                 | Err e, _, _ | _, Err e, _ | _, _, Err e => Err e
                 end
             | None => unescape host encodeHost
             end
    end
  else
    match LastIndexByte host ":" with
    | Some i =>
        if negb (validOptionalPort (drop i host))
        then Err "invalid port after host"
        else unescape host encodeHost
    | None => unescape host encodeHost
    end.

Definition parseAuthority (authority : string) : result (option string * string) :=
  match LastIndexByte authority "@" with
  | None =>
      match parseHost authority with
      | Ok host => Ok (None, host)
      | Err e => Err e
      end
  | Some i =>
      match parseHost (drop (i + 1) authority) with
      | Err e => Err e
      | Ok host =>
          let userinfo := take i authority in
          if negb (validUserinfo userinfo) then Err "net/url: invalid userinfo"
          else match unescape userinfo encodeUserPassword with
               | Ok _ => Ok (Some userinfo, host)
               | Err e => Err e
               end
      end
  end.

(** The last step of [parse]: the authority, if the rest starts with two
    slashes, and the path. *)
Definition parse_authority_path (viaRequest : bool) (scheme rest rawquery : string)
    (forcequery : bool) : result URL :=
  if (negb (String.eqb scheme "") || negb viaRequest && negb (HasPrefix rest "///"))
     && HasPrefix rest "//"
  then
    let authority := drop 2 rest in
    let '(authority, rest) :=
      match Index authority "/" with
      | Some i => (take i authority, drop i authority)
      | None => (authority, EmptyString)
      end in
    match parseAuthority authority with
    | Err e => Err e
    | Ok (user, host) =>
        match unescape rest encodePath with
        | Err e => Err e
        | Ok path => Ok (mkURL scheme "" user host path false forcequery rawquery "")
        end
    end
  else
    match unescape rest encodePath with
    | Err e => Err e
    | Ok path =>
        Ok (mkURL scheme "" None "" path
              (negb (String.eqb scheme "") && HasPrefix rest "/")
              forcequery rawquery "")
    end.

Definition parse (rawURL : string) (viaRequest : bool) : result URL :=
  if stringContainsCTLByte rawURL
  then Err "net/url: invalid control character in URL"
  else if String.eqb rawURL "" && viaRequest then Err "empty url"
  else if String.eqb rawURL "*" then Ok (mkURL "" "" None "" "*" false false "" "")
  else
    match getScheme rawURL with
    | Err e => Err e
    | Ok (scheme, rest) =>
        let scheme := ToLower scheme in
        let '(rest, rawquery, forcequery) :=
          if HasSuffix rest "?" && (CountByte rest "?" =? 1)%nat
          then (take (String.length rest - 1) rest, EmptyString, true)
          else let '(r, q, _) := Cut rest "?" in (r, q, false) in
        if negb (HasPrefix rest "/") then
          if negb (String.eqb scheme "")
          then Ok (mkURL scheme rest None "" "" false forcequery rawquery "")
          else if viaRequest then Err "invalid URI for request"
          else if Contains (fst (fst (Cut rest "/"))) ":"
          then Err "first path segment in URL cannot contain colon"
          else parse_authority_path viaRequest scheme rest rawquery forcequery
        else parse_authority_path viaRequest scheme rest rawquery forcequery
    end.

(** [url.Parse] *)
Definition Parse (rawURL : string) : result URL :=
  let '(u, frag, _) := Cut rawURL "#" in
  match parse u false with
  | Err e => Err e
  | Ok url =>
      if String.eqb frag "" then Ok url
      else match unescape frag encodeFragment with
           | Err e => Err e
           | Ok f =>
               Ok (mkURL (Scheme url) (Opaque url) (User url) (Host url) (Path url)
                     (OmitHost url) (ForceQuery url) (RawQuery url) f)
           end
  end.

Definition splitHostPort (hostPort : string) : string * string :=
  let '(host, port) :=
    match LastIndexByte hostPort ":" with
    | Some colon =>
        if validOptionalPort (drop colon hostPort)
        then (take colon hostPort, drop (colon + 1) hostPort)
        else (hostPort, EmptyString)
    | None => (hostPort, EmptyString)
    end in
  if HasPrefix host "[" && HasSuffix host "]"
  then (take (String.length host - 2) (drop 1 host), port)
  else (host, port).

(** [URL.Hostname]: the host without its port and without the brackets
    of an IP literal. *)
Definition Hostname (u : URL) : string := fst (splitHostPort (Host u)).

End url.

(** A Go function that may panic instead of returning. *)
Inductive outcome (A : Type) : Type :=
  | Returns (a : A)
  | Panics (msg : string).
Arguments Returns {A} a.
Arguments Panics {A} msg.

#[global] Instance outcome_ret : MRet outcome := fun A a => Returns a.

#[global] Instance outcome_bind : MBind outcome := fun A B k m =>
  match m with
  | Returns a => k a
  | Panics msg => Panics msg
  end.

(** ** net/http

    The part of [net/http] that [check] calls: [http.NewRequest],
    [Header.Add] and [Client.Do].  The network is a parameter: a
    [Transport] says, for a request, what comes back and after how long. *)
Module http.
Import strings.

Abbreviation Header := (gmap string (list string)).

(** The bytes of a token of RFC 7230: method names and header names. *)
Definition isTokenByte (c : ascii) : bool :=
  ((97 <=? byte c) && (byte c <=? 122) || (65 <=? byte c) && (byte c <=? 90)
   || (48 <=? byte c) && (byte c <=? 57))%N
  || url.mem c "!#$%&'*+-.^_`|~".

Definition validMethod (method : string) : bool :=
  negb (String.eqb method "") && all isTokenByte method.

Fixpoint canonical_case (up : bool) (s : string) : string :=
  match s with
  | EmptyString => EmptyString
  | String c s' =>
      let c' := if up then upper c else lower c in
      String c' (canonical_case (Ascii.eqb c' "-") s')
  end.

(** [textproto.CanonicalMIMEHeaderKey]: the first letter and the letters
    after a hyphen in upper case, the others in lower case; a key that holds
    a byte that is not allowed in a header name is left as it is. *)
Definition CanonicalMIMEHeaderKey (s : string) : string :=
  if all isTokenByte s then canonical_case true s else s.

(** [h.Add(key, value)] *)
Definition Add (h : Header) (key value : string) : Header :=
  let k := CanonicalMIMEHeaderKey key in
  <[k := default [] (h !! k) ++ [value]]> h.

(** The fields of a request that [NewRequest] sets.  [Body] is [None] when
    no payload is sent (a nil body, or [http.NoBody]). *)
Record Request : Type := mkRequest {
  Method : string;
  URL : url.URL;
  Header_ : Header;
  Body : option string;
  ContentLength : Z;
  Host : string
}.

Record Response : Type := mkResponse {
  StatusCode : Z;
  ResponseBody : string
}.

Definition hasPort (s : string) : bool :=
  match LastIndexByte s ":", LastIndexByte s "]" with
  | Some i, Some j => (j <? i)%nat
  | Some _, None => true
  | None, _ => false
  end.

Definition removeEmptyPort (host : string) : string :=
  if hasPort host && HasSuffix host ":"
  then take (String.length host - 1) host
  else host.

(** [http.NewRequest(method, url, body)], where [body] is nil ([None]) or a
    [*bytes.Buffer] with the given content.  It returns the request and a
    nil error, or a nil request and the error. *)
Definition NewRequest (method rawurl : string) (body : option string)
    : option Request * option string :=
  let method := if String.eqb method "" then "GET" else method in
  if negb (validMethod method) then (None, Some "net/http: invalid method")
  else
    match url.Parse rawurl with
    | Err e => (None, Some e)
    | Ok u =>
        let host := removeEmptyPort (url.Host u) in
        let u := url.mkURL (url.Scheme u) (url.Opaque u) (url.User u) host
                   (url.Path u) (url.OmitHost u) (url.ForceQuery u)
                   (url.RawQuery u) (url.Fragment u) in
        let payload :=
          match body with
          | Some b => if String.eqb b "" then None else Some b
          | None => None
          end in
        (Some (mkRequest method u ∅ payload
                 (Z.of_nat (String.length (default EmptyString body))) host),
         None)
    end.

(** [time.Duration] counts nanoseconds. *)
Definition Millisecond : Z := 1000000.
Definition Second : Z := 1000 * Millisecond.

Record Client : Type := mkClient { Timeout : Z }.

(** What the network does with a request: a response whose headers are
    received [elapsed] nanoseconds after the request started (after any
    redirects), or a failure (no route, refused connection, failed name
    resolution, ...) noticed after [elapsed] nanoseconds. *)
Inductive RoundTrip : Type :=
  | Answered (elapsed : Z) (resp : Response)
  | Failed (elapsed : Z) (err : string).

Definition Transport : Type := Request -> RoundTrip.

Definition elapsed_of (r : RoundTrip) : Z :=
  match r with Answered t _ | Failed t _ => t end.

(** [c.Do(req)]: the response and a nil error, or a nil response and the
    error.  A request whose scheme is not http or https, or that has no
    host, fails before anything is sent; with a non-zero [Timeout], what has
    not come back when the time is over is an error. *)
Definition Do (c : Client) (net : Transport) (req : Request)
    : option Response * option string :=
  if negb (String.eqb (url.Scheme (URL req)) "http"
           || String.eqb (url.Scheme (URL req)) "https")
  then (None, Some "unsupported protocol scheme")
  else if String.eqb (url.Host (URL req)) ""
  then (None, Some "http: no Host in request URL")
  else
    let r := net req in
    if (0 <? Timeout c)%Z && (Timeout c <=? elapsed_of r)%Z
    then (None, Some "context deadline exceeded (Client.Timeout exceeded while awaiting headers)")
    else match r with
         | Answered _ resp => (Some resp, None)
         | Failed _ err => (None, Some err)
         end.

End http.

(** ** fetch.go *)

Import Float64.

(** YAML config file parsed data *)
Record HealthCheck : Type := mkHealthCheck {
  Body : string;
  Headers : option (gmap string string);
  Method : string;
  Name : string;
  URL : string;
  hostname : string
}.

(** Result is the data structure to store the history of attempts *)
Record Result : Type := mkResult {
  Attempt : float64;
  Success : float64
}.

(** Calculate successful percentage of uptime for the domains of each URL *)
Definition Uptime (r : Result) : Z :=
  if feqb (Attempt r) (of_Z 0) then 0%Z
  else to_int (Round (fmul (of_Z 100) (fdiv (Success r) (Attempt r)))).

(** HTTP Request timeout set in milliseconds *)
Definition responseTimeout : Z := 500.

(** Output timeout set in seconds *)
Definition outputTimeout : Z := 15.

(** [req.Header.Add(k, v)], through the pointer [req]. *)
Definition add_header (req : option http.Request) (kv : string * string)
    : outcome (option http.Request) :=
  match req with
  | None => Panics "invalid memory address or nil pointer dereference"
  | Some r =>
      Returns (Some (http.mkRequest (http.Method r) (http.URL r)
                       (http.Add (http.Header_ r) kv.1 kv.2)
                       (http.Body r) (http.ContentLength r) (http.Host r)))
  end.

(** [for k, v := range site.Headers { req.Header.Add(k, v) }], the entries
    of the map being visited in the order of the list. *)
Fixpoint add_headers (kvs : list (string * string)) (req : option http.Request)
    : outcome (option http.Request) :=
  match kvs with
  | [] => Returns req
  | kv :: kvs' => req' ← add_header req kv; add_headers kvs' req'
  end.

(** The method of the request: ["GET"] unless the site names one. *)
Definition effectiveMethod (site : HealthCheck) : string :=
  if String.eqb (Method site) "" then "GET" else Method site.

(** Response code must be between 200 and 299 otherwise it is considered
    down *)
Definition is_up (resp : http.Response) : bool :=
  (200 <=? http.StatusCode resp)%Z && (http.StatusCode resp <=? 299)%Z.

Definition client : http.Client :=
  http.mkClient (responseTimeout * http.Millisecond).

(** Simple HTTP request function.  Go leaves the order in which [range]
    visits a map open; the model takes the order of [map_to_list]. *)
Definition check (net : http.Transport) (site : HealthCheck) : outcome bool :=
  let method := effectiveMethod site in
  let '(req, err) := http.NewRequest method (URL site) (Some (Body site)) in
  match err with
  | Some _ => Returns false
  | None =>
      req ← match Headers site with
            | Some headers => add_headers (map_to_list headers) req
            | None => Returns req
            end;
      match req with
      | None => Panics "invalid memory address or nil pointer dereference"
      | Some r =>
          let '(resp, err) := http.Do client net r in
          match err with
          | Some _ => Returns false
          | None =>
              match resp with
              | None => Panics "invalid memory address or nil pointer dereference"
              | Some resp => if is_up resp then Returns true else Returns false
              end
          end
      end
  end.

Definition newline : string := String (ascii_of_nat 10) EmptyString.

(** The sanity checks of [main]: the loop over the parsed file, which sets
    the hostname of every entry and gives every hostname a fresh [Result].
    It ends in the entries and the map, or in the message printed before
    [os.Exit(-1)]. *)
Fixpoint sanity_checks (todo done : list HealthCheck) (Sites : gmap string Result)
    : string + list HealthCheck * gmap string Result :=
  match todo with
  | [] => inr (done, Sites)
  | hc :: todo' =>
      if String.eqb (Name hc) ""
      then inl ("Error: Required name not found" +:+ newline)
      else if String.eqb (URL hc) ""
      then inl ("Error: Required URL not found" +:+ newline)
      else
        match url.Parse (URL hc) with
        | Err _ => inl ("Error: Cant parse URL: " +:+ URL hc)
        | Ok address =>
            let h := url.Hostname address in
            sanity_checks todo'
              (done ++ [mkHealthCheck (Body hc) (Headers hc) (Method hc) (Name hc)
                          (URL hc) h])
              (<[h := mkResult zero zero]> Sites)
        end
  end.

(** *** The polling loop

    The loop of [main] and the goroutines it starts, as a transition
    system.  A step is one action of the main goroutine or of one started
    goroutine; any interleaving is possible. *)

(** Where the main goroutine is in the body of [for]. *)
Inductive main_pc : Type :=
  | AtTop                 (* wg := new(sync.WaitGroup); wg.Add(len(healthcheck)) *)
  | AtSpawn (i : nat)     (* go func(hc HealthCheck) {...}(hc), for entry i *)
  | AtWait                (* wg.Wait() *)
  | AtReport              (* the loop that prints the uptime of every host *)
  | AtSleep.              (* time.Sleep(...) *)

#[global] Instance main_pc_eq_dec : EqDecision main_pc.
Proof. solve_decision. Defined.

(** Where a started goroutine is in the body of [func(hc HealthCheck)].
    [Attempt++] and [Success++] are a read followed by a write. *)
Inductive go_pc : Type :=
  | Probing                                   (* success := check(hc) *)
  | Locking (success : bool)                  (* status.lock.Lock() *)
  | LoadingAttempt (success : bool)           (* reads Sites[hc.hostname].Attempt *)
  | StoringAttempt (success : bool) (v : float64)  (* writes v + 1; if success *)
  | LoadingSuccess                            (* reads Sites[hc.hostname].Success *)
  | StoringSuccess (v : float64)              (* writes v + 1 *)
  | Unlocking (success : bool)                (* status.lock.Unlock() *)
  | Signalling (success : bool)               (* wg.Done() *)
  | Finished (success : bool).

(** A goroutine: its argument, the WaitGroup its closure holds (the one
    of the iteration that started it), and where it is. *)
Record goroutine : Type := mkGoroutine {
  g_hc : HealthCheck;
  g_wg : nat;
  g_pc : go_pc
}.

(** The state of the loop: the mutex and the map of [status], the
    counters of the WaitGroups made so far ([wg] is the last one), and the
    goroutines started so far. *)
Record state : Type := mkState {
  locked : bool;
  Sites : gmap string Result;
  wgs : list Z;
  goroutines : list goroutine;
  pc : main_pc
}.

(** What a step does that can be seen from outside. *)
Inductive event : Type :=
  | EvNet (site : HealthCheck)             (* the HTTP request of a probe *)
  | EvReport (lines : list (string * Z))   (* the lines printed: host and uptime *)
  | EvSleep (d : Z)
  | EvTau.

Definition set_pc (g : goroutine) (p : go_pc) : goroutine :=
  mkGoroutine (g_hc g) (g_wg g) p.

Definition set_Attempt (r : Result) (v : float64) : Result := mkResult v (Success r).
Definition set_Success (r : Result) (v : float64) : Result := mkResult (Attempt r) v.

(** The constant [1] of [x++]. *)
Definition one : float64 := of_Z 1.

(** The WaitGroup that [wg] names. *)
Definition wg (st : state) : nat := (length (wgs st) - 1)%nat.

Inductive step (healthcheck : list HealthCheck) : state -> event -> state -> Prop :=
  | step_top st :
      pc st = AtTop ->
      step healthcheck st EvTau
        (mkState (locked st) (Sites st)
           (wgs st ++ [Z.of_nat (length healthcheck)]) (goroutines st) (AtSpawn 0))
  | step_spawn st i hc :
      pc st = AtSpawn i -> healthcheck !! i = Some hc ->
      step healthcheck st EvTau
        (mkState (locked st) (Sites st) (wgs st)
           (goroutines st ++ [mkGoroutine hc (wg st) Probing]) (AtSpawn (S i)))
  | step_spawned st i :
      pc st = AtSpawn i -> healthcheck !! i = None ->
      step healthcheck st EvTau
        (mkState (locked st) (Sites st) (wgs st) (goroutines st) AtWait)
  | step_wait st :
      pc st = AtWait -> wgs st !! wg st = Some 0%Z ->
      step healthcheck st EvTau
        (mkState (locked st) (Sites st) (wgs st) (goroutines st) AtReport)
  | step_report st lines :
      pc st = AtReport -> lines ≡ₚ map_to_list (Uptime <$> Sites st) ->
      step healthcheck st (EvReport lines)
        (mkState (locked st) (Sites st) (wgs st) (goroutines st) AtSleep)
  | step_sleep st :
      pc st = AtSleep ->
      step healthcheck st (EvSleep (outputTimeout * http.Second))
        (mkState (locked st) (Sites st) (wgs st) (goroutines st) AtTop)
  | step_probe st i g net success :
      goroutines st !! i = Some g -> g_pc g = Probing ->
      check net (g_hc g) = Returns success ->
      step healthcheck st (EvNet (g_hc g))
        (mkState (locked st) (Sites st) (wgs st)
           (<[i := set_pc g (Locking success)]> (goroutines st)) (pc st))
  | step_lock st i g success :
      goroutines st !! i = Some g -> g_pc g = Locking success ->
      locked st = false ->
      step healthcheck st EvTau
        (mkState true (Sites st) (wgs st)
           (<[i := set_pc g (LoadingAttempt success)]> (goroutines st)) (pc st))
  | step_load_attempt st i g success r :
      goroutines st !! i = Some g -> g_pc g = LoadingAttempt success ->
      Sites st !! hostname (g_hc g) = Some r ->
      step healthcheck st EvTau
        (mkState (locked st) (Sites st) (wgs st)
           (<[i := set_pc g (StoringAttempt success (Attempt r))]> (goroutines st))
           (pc st))
  | step_store_attempt st i g success v r :
      goroutines st !! i = Some g -> g_pc g = StoringAttempt success v ->
      Sites st !! hostname (g_hc g) = Some r ->
      step healthcheck st EvTau
        (mkState (locked st)
           (<[hostname (g_hc g) := set_Attempt r (fadd v one)]> (Sites st)) (wgs st)
           (<[i := set_pc g (if success then LoadingSuccess else Unlocking false)]>
              (goroutines st))
           (pc st))
  | step_load_success st i g r :
      goroutines st !! i = Some g -> g_pc g = LoadingSuccess ->
      Sites st !! hostname (g_hc g) = Some r ->
      step healthcheck st EvTau
        (mkState (locked st) (Sites st) (wgs st)
           (<[i := set_pc g (StoringSuccess (Success r))]> (goroutines st)) (pc st))
  | step_store_success st i g v r :
      goroutines st !! i = Some g -> g_pc g = StoringSuccess v ->
      Sites st !! hostname (g_hc g) = Some r ->
      step healthcheck st EvTau
        (mkState (locked st)
           (<[hostname (g_hc g) := set_Success r (fadd v one)]> (Sites st)) (wgs st)
           (<[i := set_pc g (Unlocking true)]> (goroutines st)) (pc st))
  | step_unlock st i g success :
      goroutines st !! i = Some g -> g_pc g = Unlocking success ->
      locked st = true ->
      step healthcheck st EvTau
        (mkState false (Sites st) (wgs st)
           (<[i := set_pc g (Signalling success)]> (goroutines st)) (pc st))
  | step_done st i g success n :
      goroutines st !! i = Some g -> g_pc g = Signalling success ->
      wgs st !! g_wg g = Some n -> (0 < n)%Z ->
      step healthcheck st EvTau
        (mkState (locked st) (Sites st) (<[g_wg g := (n - 1)%Z]> (wgs st))
           (<[i := set_pc g (Finished success)]> (goroutines st)) (pc st)).

(** The states in which the next action of a goroutine stops the whole
    process: a panic in [check], the dereference of the nil pointer that a
    missing key of [Sites] gives, the unlock of an unlocked mutex, a
    negative WaitGroup counter. *)
Inductive panics : state -> string -> Prop :=
  | panic_check st i g net msg :
      goroutines st !! i = Some g -> g_pc g = Probing ->
      check net (g_hc g) = Panics msg ->
      panics st msg
  | panic_nil st i g :
      goroutines st !! i = Some g ->
      (exists b, g_pc g = LoadingAttempt b) \/ (exists b v, g_pc g = StoringAttempt b v)
      \/ g_pc g = LoadingSuccess \/ (exists v, g_pc g = StoringSuccess v) ->
      Sites st !! hostname (g_hc g) = None ->
      panics st "invalid memory address or nil pointer dereference"
  | panic_unlock st i g success :
      goroutines st !! i = Some g -> g_pc g = Unlocking success ->
      locked st = false ->
      panics st "sync: unlock of unlocked mutex"
  | panic_done st i g success :
      goroutines st !! i = Some g -> g_pc g = Signalling success ->
      (forall n, wgs st !! g_wg g = Some n -> (n <= 0)%Z) ->
      panics st "sync: negative WaitGroup counter".

(** The states reached from [st], with the events on the way. *)
Inductive steps (healthcheck : list HealthCheck) : state -> list event -> state -> Prop :=
  | steps_refl st : steps healthcheck st [] st
  | steps_step st1 evs st2 ev st3 :
      steps healthcheck st1 evs st2 -> step healthcheck st2 ev st3 ->
      steps healthcheck st1 (evs ++ [ev]) st3.

(** The process that [main] is, once the file is read and parsed into
    [healthcheck]: it prints a message and exits with a code, or it
    enters the loop. *)
Inductive process : Type :=
  | Exit (stdout : string) (code : Z)
  | Loop (healthcheck : list HealthCheck) (st : state).

Definition main (healthcheck : list HealthCheck) : process :=
  match sanity_checks healthcheck [] ∅ with
  | inl msg => Exit msg (-1)
  | inr (healthcheck', sites) =>
      Loop healthcheck' (mkState false sites [] [] AtTop)
  end.

(** What can be observed of a process: the events of its loop.  A process
    that exits at once has none. *)
Inductive behaviour : process -> list event -> Prop :=
  | behaviour_loop healthcheck st evs st' :
      steps healthcheck st evs st' -> behaviour (Loop healthcheck st) evs
  | behaviour_exit stdout code : behaviour (Exit stdout code) [].

(** *** A scheduler

    [fire] performs the action of the main goroutine, or of goroutine [i]
    when its probe meets the network [net], if that action is possible;
    [exec] performs a list of them.  They are used to build runs. *)
Inductive action : Type :=
  | ActMain
  | ActGo (i : nat) (net : http.Transport).

Definition fire_main (healthcheck : list HealthCheck) (st : state)
    : option (event * state) :=
  match pc st with
  | AtTop =>
      Some (EvTau, mkState (locked st) (Sites st)
                     (wgs st ++ [Z.of_nat (length healthcheck)]) (goroutines st)
                     (AtSpawn 0))
  | AtSpawn i =>
      match healthcheck !! i with
      | Some hc =>
          Some (EvTau, mkState (locked st) (Sites st) (wgs st)
                         (goroutines st ++ [mkGoroutine hc (wg st) Probing])
                         (AtSpawn (S i)))
      | None =>
          Some (EvTau, mkState (locked st) (Sites st) (wgs st) (goroutines st) AtWait)
      end
  | AtWait =>
      match wgs st !! wg st with
      | Some 0%Z =>
          Some (EvTau, mkState (locked st) (Sites st) (wgs st) (goroutines st) AtReport)
      | _ => None
      end
  | AtReport =>
      Some (EvReport (map_to_list (Uptime <$> Sites st)),
            mkState (locked st) (Sites st) (wgs st) (goroutines st) AtSleep)
  | AtSleep =>
      Some (EvSleep (outputTimeout * http.Second),
            mkState (locked st) (Sites st) (wgs st) (goroutines st) AtTop)
  end.

Definition fire_go (i : nat) (net : http.Transport) (st : state)
    : option (event * state) :=
  g ← goroutines st !! i;
  let move p := <[i := set_pc g p]> (goroutines st) in
  match g_pc g with
  | Probing =>
      match check net (g_hc g) with
      | Returns success =>
          Some (EvNet (g_hc g),
                mkState (locked st) (Sites st) (wgs st) (move (Locking success)) (pc st))
      | Panics _ => None
      end
  | Locking success =>
      if locked st then None
      else Some (EvTau, mkState true (Sites st) (wgs st)
                          (move (LoadingAttempt success)) (pc st))
  | LoadingAttempt success =>
      r ← Sites st !! hostname (g_hc g);
      Some (EvTau, mkState (locked st) (Sites st) (wgs st)
                     (move (StoringAttempt success (Attempt r))) (pc st))
  | StoringAttempt success v =>
      r ← Sites st !! hostname (g_hc g);
      Some (EvTau, mkState (locked st)
                     (<[hostname (g_hc g) := set_Attempt r (fadd v one)]> (Sites st))
                     (wgs st)
                     (move (if success then LoadingSuccess else Unlocking false))
                     (pc st))
  | LoadingSuccess =>
      r ← Sites st !! hostname (g_hc g);
      Some (EvTau, mkState (locked st) (Sites st) (wgs st)
                     (move (StoringSuccess (Success r))) (pc st))
  | StoringSuccess v =>
      r ← Sites st !! hostname (g_hc g);
      Some (EvTau, mkState (locked st)
                     (<[hostname (g_hc g) := set_Success r (fadd v one)]> (Sites st))
                     (wgs st) (move (Unlocking true)) (pc st))
  | Unlocking success =>
      if locked st
      then Some (EvTau, mkState false (Sites st) (wgs st)
                          (move (Signalling success)) (pc st))
      else None
  | Signalling success =>
      n ← wgs st !! g_wg g;
      if (0 <? n)%Z
      then Some (EvTau, mkState (locked st) (Sites st)
                          (<[g_wg g := (n - 1)%Z]> (wgs st))
                          (move (Finished success)) (pc st))
      else None
  | Finished _ => None
  end.

Definition fire (healthcheck : list HealthCheck) (a : action) (st : state)
    : option (event * state) :=
  match a with
  | ActMain => fire_main healthcheck st
  | ActGo i net => fire_go i net st
  end.

Fixpoint exec (healthcheck : list HealthCheck) (acts : list action) (st : state)
    : option state :=
  match acts with
  | [] => Some st
  | a :: acts' =>
      match fire healthcheck a st with
      | Some (_, st') => exec healthcheck acts' st'
      | None => None
      end
  end.

(** The actions of one goroutine from its probe to [wg.Done()]: eight
    when the probe succeeds, six when it fails. *)
Definition whole_goroutine (i : nat) (net : http.Transport) (success : bool)
    : list action :=
  replicate (if success then 8 else 6) (ActGo i net).

(** What [check] has returned in a goroutine that is past its probe. *)
Definition success_of (p : go_pc) : option bool :=
  match p with
  | Probing => None
  | Locking b | LoadingAttempt b | StoringAttempt b _ | Unlocking b
  | Signalling b | Finished b => Some b
  | LoadingSuccess | StoringSuccess _ => Some true
  end.

(** ** The sequential variant (README.md)

    The first version of the program: the probes of a cycle run one after
    the other in the main goroutine, the counters are [int]s in a map of
    maps, and [check] adds the headers before it looks at the error of
    [http.NewRequest]. *)
Module Sequential.

(** [int] arithmetic: 64 bits, two's complement. *)
Definition wrap (n : Z) : Z := ((n + 2 ^ 63) mod 2 ^ 64 - 2 ^ 63)%Z.

Definition check (net : http.Transport) (site : HealthCheck) : outcome bool :=
  let method := effectiveMethod site in
  let '(req, err) := http.NewRequest method (URL site) (Some (Body site)) in
  req ← match Headers site with
        | Some headers => add_headers (map_to_list headers) req
        | None => Returns req
        end;
  match err with
  | Some _ => Returns false
  | None =>
      match req with
      | None => Panics "invalid memory address or nil pointer dereference"
      | Some r =>
          let '(resp, err) := http.Do client net r in
          match err with
          | Some _ => Returns false
          | None =>
              match resp with
              | None => Panics "invalid memory address or nil pointer dereference"
              | Some resp => if is_up resp then Returns true else Returns false
              end
          end
      end
  end.

(** Here we setup a little data structure to track the status of the URL
    domains *)
Definition fresh : gmap string Z := <["count" := 0%Z]> (<["success" := 0%Z]> ∅).

Fixpoint sanity_checks (todo done : list HealthCheck)
    (HealthCheckStatus : gmap string (gmap string Z))
    : string + list HealthCheck * gmap string (gmap string Z) :=
  match todo with
  | [] => inr (done, HealthCheckStatus)
  | hc :: todo' =>
      if String.eqb (Name hc) ""
      then inl ("Error: Required name not found" +:+ newline)
      else if String.eqb (URL hc) ""
      then inl ("Error: Required URL not found" +:+ newline)
      else
        match url.Parse (URL hc) with
        | Err _ => inl ("Error: Cant parse URL: " +:+ URL hc)
        | Ok address =>
            let h := url.Hostname address in
            sanity_checks todo'
              (done ++ [mkHealthCheck (Body hc) (Headers hc) (Method hc) (Name hc)
                          (URL hc) h])
              (<[h := fresh]> HealthCheckStatus)
        end
  end.

(** [m[key]++] *)
Definition incr (key : string) (m : gmap string Z) : gmap string Z :=
  <[key := wrap (default 0%Z (m !! key) + 1)]> m.

(** The body of the probing loop after [success := check(hc)].  The
    increment of an entry of the nil map that a missing hostname gives
    panics. *)
Definition record (HealthCheckStatus : gmap string (gmap string Z))
    (probe : HealthCheck * bool) : outcome (gmap string (gmap string Z)) :=
  match HealthCheckStatus !! hostname probe.1 with
  | None => Panics "assignment to entry in nil map"
  | Some m =>
      let m := incr "count" m in
      let m := if probe.2 then incr "success" m else m in
      Returns (<[hostname probe.1 := m]> HealthCheckStatus)
  end.

(** The probing loop of a cycle: every entry is probed with its network,
    one after the other. *)
Fixpoint cycle (healthcheck : list HealthCheck) (nets : list http.Transport)
    (HealthCheckStatus : gmap string (gmap string Z))
    : outcome (gmap string (gmap string Z)) :=
  match healthcheck, nets with
  | hc :: healthcheck', net :: nets' =>
      success ← check net hc;
      HealthCheckStatus' ← record HealthCheckStatus (hc, success);
      cycle healthcheck' nets' HealthCheckStatus'
  | _, _ => Returns HealthCheckStatus
  end.

(** The same loop, given what every call of [check] returned. *)
Fixpoint probes (results : list (HealthCheck * bool))
    (HealthCheckStatus : gmap string (gmap string Z))
    : outcome (gmap string (gmap string Z)) :=
  match results with
  | [] => Returns HealthCheckStatus
  | probe :: results' =>
      HealthCheckStatus' ← record HealthCheckStatus probe;
      probes results' HealthCheckStatus'
  end.

(** Formula: 100 * (number of HTTP requests that had an outcome of UP /
    number of HTTP requests) *)
Definition uptime (m : gmap string Z) : Z :=
  let success := default 0%Z (m !! "success") in
  let count := default 0%Z (m !! "count") in
  to_int (Round (fmul (of_Z 100) (fdiv (of_Z success) (of_Z count)))).

(** The uptime printed for every host. *)
Definition report (HealthCheckStatus : gmap string (gmap string Z)) : gmap string Z :=
  uptime <$> HealthCheckStatus.

Inductive process : Type :=
  | Exit (stdout : string) (code : Z)
  | Loop (healthcheck : list HealthCheck) (HealthCheckStatus : gmap string (gmap string Z)).

Definition main (healthcheck : list HealthCheck) : process :=
  match sanity_checks healthcheck [] ∅ with
  | inl msg => Exit msg (-1)
  | inr (healthcheck', status) => Loop healthcheck' status
  end.

End Sequential.


(** ** Notions used in the statements *)

(** The value of a counter that was incremented [n] times from zero. *)
Definition count (n : nat) : float64 := of_Z (Z.min (Z.of_nat n) (2 ^ 53)).

(** What [Uptime] computes from two counters: the quotient is rounded,
    its product with 100 is rounded, and the result goes to the nearest
    integer, a half going up. *)
Definition quotient (s a : Z) : Q := val (round_pos false (inject_Z s / inject_Z a)).

Definition percent (s a : Z) : Q := val (round_pos false (100 * quotient s a)).

(** The request that [check] hands to [client.Do]: the one of
    [http.NewRequest] with the headers of the site added; none when
    [http.NewRequest] fails. *)
Definition with_headers (kvs : list (string * string)) (r : http.Request) : http.Request :=
  http.mkRequest (http.Method r) (http.URL r)
    (foldl (fun h kv => http.Add h kv.1 kv.2) (http.Header_ r) kvs)
    (http.Body r) (http.ContentLength r) (http.Host r).

Definition site_headers (site : HealthCheck) : list (string * string) :=
  match Headers site with
  | Some headers => map_to_list headers
  | None => []
  end.

Definition request_of (site : HealthCheck) : option http.Request :=
  match http.NewRequest (effectiveMethod site) (URL site) (Some (Body site)) with
  | (Some r, None) => Some (with_headers (site_headers site) r)
  | _ => None
  end.

(** What [check] makes of the result of [client.Do]. *)
Definition classify (result : option http.Response * option string) : bool :=
  match result with
  | (Some resp, None) => is_up resp
  | _ => false
  end.

(** The values that the headers [kvs] give to the canonical key [K], in
    the order of [kvs]. *)
Definition values_for (K : string) (kvs : list (string * string)) : list string :=
  omap (fun kv => if decide (http.CanonicalMIMEHeaderKey kv.1 = K)
                  then Some kv.2 else None) kvs.

Definition site_post : HealthCheck :=
  mkHealthCheck "x=1"
    (Some (<["content-type" := "application/json"]> (<["foo" := "bar"]> ∅)))
    "POST" "post endpoint" "http://localhost/some/post/endpoint" "localhost".

Definition no_network : http.Transport := fun _ => http.Failed 0 "no route to host".

Definition site_bad_method : HealthCheck :=
  mkHealthCheck "" (Some (<["foo" := "bar"]> ∅)) "BAD METHOD" "home"
    "http://localhost/" "localhost".

(** A site with an empty, non-nil map of headers and a method that is
    not a token. *)
Definition site_empty_headers : HealthCheck :=
  mkHealthCheck "" (Some ∅) "BAD METHOD" "home" "http://localhost/" "localhost".

(** [round] of the specification, with a half going away from zero, and
    with a half going to the even integer. *)
Definition round_half_away (x : Q) : Z :=
  if Qle_bool 0 x then Qfloor (x + (1 # 2)) else (- Qfloor (- x + (1 # 2)))%Z.

Definition round_half_even (x : Q) : Z := rne x.

(** [uptimePercent] as the specification words it:
    [round(100 * successes / attempts)] if [attempts > 0], else [0]. *)
Definition uptimePercent (round : Q -> Z) (successes attempts : Z) : Z :=
  if (0 <? attempts)%Z then round (100 * inject_Z successes / inject_Z attempts)%Q
  else 0%Z.

(** Networks that answer every request at once, with 200 and with 500. *)
Definition network_up : http.Transport :=
  fun _ => http.Answered 1000 (http.mkResponse 200 EmptyString).

Definition network_down : http.Transport :=
  fun _ => http.Answered 1000 (http.mkResponse 500 EmptyString).

(** What [check] returned in every goroutine, with the entry probed. *)
Definition results (st : state) : list (HealthCheck * bool) :=
  map (fun g => (g_hc g, default false (success_of (g_pc g)))) (goroutines st).

(** An entry whose sanity check fails. *)
Definition bad_entry (hc : HealthCheck) : Prop :=
  Name hc = "" \/ URL hc = "" \/ exists e, url.Parse (URL hc) = Err e.

(** The hostname that [main] derives from a URL that parses. *)
Definition host_of (rawurl : string) : string :=
  match url.Parse rawurl with
  | Ok address => url.Hostname address
  | Err _ => EmptyString
  end.

(** An entry with its hostname set. *)
Definition resolved (hc : HealthCheck) : HealthCheck :=
  mkHealthCheck (Body hc) (Headers hc) (Method hc) (Name hc) (URL hc) (host_of (URL hc)).

(** An entry with a name and a plain http URL, and one whose URL has no
    scheme. *)
Definition site (name rawurl : string) : HealthCheck :=
  mkHealthCheck "" None "" name rawurl "".

(** *** The invariant of the polling loop *)

(** How many goroutines of a list satisfy [f]. *)
Definition tally (f : goroutine -> bool) (gs : list goroutine) : nat :=
  sum_list_with (fun g => if f g then 1%nat else 0%nat) gs.

Definition in_section (p : go_pc) : bool :=
  match p with
  | LoadingAttempt _ | StoringAttempt _ _ | LoadingSuccess | StoringSuccess _
  | Unlocking _ => true
  | _ => false
  end.

Definition attempt_stored (p : go_pc) : bool :=
  match p with
  | LoadingSuccess | StoringSuccess _ | Unlocking _ | Signalling _ | Finished _ => true
  | _ => false
  end.

Definition success_stored (p : go_pc) : bool :=
  match p with
  | Unlocking true | Signalling true | Finished true => true
  | _ => false
  end.

Definition is_finished (p : go_pc) : bool :=
  match p with Finished _ => true | _ => false end.

Definition on_host (h : string) (g : goroutine) : bool :=
  bool_decide (hostname (g_hc g) = h).

(** The number of attempts, and of successes, stored for a host. *)
Definition attempts_of (h : string) (gs : list goroutine) : nat :=
  tally (fun g => on_host h g && attempt_stored (g_pc g)) gs.

Definition successes_of (h : string) (gs : list goroutine) : nat :=
  tally (fun g => on_host h g && success_stored (g_pc g)) gs.

(** The goroutines of WaitGroup [k] that have called [wg.Done()]. *)
Definition finished_of (k : nat) (gs : list goroutine) : nat :=
  tally (fun g => bool_decide (g_wg g = k) && is_finished (g_pc g)) gs.

Definition tag (g : goroutine) : HealthCheck * nat := (g_hc g, g_wg g).

(** The goroutines started after [c] whole cycles and [i] entries of the
    next one: the entries of each cycle in their order, with the number of
    the cycle. *)
Definition started (healthcheck : list HealthCheck) (c i : nat)
    : list (HealthCheck * nat) :=
  flat_map (fun k => map (fun hc => (hc, k)) healthcheck) (seq 0 c)
  ++ map (fun hc => (hc, c)) (take i healthcheck).

Definition hostnames (healthcheck : list HealthCheck) : list string :=
  map hostname healthcheck.

Record invariant (healthcheck : list HealthCheck) (st : state) : Prop := mkInvariant {
  inv_started :
    match pc st with
    | AtTop => map tag (goroutines st) = started healthcheck (length (wgs st)) 0
    | AtSpawn i =>
        (0 < length (wgs st))%nat /\ (i <= length healthcheck)%nat /\
        map tag (goroutines st) = started healthcheck (length (wgs st) - 1) i
    | AtWait | AtReport | AtSleep =>
        (0 < length (wgs st))%nat /\
        map tag (goroutines st) = started healthcheck (length (wgs st)) 0
    end;
  inv_finished :
    forall g, g ∈ goroutines st ->
      match pc st with
      | AtSpawn _ | AtWait => (S (g_wg g) < length (wgs st))%nat -> is_finished (g_pc g) = true
      | AtTop | AtReport | AtSleep => is_finished (g_pc g) = true
      end;
  inv_wgs :
    forall k n, wgs st !! k = Some n ->
      n = (Z.of_nat (length healthcheck) - Z.of_nat (finished_of k (goroutines st)))%Z;
  inv_lock :
    tally (fun g => in_section (g_pc g)) (goroutines st)
    = if locked st then 1%nat else 0%nat;
  inv_sites :
    forall h, Sites st !! h =
      if bool_decide (h ∈ hostnames healthcheck)
      then Some (mkResult (count (attempts_of h (goroutines st)))
                          (count (successes_of h (goroutines st))))
      else None;
  inv_loaded :
    forall g, g ∈ goroutines st ->
      match g_pc g with
      | StoringAttempt _ v => v = count (attempts_of (hostname (g_hc g)) (goroutines st))
      | StoringSuccess v => v = count (successes_of (hostname (g_hc g)) (goroutines st))
      | _ => True
      end
}.

(** The states the loop can reach. *)
Definition reachable (healthcheck : list HealthCheck) (st0 st : state) : Prop :=
  exists evs, steps healthcheck st0 evs st.

(** The state in which [main] enters the loop. *)
Definition initial (Sites0 : gmap string Result) : state :=
  mkState false Sites0 [] [] AtTop.

(** *** A measure of what is left of a cycle *)

(** The actions a goroutine still has to do. *)
Definition remaining (p : go_pc) : nat :=
  match p with
  | Probing => 8
  | Locking _ => 7
  | LoadingAttempt _ => 6
  | StoringAttempt _ _ => 5
  | LoadingSuccess => 4
  | StoringSuccess _ => 3
  | Unlocking _ => 2
  | Signalling _ => 1
  | Finished _ => 0
  end.

Definition main_remaining (healthcheck : list HealthCheck) (p : main_pc) : nat :=
  match p with
  | AtTop => 9 * length healthcheck + 4
  | AtSpawn i => 9 * (length healthcheck - i) + 3
  | AtWait => 2
  | AtReport => 1
  | AtSleep => 0
  end.

Definition work (gs : list goroutine) : nat :=
  sum_list_with (fun g => remaining (g_pc g)) gs.

(** An upper bound of the number of steps before the next [time.Sleep]. *)
Definition measure (healthcheck : list HealthCheck) (st : state) : nat :=
  main_remaining healthcheck (pc st) + work (goroutines st).

(** How often a hostname occurs in the file. *)
Definition occurrences (h : string) (healthcheck : list HealthCheck) : nat :=
  sum_list_with (fun hc => if bool_decide (hostname hc = h) then 1%nat else 0%nat)
    healthcheck.

(** ** Two small files *)

(** Two entries on two hosts, the state in which [main] enters the loop
    with them, a schedule of their first cycle in which the two goroutines
    interleave, and the state at the report. *)
Definition two_hosts : list HealthCheck :=
  [site "a" "http://a.example.com/"; site "b" "http://b.example.com/"].

Definition two_hosts_start : state :=
  initial (<["a.example.com" := mkResult zero zero]>
             (<["b.example.com" := mkResult zero zero]> ∅)).

Definition interleaved : list action :=
  replicate 4 ActMain
  ++ [ActGo 0 network_up; ActGo 1 network_up]
  ++ replicate 6 (ActGo 0 network_up)
  ++ replicate 6 (ActGo 1 network_up)
  ++ [ActGo 1 network_up; ActGo 0 network_up; ActMain].

Definition two_hosts_done : state :=
  mkState false
    (<["a.example.com" := mkResult (of_Z 1) (of_Z 1)]>
       (<["b.example.com" := mkResult (of_Z 1) (of_Z 1)]> ∅))
    [0%Z]
    [mkGoroutine (resolved (site "a" "http://a.example.com/")) 0 (Finished true);
     mkGoroutine (resolved (site "b" "http://b.example.com/")) 0 (Finished true)]
    AtReport.

(** Two entries on one host, and a cycle in which the probe of the first
    succeeds and the probe of the second fails. *)
Definition same_host : list HealthCheck :=
  [site "x" "http://a.example.com/x"; site "y" "http://a.example.com/y"].

Definition same_host_start : state :=
  initial (<["a.example.com" := mkResult zero zero]> ∅).

Definition up_then_down : list action :=
  replicate 4 ActMain
  ++ whole_goroutine 0 network_up true
  ++ whole_goroutine 1 network_down false
  ++ [ActMain].

Definition same_host_done : state :=
  mkState false (<["a.example.com" := mkResult (of_Z 2) (of_Z 1)]> ∅) [0%Z]
    [mkGoroutine (resolved (site "x" "http://a.example.com/x")) 0 (Finished true);
     mkGoroutine (resolved (site "y" "http://a.example.com/y")) 0 (Finished false)]
    AtReport.

(** A file with one entry. *)
Definition one_host : list HealthCheck := [site "home" "http://localhost/"].

Definition one_host_start : state :=
  initial (<["localhost" := mkResult zero zero]> ∅).

(** *** The store of the sequential variant *)

(** The map that the sequential variant keeps for a host. *)
Definition bucket (count success : Z) : gmap string Z :=
  <["count" := count]> (<["success" := success]> ∅).

(** How many of the probes [rs] were of host [h], and how many of them
    succeeded. *)
Definition probed (h : string) (rs : list (HealthCheck * bool)) : nat :=
  sum_list_with (fun p : HealthCheck * bool =>
                   if bool_decide (hostname p.1 = h) then 1%nat else 0%nat) rs.

Definition succeeded (h : string) (rs : list (HealthCheck * bool)) : nat :=
  sum_list_with (fun p : HealthCheck * bool =>
                   if bool_decide (hostname p.1 = h) && p.2 then 1%nat else 0%nat) rs.

(** A store with a bucket for every host of [hosts] and no other, whose
    counters are given by [cnt] and [suc]. *)
Definition tracks (status : gmap string (gmap string Z)) (hosts : list string)
    (cnt suc : string -> Z) : Prop :=
  forall h, status !! h =
    if bool_decide (h ∈ hosts) then Some (bucket (cnt h) (suc h)) else None.

(** ** The front of [main]

    What [main] does before the sanity checks: it looks at its arguments,
    reads the file and parses the YAML.  The arguments, [ioutil.ReadFile]
    and [yaml.Unmarshal] are what the program is started with. *)
Record environment : Type := mkEnvironment {
  Args : list string;
  ReadFile : string -> result string;
  Unmarshal : string -> result (list HealthCheck)
}.

(** The whole of [main]: with fewer than two arguments it prints its usage,
    which reads [os.Args[0]] and panics when there is no argument at all. *)
Definition run (env : environment) : outcome process :=
  match Args env with
  | [] => Panics "index out of range [0] with length 0"
  | [program] => Returns (Exit ("Usage: " +:+ program +:+ " <configFile.yaml>" +:+ newline) (-1))
  | _ :: yamlConfigFile :: _ =>
      match ReadFile env yamlConfigFile with
      | Err err =>
          Returns (Exit ("Error: Unable to open yaml config file: " +:+ err +:+ " ") (-1))
      | Ok yamlFile =>
          match Unmarshal env yamlFile with
          | Err err =>
              Returns (Exit ("Error: Unable to unmarshal/parse yaml config: " +:+ err) (-1))
          | Ok healthcheck => Returns (main healthcheck)
          end
      end
  end.

(** The message that the sanity checks print for an entry they refuse. *)
Definition refusal (hc : HealthCheck) : string :=
  if String.eqb (Name hc) "" then "Error: Required name not found" +:+ newline
  else if String.eqb (URL hc) "" then "Error: Required URL not found" +:+ newline
  else "Error: Cant parse URL: " +:+ URL hc.

(** ** The loop of the sequential variant

    [for { ... }] of the sequential [main], for as many turns as there are
    lists in [netss]: the probes of a turn meet the networks of its list.
    The result is what every turn printed, and the store. *)
Fixpoint sequential_loop (healthcheck : list HealthCheck)
    (netss : list (list http.Transport))
    (HealthCheckStatus : gmap string (gmap string Z))
    : outcome (list (gmap string Z) * gmap string (gmap string Z)) :=
  match netss with
  | [] => Returns ([], HealthCheckStatus)
  | nets :: netss' =>
      HealthCheckStatus' ← Sequential.cycle healthcheck nets HealthCheckStatus;
      rest ← sequential_loop healthcheck netss' HealthCheckStatus';
      Returns (Sequential.report HealthCheckStatus' :: rest.1, rest.2)
  end.

(** ** The events of a run *)



Definition sleeps_of (evs : list event) : nat :=
  sum_list_with (fun ev => match ev with EvSleep _ => 1%nat | _ => 0%nat end) evs.


(** The first cycle over [two_hosts] at the moment when the first goroutine
    holds the lock and has read its counter. *)
Definition two_hosts_midway : state :=
  default two_hosts_start
    (exec (map resolved two_hosts) (take 8 interleaved) two_hosts_start).




(** The store with which the sequential variant enters its loop on
    [two_hosts]. *)
Definition two_hosts_status : gmap string (gmap string Z) :=
  <["a.example.com" := Sequential.fresh]> (<["b.example.com" := Sequential.fresh]> ∅).

(** A GET request for [http://localhost/] without headers. *)
Definition plain_request : http.Request :=
  http.mkRequest "GET" (url.mkURL "http" "" None "localhost" "/" false false "" "")
    ∅ None 0 "localhost".

(** A file whose only entry names an ftp server: the state in which [main]
    enters the loop with it, and the state at its first report. *)
Definition ftp_host : list HealthCheck := [site "files" "ftp://files.example.com/"].

Definition ftp_host_start : state :=
  initial (<["files.example.com" := mkResult zero zero]> ∅).

Definition ftp_host_done : state :=
  mkState false (<["files.example.com" := mkResult (of_Z 1) zero]> ∅) [0%Z]
    [mkGoroutine (resolved (site "files" "ftp://files.example.com/")) 0 (Finished false)]
    AtReport.
(* ================================================================== *)
(** * Part II: properties *)
(* ================================================================== *)

(** ** float64: rounding *)
Module Float64_facts.
Import Float64.
Local Open Scope Q_scope.

Lemma two_pow_pos (e : Z) : 0 < 2 ^ e.
Proof. apply Qpower_0_lt. reflexivity. Qed.

Lemma two_pow_succ (e : Z) : 2 ^ (e + 1) == 2 * 2 ^ e.
Proof. rewrite Qpower_plus by discriminate. change (2 ^ 1) with 2. ring. Qed.

Lemma two_pow_inj (n : Z) : (0 <= n)%Z -> inject_Z (2 ^ n) == 2 ^ n.
Proof. intros. now rewrite Zpower_Qpower. Qed.

Lemma Q_as_frac (x : Q) : x == inject_Z (Qnum x) / inject_Z (Zpos (Qden x)).
Proof. destruct x as [n d]. simpl. rewrite Qmake_Qdiv. reflexivity. Qed.

Lemma exponent_spec (a : Q) :
  0 < a -> 2 ^ (52 + exponent a) <= a /\ a < 2 ^ (53 + exponent a).
Proof.
  intros Ha. unfold exponent.
  set (q := Qred a).
  assert (Hq : q == a) by apply Qred_correct.
  assert (Hn : (0 < Qnum q)%Z).
  { rewrite <- Hq in Ha. destruct q as [n d]. unfold Qlt in Ha. simpl in *. lia. }
  set (n := Qnum q) in *. set (d := Zpos (Qden q)).
  assert (Hd : (0 < d)%Z) by (unfold d; lia).
  pose proof (Z.log2_spec n Hn) as [Hn1 Hn2].
  pose proof (Z.log2_spec d Hd) as [Hd1 Hd2].
  pose proof (Z.log2_nonneg n) as Hln. pose proof (Z.log2_nonneg d) as Hld.
  set (ln := Z.log2 n) in *. set (ld := Z.log2 d) in *.
  assert (Hx : a == inject_Z n / inject_Z d).
  { rewrite <- Hq. apply Q_as_frac. }
  assert (Hdq : 0 < inject_Z d) by (change 0 with (inject_Z 0); rewrite <- Zlt_Qlt; lia).
  assert (Hnq1 : 2 ^ ln <= inject_Z n).
  { rewrite <- two_pow_inj by lia. rewrite <- Zle_Qle. lia. }
  assert (Hnq2 : inject_Z n < 2 * 2 ^ ln).
  { rewrite <- two_pow_succ, <- two_pow_inj by lia. rewrite <- Zlt_Qlt.
    replace (ln + 1)%Z with (Z.succ ln) by lia. lia. }
  assert (Hdq1 : 2 ^ ld <= inject_Z d).
  { rewrite <- two_pow_inj by lia. rewrite <- Zle_Qle. lia. }
  assert (Hdq2 : inject_Z d < 2 * 2 ^ ld).
  { rewrite <- two_pow_succ, <- two_pow_inj by lia. rewrite <- Zlt_Qlt.
    replace (ld + 1)%Z with (Z.succ ld) by lia. lia. }
  assert (Had : a * inject_Z d == inject_Z n).
  { rewrite Hx. field. intros E. rewrite E in Hdq. exact (Qlt_irrefl _ Hdq). }
  set (e1 := (ln - ld - 53)%Z).
  assert (Hp : 2 ^ ln == 2 ^ (53 + e1) * 2 ^ ld).
  { rewrite <- Qpower_plus by discriminate. unfold e1. f_equiv. ring. }
  pose proof (two_pow_pos ld) as Hpld. pose proof (two_pow_pos (53 + e1)) as Hpe.
  assert (Hlo : 2 ^ (53 + e1) < 2 * a).
  { apply (Qmult_lt_r _ _ (2 ^ ld) Hpld). rewrite <- Hp.
    apply Qle_lt_trans with (1 := Hnq1). rewrite <- Had.
    assert (E : 2 * a * 2 ^ ld == a * (2 * 2 ^ ld)) by ring. rewrite E.
    now apply Qmult_lt_l. }
  assert (Hhi : a < 2 * 2 ^ (53 + e1)).
  { apply (Qmult_lt_r _ _ (2 ^ ld) Hpld).
    assert (E : 2 * 2 ^ (53 + e1) * 2 ^ ld == 2 * 2 ^ ln) by (rewrite Hp; ring). rewrite E.
    apply Qle_lt_trans with (2 := Hnq2). rewrite <- Had.
    apply Qmult_le_l; assumption. }
  destruct (Qle_bool (2 ^ (53 + e1)) a) eqn:Hb.
  - apply Qle_bool_iff in Hb.
    replace (52 + (e1 + 1))%Z with (53 + e1)%Z by ring.
    replace (53 + (e1 + 1))%Z with ((53 + e1) + 1)%Z by ring.
    rewrite two_pow_succ. set (P := 2 ^ (53 + e1)) in *. clearbody P. split; lra.
  - assert (Hb' : a < 2 ^ (53 + e1)).
    { apply Qnot_le_lt. intros H. apply Qle_bool_iff in H. congruence. }
    split; [|exact Hb'].
    replace (53 + e1)%Z with ((52 + e1) + 1)%Z in Hlo by ring.
    rewrite two_pow_succ in Hlo. set (P := 2 ^ (52 + e1)) in *. clearbody P. lra.
Qed.

Lemma bracket_unique (a : Q) (e e' : Z) :
  2 ^ (52 + e) <= a < 2 ^ (53 + e) ->
  2 ^ (52 + e') <= a < 2 ^ (53 + e') -> e = e'.
Proof.
  intros [H1 H2] [H3 H4].
  assert (Ha : 2 ^ (52 + e) < 2 ^ (53 + e')) by (eapply Qle_lt_trans; eauto).
  assert (Hb : 2 ^ (52 + e') < 2 ^ (53 + e)) by (eapply Qle_lt_trans; eauto).
  apply Qpower_lt_compat_l_inv in Ha; [|reflexivity].
  apply Qpower_lt_compat_l_inv in Hb; [|reflexivity].
  lia.
Qed.

Lemma exponent_unique (a : Q) (e : Z) :
  2 ^ (52 + e) <= a < 2 ^ (53 + e) -> exponent a = e.
Proof.
  intros H. apply (bracket_unique a); [|exact H].
  apply exponent_spec. pose proof (two_pow_pos (52 + e)). lra.
Qed.

Lemma rne_cases (y : Q) :
  (rne y = Qfloor y /\ y - inject_Z (Qfloor y) <= 1 # 2) \/
  (rne y = (Qfloor y + 1)%Z /\ 1 # 2 <= y - inject_Z (Qfloor y)).
Proof.
  unfold rne. destruct (Qcompare_spec (y - inject_Z (Qfloor y)) (1 # 2)) as [E|E|E].
  - destruct (Z.even (Qfloor y)); [left|right]; split; auto; rewrite E; lra.
  - left. split; auto. lra.
  - right. split; auto. lra.
Qed.

Lemma rne_spec (y : Q) : Qabs (inject_Z (rne y) - y) <= 1 # 2.
Proof.
  pose proof (Qfloor_le y) as H1. pose proof (Qlt_floor y) as H2.
  rewrite inject_Z_plus in H2. change (inject_Z 1) with 1 in H2.
  apply Qabs_Qle_condition.
  destruct (rne_cases y) as [[-> H]|[-> H]];
    [|rewrite inject_Z_plus; change (inject_Z 1) with 1]; split; lra.
Qed.

Lemma rne_le (y : Q) (k : Z) : y <= inject_Z k -> (rne y <= k)%Z.
Proof.
  intros Hy. pose proof (Qfloor_le y) as H1.
  destruct (rne_cases y) as [[-> H]|[-> H]].
  - rewrite Zle_Qle. lra.
  - assert (inject_Z (Qfloor y) < inject_Z k) by lra.
    rewrite <- Zlt_Qlt in H0. lia.
Qed.

Lemma rne_ge (y : Q) (k : Z) : inject_Z k <= y -> (k <= rne y)%Z.
Proof.
  intros Hy. pose proof (Qlt_floor y) as H2.
  assert (inject_Z k < inject_Z (Qfloor y + 1)) by (eapply Qle_lt_trans; eauto).
  rewrite <- Zlt_Qlt in H.
  destruct (rne_cases y) as [[-> _]|[-> _]]; lia.
Qed.

Lemma rne_Z (k : Z) : rne (inject_Z k) = k.
Proof. apply Z.le_antisymm; [apply rne_le|apply rne_ge]; lra. Qed.

#[global] Instance rne_comp : Proper (Qeq ==> eq) rne.
Proof.
  intros x y E. unfold rne.
  assert (Ef : Qfloor x = Qfloor y) by now rewrite E.
  assert (Ec : (x - inject_Z (Qfloor x) ?= 1 # 2) = (y - inject_Z (Qfloor y) ?= 1 # 2))
    by now rewrite Ef, E.
  now rewrite Ec, Ef.
Qed.

#[global] Instance exponent_comp : Proper (Qeq ==> eq) exponent.
Proof.
  intros x y E. unfold exponent. rewrite (Qred_complete _ _ E).
  set (p := 2 ^ _).
  assert (Eb : Qle_bool p x = Qle_bool p y) by now rewrite E.
  now rewrite Eb.
Qed.



#[global] Instance round_pos_comp (neg : bool) : Proper (Qeq ==> eq) (round_pos neg).
Proof.
  intros x y E. unfold round_pos. rewrite (exponent_comp _ _ E).
  set (e := exponent y).
  assert (Er : rne (x / 2 ^ e) = rne (y / 2 ^ e)) by now rewrite E.
  now rewrite Er.
Qed.

Lemma round_pos_val (neg : bool) (a : Q) :
  0 < a ->
  exists m e, round_pos neg a = Fin neg m e /\ (2 ^ 52 <= m < 2 ^ 53)%Z /\
    (2 ^ 52 <= rne (a / 2 ^ exponent a) <= 2 ^ 53)%Z /\
    inject_Z m * 2 ^ e == inject_Z (rne (a / 2 ^ exponent a)) * 2 ^ exponent a.
Proof.
  intros Ha. unfold round_pos.
  destruct (exponent_spec a Ha) as [H1 H2].
  set (e := exponent a) in *.
  pose proof (two_pow_pos e) as He.
  set (y := a / 2 ^ e).
  assert (Hy : a == y * 2 ^ e) by (unfold y; field; lra).
  assert (Hy1 : inject_Z (2 ^ 52) <= y).
  { apply (Qmult_le_r _ _ (2 ^ e) He). rewrite <- Hy.
    change (inject_Z (2 ^ 52)) with (2 ^ 52). rewrite <- Qpower_plus by discriminate.
    exact H1. }
  assert (Hy2 : y <= inject_Z (2 ^ 53)).
  { apply Qlt_le_weak. apply (Qmult_lt_r _ _ (2 ^ e) He). rewrite <- Hy.
    change (inject_Z (2 ^ 53)) with (2 ^ 53). rewrite <- Qpower_plus by discriminate.
    exact H2. }
  pose proof (rne_ge _ _ Hy1) as Hm1. pose proof (rne_le _ _ Hy2) as Hm2.
  destruct (Z.eqb_spec (rne y) (2 ^ 53)) as [Em|Em].
  - exists (2 ^ 52)%Z, (e + 1)%Z. split; [reflexivity|]. split; [lia|]. split; [lia|].
    rewrite Em, two_pow_succ.
    change (inject_Z (2 ^ 53)) with (2 * inject_Z (2 ^ 52)). ring.
  - exists (rne y), e. split; [reflexivity|]. split; [lia|]. split; [lia|]. reflexivity.
Qed.

Lemma two_pow_pred (e : Z) : 2 ^ (e - 1) == (1 # 2) * 2 ^ e.
Proof.
  replace (e - 1)%Z with (e + -1)%Z by ring.
  rewrite Qpower_plus by discriminate. change (2 ^ (-1)) with (1 # 2).
  apply Qmult_comm.
Qed.

(** Rounding moves a positive number by at most half a unit in the last
    place, hence by at most the fraction 2^-53 of itself. *)
Lemma round_pos_error (neg : bool) (a : Q) :
  0 < a -> Qabs (val (round_pos false a) - a) <= a * (1 # 9007199254740992).
Proof.
  intros Ha. destruct (round_pos_val false a Ha) as (m & e' & -> & _ & _ & Ev).
  destruct (exponent_spec a Ha) as [H1 _].
  set (e := exponent a) in *.
  pose proof (two_pow_pos e) as He.
  set (y := a / 2 ^ e) in *.
  assert (Hy : a == y * 2 ^ e) by (unfold y; field; lra).
  pose proof (rne_spec y) as Hr.
  cbn [val]. unfold F2Q. rewrite Qmult_1_l, Ev.
  assert (E : inject_Z (rne y) * 2 ^ e - a == (inject_Z (rne y) - y) * 2 ^ e)
    by (rewrite Hy; ring).
  rewrite E, Qabs_Qmult, (Qabs_pos (2 ^ e)) by lra.
  apply Qle_trans with ((1 # 2) * 2 ^ e); [apply Qmult_le_compat_r; lra|].
  rewrite Qpower_plus in H1 by discriminate.
  set (P := 2 ^ e) in *. clearbody P. clear -H1. lra.
Qed.

Lemma inj_bounds (m : Z) :
  (2 ^ 52 <= m < 2 ^ 53)%Z -> 2 ^ 52 <= inject_Z m /\ inject_Z m < 2 ^ 53.
Proof.
  intros [H1 H2]. split.
  - change (2 ^ 52) with (inject_Z (2 ^ 52)). now rewrite <- Zle_Qle.
  - change (2 ^ 53) with (inject_Z (2 ^ 53)). now rewrite <- Zlt_Qlt.
Qed.

Lemma bracket_of_canonical (m e : Z) :
  (2 ^ 52 <= m < 2 ^ 53)%Z ->
  2 ^ (52 + e) <= inject_Z m * 2 ^ e /\ inject_Z m * 2 ^ e < 2 ^ (53 + e).
Proof.
  intros Hm. destruct (inj_bounds m Hm) as [H1 H2].
  pose proof (two_pow_pos e) as He.
  rewrite !Qpower_plus by discriminate. split.
  - apply Qmult_le_compat_r; lra.
  - apply Qmult_lt_compat_r; lra.
Qed.

(** A number that already has a 53-bit significand is left unchanged. *)
Lemma round_pos_exact (neg : bool) (a : Q) (m e : Z) :
  (2 ^ 52 <= m < 2 ^ 53)%Z -> a == inject_Z m * 2 ^ e ->
  round_pos neg a = Fin neg m e.
Proof.
  intros Hm Ea. rewrite Ea. unfold round_pos.
  rewrite (exponent_unique _ e) by now apply bracket_of_canonical.
  assert (Ey : rne (inject_Z m * 2 ^ e / 2 ^ e) = m).
  { rewrite <- (rne_Z m) at 2. apply rne_comp. field.
    pose proof (two_pow_pos e). lra. }
  rewrite Ey. destruct (Z.eqb_spec m (2 ^ 53)); [lia|reflexivity].
Qed.

Lemma round_pos_grid (neg : bool) (a : Q) (M : Z) :
  0 < a -> a == inject_Z M * 2 ^ exponent a ->
  round_pos neg a = Fin neg M (exponent a).
Proof.
  intros Ha Ea. apply round_pos_exact; [|exact Ea].
  destruct (exponent_spec a Ha) as [H1 H2].
  set (e := exponent a) in *. pose proof (two_pow_pos e) as He.
  rewrite Ea, Qpower_plus in H1, H2 by discriminate.
  assert (H3 : 2 ^ 52 <= inject_Z M).
  { apply (Qmult_le_r _ _ (2 ^ e) He). exact H1. }
  assert (H4 : inject_Z M < 2 ^ 53).
  { apply (Qmult_lt_r _ _ (2 ^ e) He). exact H2. }
  change (2 ^ 52) with (inject_Z (2 ^ 52)) in H3.
  change (2 ^ 53) with (inject_Z (2 ^ 53)) in H4.
  rewrite <- Zle_Qle in H3. rewrite <- Zlt_Qlt in H4. lia.
Qed.

(** Rounding never carries a number past a representable upper bound. *)
Lemma round_pos_le (a : Q) (m e : Z) :
  0 < a -> (2 ^ 52 <= m < 2 ^ 53)%Z -> a <= inject_Z m * 2 ^ e ->
  val (round_pos false a) <= inject_Z m * 2 ^ e.
Proof.
  intros Ha Hm Hle.
  destruct (round_pos_val false a Ha) as (m' & e' & -> & _ & Hr & Ev).
  cbn [val]. unfold F2Q. rewrite Qmult_1_l, Ev.
  destruct (exponent_spec a Ha) as [H1 H2].
  destruct (bracket_of_canonical m e Hm) as [H3 H4].
  set (ea := exponent a) in *.
  pose proof (two_pow_pos ea) as Hea.
  assert (Hee : (ea <= e)%Z).
  { assert (H : 2 ^ (52 + ea) < 2 ^ (53 + e)) by lra.
    apply Qpower_lt_compat_l_inv in H; [lia|reflexivity]. }
  destruct (Z.eq_dec ea e) as [Ee|Hne].
  - rewrite <- Ee in *. apply Qmult_le_compat_r; [|lra].
    rewrite <- Zle_Qle. apply rne_le.
    apply Qle_shift_div_r; assumption.
  - apply Qle_trans with (2 ^ (53 + ea)).
    + rewrite Qpower_plus by discriminate. apply Qmult_le_compat_r; [|lra].
      change (2 ^ 53) with (inject_Z (2 ^ 53)). rewrite <- Zle_Qle. lia.
    + apply Qle_trans with (2 ^ (52 + e)); [|exact H3].
      apply Qpower_le_compat_l; [lia|discriminate].
Qed.

#[global] Instance round_Q_comp : Proper (Qeq ==> eq) round_Q.
Proof. intros x y E. unfold round_Q. now rewrite (Qred_complete _ _ E). Qed.

Lemma round_Q_pos (x : Q) : 0 < x -> round_Q x = round_pos false x.
Proof.
  intros Hx. unfold round_Q.
  pose proof (Qred_correct x) as E.
  destruct (Qred x) as [n d] eqn:Er. cbn [Qnum].
  assert (Hn : (0 < n)%Z).
  { rewrite <- E in Hx. unfold Qlt in Hx. simpl in Hx. lia. }
  destruct n; try lia. now rewrite E.
Qed.

Lemma round_Q_zero (x : Q) : x == 0 -> round_Q x = Fin false 0 0.
Proof. intros E. now rewrite E. Qed.


Lemma inject_Z_pos (n : Z) : (0 < n)%Z -> 0 < inject_Z n.
Proof. intros. change 0 with (inject_Z 0). now rewrite <- Zlt_Qlt. Qed.

(** Every integer from 0 to 2^53 is a float64 number. *)
Lemma of_Z_exact (n : Z) :
  (0 <= n <= 2 ^ 53)%Z ->
  exists m e, of_Z n = Fin false m e /\ inject_Z m * 2 ^ e == inject_Z n.
Proof.
  intros Hn. unfold of_Z.
  destruct (Z.eq_dec n 0%Z) as [->|Hn0]; [exists 0%Z, 0%Z; split; reflexivity|].
  destruct (Z.eq_dec n (2 ^ 53)%Z) as [->|Hn1].
  { exists (2 ^ 52)%Z, 1%Z. split; [now vm_compute|reflexivity]. }
  assert (Ha : 0 < inject_Z n) by (apply inject_Z_pos; lia).
  rewrite round_Q_pos by exact Ha.
  destruct (exponent_spec _ Ha) as [H1 H2].
  set (e := exponent (inject_Z n)) in *.
  assert (He : (e <= 0)%Z).
  { assert (H : 2 ^ (52 + e) < 2 ^ 53).
    { eapply Qle_lt_trans; [exact H1|]. change (2 ^ 53) with (inject_Z (2 ^ 53)).
      rewrite <- Zlt_Qlt. lia. }
    apply Qpower_lt_compat_l_inv in H; [lia|reflexivity]. }
  assert (E : inject_Z n == inject_Z (n * 2 ^ (- e)) * 2 ^ e).
  { rewrite inject_Z_mult, two_pow_inj by lia.
    rewrite <- Qmult_assoc, <- Qpower_plus by discriminate.
    replace (- e + e)%Z with 0%Z by ring. change (2 ^ 0) with 1. ring. }
  exists (n * 2 ^ (- e))%Z, e. split; [|now rewrite <- E].
  now apply round_pos_grid.
Qed.

End Float64_facts.

(** ** float64: the counters and [Uptime] *)
Module Uptime_facts.
Import Float64 Float64_facts.
Local Open Scope Q_scope.

Lemma F2Q_false (m e : Z) : F2Q false m e == inject_Z m * 2 ^ e.
Proof. unfold F2Q. ring. Qed.

Lemma of_Z_0 : of_Z 0 = Fin false 0 0.
Proof. reflexivity. Qed.

Lemma of_Z_1 : of_Z 1 = Fin false (2 ^ 52) (-52).
Proof. now vm_compute. Qed.

Lemma of_Z_100 : of_Z 100 = Fin false 7036874417766400 (-46).
Proof. now vm_compute. Qed.

Lemma of_Z_fin (n : Z) :
  (0 < n <= 2 ^ 53)%Z ->
  exists m e, of_Z n = Fin false m e /\ m <> 0%Z /\ F2Q false m e == inject_Z n.
Proof.
  intros Hn. destruct (of_Z_exact n) as (m & e & E & Hv); [lia|].
  exists m, e. split; [exact E|]. split; [|now rewrite F2Q_false].
  intros ->. assert (H : 0 < inject_Z n) by (apply inject_Z_pos; lia).
  rewrite <- Hv in H. revert H. rewrite Qmult_0_l. apply Qlt_irrefl.
Qed.

Lemma round_pos_fin (a : Q) :
  0 < a ->
  exists m e, round_pos false a = Fin false m e /\ m <> 0%Z /\ (0 <= m)%Z /\
              0 < F2Q false m e.
Proof.
  intros Ha. destruct (round_pos_val false a Ha) as (m & e & E & Hm & _ & _).
  exists m, e. split; [exact E|]. split; [lia|]. split; [lia|].
  rewrite F2Q_false. apply Qmult_lt_0_compat; [|apply two_pow_pos].
  apply inject_Z_pos. lia.
Qed.

(** Counting: adding one to a counter below 2^53 gives the next integer;
    at 2^53 the sum rounds back to 2^53. *)
Lemma fadd_one (n : Z) :
  (0 <= n < 2 ^ 53)%Z -> fadd (of_Z n) one = of_Z (n + 1).
Proof.
  intros Hn. unfold one. rewrite of_Z_1.
  destruct (of_Z_exact n) as (m & e & -> & Hv); [lia|].
  unfold fadd.
  assert (Er : F2Q false m e + F2Q false (2 ^ 52) (-52) == inject_Z (n + 1)).
  { assert (E1 : F2Q false (2 ^ 52) (-52) == 1) by now vm_compute.
    rewrite F2Q_false, Hv, E1, inject_Z_plus. reflexivity. }
  assert (Hp : 0 < inject_Z (n + 1)) by (apply inject_Z_pos; lia).
  destruct (Qeq_bool _ 0) eqn:Eb.
  - apply Qeq_bool_iff in Eb. rewrite Er in Eb. rewrite Eb in Hp.
    now apply Qlt_irrefl in Hp.
  - unfold of_Z. now rewrite Er.
Qed.

Lemma fadd_one_saturated : fadd (of_Z (2 ^ 53)) one = of_Z (2 ^ 53).
Proof. now vm_compute. Qed.


Lemma count_0 : count 0 = zero.
Proof. reflexivity. Qed.

Lemma count_S (n : nat) : fadd (count n) one = count (S n).
Proof.
  unfold count. destruct (Z.lt_ge_cases (Z.of_nat n) (2 ^ 53)) as [H|H].
  - rewrite (Z.min_l (Z.of_nat n)) by lia. rewrite fadd_one by lia.
    f_equal. lia.
  - rewrite !Z.min_r by lia. apply fadd_one_saturated.
Qed.

Lemma fdiv_counts (s a : Z) :
  (0 < s <= 2 ^ 53)%Z -> (0 < a <= 2 ^ 53)%Z ->
  fdiv (of_Z s) (of_Z a) = round_pos false (inject_Z s / inject_Z a).
Proof.
  intros Hs Ha.
  destruct (of_Z_fin s Hs) as (ms & es & -> & Hms & Hvs).
  destruct (of_Z_fin a Ha) as (ma & ea & -> & Hma & Hva).
  unfold fdiv.
  destruct (Z.eqb_spec ma 0); [contradiction|].
  destruct (Z.eqb_spec ms 0); [contradiction|].
  rewrite Hvs, Hva. apply round_Q_pos.
  apply Qlt_shift_div_l; [apply inject_Z_pos; lia|].
  rewrite Qmult_0_l. apply inject_Z_pos. lia.
Qed.

Lemma fmul_100 (m e : Z) :
  m <> 0%Z -> 0 < F2Q false m e ->
  fmul (of_Z 100) (Fin false m e) = round_pos false (100 * F2Q false m e).
Proof.
  intros Hm Hv. rewrite of_Z_100. unfold fmul.
  destruct (Z.eqb_spec m 0); [contradiction|]. cbn [orb Z.eqb].
  assert (E : F2Q false 7036874417766400 (-46) == 100) by now vm_compute.
  rewrite E. apply round_Q_pos. lra.
Qed.

Lemma one_canonical : 1 == inject_Z (2 ^ 52) * 2 ^ (-52).
Proof. now vm_compute. Qed.

Lemma hundred_canonical : 100 == inject_Z 7036874417766400 * 2 ^ (-46).
Proof. now vm_compute. Qed.


Lemma quotient_bounds (s a : Z) :
  (0 < s <= a)%Z -> 0 < quotient s a <= 1.
Proof.
  intros H. unfold quotient.
  assert (Ha : 0 < inject_Z a) by (apply inject_Z_pos; lia).
  assert (Hs : 0 < inject_Z s) by (apply inject_Z_pos; lia).
  assert (Hx : 0 < inject_Z s / inject_Z a).
  { apply Qlt_shift_div_l; [exact Ha|]. now rewrite Qmult_0_l. }
  split.
  - destruct (round_pos_fin _ Hx) as (m & e & -> & _ & _ & Hv). exact Hv.
  - apply Qle_trans with (inject_Z (2 ^ 52) * 2 ^ (-52)); [|now vm_compute].
    apply round_pos_le; [exact Hx|lia|].
    apply Qle_trans with 1; [|now vm_compute].
    apply Qle_shift_div_r; [exact Ha|].
    rewrite Qmult_1_l, <- Zle_Qle. lia.
Qed.

Lemma percent_bounds (s a : Z) :
  (0 < s <= a)%Z -> 0 < percent s a <= 100.
Proof.
  intros H. unfold percent. destruct (quotient_bounds s a H) as [H1 H2].
  assert (Hx : 0 < 100 * quotient s a) by lra.
  split.
  - destruct (round_pos_fin _ Hx) as (m & e & -> & _ & _ & Hv). exact Hv.
  - apply Qle_trans with (inject_Z 7036874417766400 * 2 ^ (-46));
      [|now vm_compute].
    apply round_pos_le; [exact Hx|lia|].
    apply Qle_trans with 100; [lra|now vm_compute].
Qed.

Lemma Uptime_counts (s a : Z) :
  (0 < s <= a)%Z -> (a <= 2 ^ 53)%Z ->
  Uptime (mkResult (of_Z a) (of_Z s)) = Qfloor (percent s a + (1 # 2)).
Proof.
  intros H Ha.
  pose proof (percent_bounds s a H) as [Hp1 Hp2].
  pose proof (quotient_bounds s a H) as [Hq1 Hq2].
  unfold Uptime. cbn [Attempt Success].
  rewrite fdiv_counts by lia.
  unfold percent, quotient in *.
  set (x := inject_Z s / inject_Z a) in *.
  assert (Hx : 0 < x).
  { apply Qlt_shift_div_l; [apply inject_Z_pos; lia|].
    rewrite Qmult_0_l. apply inject_Z_pos. lia. }
  destruct (of_Z_fin a) as (ma & ea & Ea & Hma & Hva); [lia|].
  rewrite Ea, of_Z_0. cbn [feqb].
  assert (Ez : Qeq_bool (F2Q false ma ea) (F2Q false 0 0) = false).
  { destruct (Qeq_bool _ _) eqn:Eb; [|reflexivity].
    apply Qeq_bool_iff in Eb. rewrite Hva in Eb.
    assert (0 < inject_Z a) by (apply inject_Z_pos; lia).
    assert (E0 : F2Q false 0 0 == 0) by reflexivity.
    rewrite E0 in Eb. rewrite Eb in H0. now apply Qlt_irrefl in H0. }
  rewrite Ez.
  destruct (round_pos_fin x Hx) as (mq & eq & Eq & Hmq & _ & Hvq).
  rewrite Eq in *. cbn [val] in *.
  rewrite fmul_100 by assumption.
  assert (Hy : 0 < 100 * F2Q false mq eq) by lra.
  destruct (round_pos_fin _ Hy) as (mp & ep & Ep & Hmp & _ & Hvp).
  rewrite Ep in *. cbn [val] in *.
  unfold Round.
  set (r := Qfloor (F2Q false mp ep + (1 # 2))).
  assert (Hr0 : (0 <= r)%Z).
  { unfold r. change 0%Z with (Qfloor 0). apply Qfloor_resp_le. lra. }
  assert (Hr1 : (r <= 100)%Z).
  { unfold r. change 100%Z with (Qfloor (100 + (1 # 2))). apply Qfloor_resp_le. lra. }
  destruct (Z.eqb_spec r 0) as [E0|E0].
  - rewrite E0. reflexivity.
  - destruct (of_Z_exact r) as (m & e & Er & Hv); [lia|].
    unfold of_Z in Er. rewrite round_Q_pos in Er by (apply inject_Z_pos; lia).
    assert (Ef : Qfloor (F2Q false m e) = r) by now rewrite F2Q_false, Hv, Qfloor_Z.
    rewrite Er. unfold to_int. rewrite Ef. unfold int_min.
    destruct (Z.leb_spec (- 2 ^ 63) r); [|lia].
    destruct (Z.ltb_spec r (2 ^ 63)); [reflexivity|lia].
Qed.

Lemma Uptime_no_attempt (r : Result) : Attempt r = zero -> Uptime r = 0%Z.
Proof. intros E. unfold Uptime. rewrite E. reflexivity. Qed.

Lemma Uptime_no_success (a : Z) :
  (0 < a <= 2 ^ 53)%Z -> Uptime (mkResult (of_Z a) (of_Z 0)) = 0%Z.
Proof.
  intros Ha. destruct (of_Z_fin a Ha) as (ma & ea & Ea & Hma & Hva).
  unfold Uptime. cbn [Attempt Success]. rewrite Ea, !of_Z_0. cbn [feqb].
  destruct (Qeq_bool _ _) eqn:Eb; [reflexivity|].
  unfold fdiv. destruct (Z.eqb_spec ma 0); [contradiction|].
  cbn [Z.eqb xorb]. rewrite of_Z_100. reflexivity.
Qed.

Lemma percent_full (a : Z) : (0 < a)%Z -> percent a a == 100.
Proof.
  intros Ha. unfold percent, quotient.
  assert (E1 : inject_Z a / inject_Z a == inject_Z (2 ^ 52) * 2 ^ (-52)).
  { rewrite <- one_canonical. field.
    intros E. pose proof (inject_Z_pos a Ha) as H. rewrite E in H.
    now apply Qlt_irrefl in H. }
  rewrite (round_pos_exact false (inject_Z a / inject_Z a) (2 ^ 52) (-52))
    by (lia || exact E1).
  cbn [val].
  assert (E2 : 100 * F2Q false (2 ^ 52) (-52)
               == inject_Z 7036874417766400 * 2 ^ (-46)) by now vm_compute.
  rewrite (round_pos_exact false (100 * F2Q false (2 ^ 52) (-52)) 7036874417766400 (-46))
    by (lia || exact E2).
  now vm_compute.
Qed.

Lemma Uptime_full (a : Z) :
  (0 < a <= 2 ^ 53)%Z -> Uptime (mkResult (of_Z a) (of_Z a)) = 100%Z.
Proof.
  intros Ha. rewrite Uptime_counts by lia.
  assert (E : percent a a + (1 # 2) == 100 + (1 # 2)) by (rewrite percent_full; [reflexivity|lia]).
  rewrite E. reflexivity.
Qed.

Lemma Uptime_range (s a : Z) :
  (0 <= s <= a)%Z -> (0 < a <= 2 ^ 53)%Z ->
  (0 <= Uptime (mkResult (of_Z a) (of_Z s)) <= 100)%Z.
Proof.
  intros Hs Ha. destruct (Z.eq_dec s 0%Z) as [->|Hs0].
  - rewrite Uptime_no_success by lia. lia.
  - rewrite Uptime_counts by lia.
    destruct (percent_bounds s a) as [H1 H2]; [lia|]. split.
    + change 0%Z with (Qfloor 0). apply Qfloor_resp_le. lra.
    + change 100%Z with (Qfloor (100 + (1 # 2))). apply Qfloor_resp_le. lra.
Qed.

(** The two roundings move the percentage by less than 201 * 2^-53. *)
Lemma percent_error (s a : Z) :
  (0 < s <= a)%Z ->
  let X := inject_Z s / inject_Z a in
  - (201 # 9007199254740992) <= percent s a - 100 * X <= 201 # 9007199254740992.
Proof.
  intros H X.
  assert (HA : 0 < inject_Z a) by (apply inject_Z_pos; lia).
  assert (HX : 0 < X).
  { apply Qlt_shift_div_l; [exact HA|]. rewrite Qmult_0_l. apply inject_Z_pos. lia. }
  assert (HX1 : X <= 1).
  { apply Qle_shift_div_r; [exact HA|]. rewrite Qmult_1_l, <- Zle_Qle. lia. }
  pose proof (round_pos_error false X HX) as E1.
  destruct (quotient_bounds s a H) as [Hq _].
  assert (Hy : 0 < 100 * quotient s a) by lra.
  pose proof (round_pos_error false _ Hy) as E2.
  apply Qabs_Qle_condition in E1, E2.
  unfold percent. unfold quotient in *. fold X in E2, Hq, Hy |- *.
  set (q := val (round_pos false X)) in *.
  set (p := val (round_pos false (100 * q))) in *.
  clearbody q p X. split; lra.
Qed.

Lemma Uptime_nearest (s a : Z) :
  (0 <= s <= a)%Z -> (0 < a <= 2 ^ 44)%Z ->
  let u := Uptime (mkResult (of_Z a) (of_Z s)) in
  (Z.abs (200 * s - 2 * u * a) <= a)%Z.
Proof.
  intros Hs Ha u. unfold u. clear u.
  destruct (Z.eq_dec s 0%Z) as [->|Hs0].
  { rewrite Uptime_no_success by lia. lia. }
  rewrite Uptime_counts by lia.
  pose proof (percent_error s a ltac:(lia)) as HE. cbv zeta in HE.
  set (p := percent s a) in *. clearbody p.
  set (u := Qfloor (p + (1 # 2))).
  pose proof (Qfloor_le (p + (1 # 2))) as Hu1.
  pose proof (Qlt_floor (p + (1 # 2))) as Hu2.
  fold u in Hu1, Hu2. rewrite inject_Z_plus in Hu2. change (inject_Z 1) with 1 in Hu2.
  set (U := inject_Z u) in *.
  set (A := inject_Z a) in *. set (S := inject_Z s) in *.
  assert (HA : 0 < A) by (apply inject_Z_pos; lia).
  assert (HA2 : A <= 17592186044416).
  { unfold A. change 17592186044416 with (inject_Z (2 ^ 44)). rewrite <- Zle_Qle. lia. }
  assert (EX : A * (S / A) == S) by (field; lra).
  set (X := S / A) in *.
  destruct HE as [HE1 HE2].
  assert (P1 : 0 <= A * ((1 # 2) + (201 # 9007199254740992) - (U - 100 * X))).
  { apply Qmult_le_0_compat; lra. }
  assert (P2 : 0 <= A * ((U - 100 * X) + (1 # 2) + (201 # 9007199254740992))).
  { apply Qmult_le_0_compat; lra. }
  assert (B1 : 2 * U * A < 200 * S + A + 1).
  { assert (E : A * ((1 # 2) + (201 # 9007199254740992) - (U - 100 * X))
               == A * (1 # 2) + A * (201 # 9007199254740992) - U * A + 100 * (A * X)) by ring.
    rewrite E, EX in P1. lra. }
  assert (B2 : 200 * S - A - 1 < 2 * U * A).
  { assert (E : A * ((U - 100 * X) + (1 # 2) + (201 # 9007199254740992))
               == U * A - 100 * (A * X) + A * (1 # 2) + A * (201 # 9007199254740992)) by ring.
    rewrite E, EX in P2. lra. }
  assert (C1 : (2 * u * a < 200 * s + a + 1)%Z).
  { rewrite Zlt_Qlt, !inject_Z_plus, !inject_Z_mult. exact B1. }
  assert (C2 : (200 * s - a - 1 < 2 * u * a)%Z).
  { rewrite Zlt_Qlt. unfold Z.sub. rewrite !inject_Z_plus, !inject_Z_opp, !inject_Z_mult.
    change (inject_Z 1) with 1. change (inject_Z 200) with 200.
    change (inject_Z 2) with 2. fold A S U. lra. }
  lia.
Qed.
End Uptime_facts.

(** ** [check] *)





Lemma NewRequest_shape (method rawurl : string) (body : option string) :
  (exists r, http.NewRequest method rawurl body = (Some r, None)) \/
  (exists e, http.NewRequest method rawurl body = (None, Some e)).
Proof.
  unfold http.NewRequest.
  destruct (negb _); [right; eauto|].
  destruct (url.Parse rawurl); [left|right]; eauto.
Qed.

Lemma Do_shape (c : http.Client) (net : http.Transport) (req : http.Request) :
  (exists resp, http.Do c net req = (Some resp, None)) \/
  (exists e, http.Do c net req = (None, Some e)).
Proof.
  unfold http.Do.
  repeat (match goal with |- context [if ?b then _ else _] => destruct b end;
          [right; eauto|]).
  destruct (net req); [left|right]; eauto.
Qed.

Lemma add_headers_some (kvs : list (string * string)) (r : http.Request) :
  add_headers kvs (Some r) = Returns (Some (with_headers kvs r)).
Proof.
  revert r. induction kvs as [|kv kvs IH]; intros r.
  - destruct r; reflexivity.
  - cbn [add_headers add_header]. cbn. rewrite IH. reflexivity.
Qed.

Lemma add_headers_nil (kvs : list (string * string)) :
  add_headers kvs None =
    match kvs with
    | [] => Returns None
    | _ => Panics "invalid memory address or nil pointer dereference"
    end.
Proof. destruct kvs; reflexivity. Qed.

Lemma range_headers (site : HealthCheck) (r : http.Request) :
  match Headers site with
  | Some headers => add_headers (map_to_list headers) (Some r)
  | None => Returns (Some r)
  end = Returns (Some (with_headers (site_headers site) r)).
Proof.
  unfold site_headers. destruct (Headers site).
  - apply add_headers_some.
  - destruct r; reflexivity.
Qed.

(** [check] is the classification of what comes back for its request. *)
Lemma check_eq (net : http.Transport) (site : HealthCheck) :
  check net site =
    Returns (match request_of site with
             | Some req => classify (http.Do client net req)
             | None => false
             end).
Proof.
  unfold check, request_of.
  destruct (NewRequest_shape (effectiveMethod site) (URL site) (Some (Body site)))
    as [[r ->]|[e ->]]; [|reflexivity].
  rewrite range_headers. cbn.
  destruct (Do_shape client net (with_headers (site_headers site) r))
    as [[resp ->]|[e ->]]; cbn; [|reflexivity].
  destruct (is_up resp); reflexivity.
Qed.

Lemma Do_answer (net : http.Transport) (req : http.Request) (resp : http.Response) :
  http.Do client net req = (Some resp, None) <->
  (url.Scheme (http.URL req) = "http" \/ url.Scheme (http.URL req) = "https") /\
  url.Host (http.URL req) <> "" /\
  exists elapsed, net req = http.Answered elapsed resp /\
                  (elapsed < 500 * http.Millisecond)%Z.
Proof.
  unfold http.Do, client, responseTimeout. cbn [http.Timeout].
  destruct (String.eqb_spec (url.Scheme (http.URL req)) "http") as [E1|E1];
  destruct (String.eqb_spec (url.Scheme (http.URL req)) "https") as [E2|E2];
  cbn [orb negb];
  try (destruct (String.eqb_spec (url.Host (http.URL req)) "") as [E3|E3]);
  try (split; [discriminate|intros (H1 & H2 & _); tauto]).
  all: change (0 <? 500 * http.Millisecond)%Z with true; cbn [andb];
    destruct (net req) as [t resp'|t e] eqn:En; cbn [http.elapsed_of];
    destruct (Z.leb_spec (500 * http.Millisecond) t) as [Hle|Hlt];
    (split; [intros Hd; try discriminate Hd; injection Hd as <-;
             repeat split; eauto; try (exists t; split; [reflexivity|lia])
            |intros (_ & _ & t' & Et & Ht); try discriminate Et;
             injection Et as <- <-; try lia; reflexivity]).
Qed.

Lemma is_up_iff (resp : http.Response) :
  is_up resp = true <-> (200 <= http.StatusCode resp <= 299)%Z.
Proof. unfold is_up. rewrite andb_true_iff, !Z.leb_le. tauto. Qed.

Lemma classify_true (net : http.Transport) (req : http.Request) :
  classify (http.Do client net req) = true <->
  exists elapsed resp,
    (url.Scheme (http.URL req) = "http" \/ url.Scheme (http.URL req) = "https") /\
    url.Host (http.URL req) <> "" /\
    net req = http.Answered elapsed resp /\
    (elapsed < 500 * http.Millisecond)%Z /\
    (200 <= http.StatusCode resp <= 299)%Z.
Proof.
  split.
  - destruct (Do_shape client net req) as [[resp E]|[e E]]; rewrite E; cbn;
      [|discriminate].
    intros Hup. apply Do_answer in E as (H1 & H2 & t & H3 & H4).
    exists t, resp. rewrite <- is_up_iff. auto.
  - intros (t & resp & H1 & H2 & H3 & H4 & H5).
    assert (E : http.Do client net req = (Some resp, None)).
    { apply Do_answer. eauto. }
    rewrite E. cbn. now apply is_up_iff.
Qed.

(** C1. [check] always returns a boolean, never a panic or an error.  It
    returns true exactly when the response to its request comes back in
    less than 500 milliseconds with a status code from 200 to 299; a
    failure of the network, a response that is not there after 500
    milliseconds, a status code outside 200..299 and a request that cannot
    be built all give false. *)
Theorem check_classification (net : http.Transport) (site : HealthCheck) :
  exists up : bool,
    check net site = Returns up /\
    (up = true <->
       exists req elapsed resp,
         request_of site = Some req /\
         (url.Scheme (http.URL req) = "http" \/ url.Scheme (http.URL req) = "https") /\
         url.Host (http.URL req) <> "" /\
         net req = http.Answered elapsed resp /\
         (elapsed < responseTimeout * http.Millisecond)%Z /\
         (200 <= http.StatusCode resp <= 299)%Z) /\
    (request_of site = None -> up = false) /\
    (forall req, request_of site = Some req ->
       (forall elapsed err, net req = http.Failed elapsed err -> up = false) /\
       ((responseTimeout * http.Millisecond <= http.elapsed_of (net req))%Z -> up = false) /\
       (forall elapsed resp, net req = http.Answered elapsed resp ->
          ~ (200 <= http.StatusCode resp <= 299)%Z -> up = false)).
Proof.
  rewrite check_eq.
  set (up := match request_of site with
             | Some req => classify (http.Do client net req)
             | None => false
             end).
  exists up. split; [reflexivity|].
  assert (Hiff : up = true <->
       exists req elapsed resp,
         request_of site = Some req /\
         (url.Scheme (http.URL req) = "http" \/ url.Scheme (http.URL req) = "https") /\
         url.Host (http.URL req) <> "" /\
         net req = http.Answered elapsed resp /\
         (elapsed < responseTimeout * http.Millisecond)%Z /\
         (200 <= http.StatusCode resp <= 299)%Z).
  { unfold up. destruct (request_of site) as [req|].
    - rewrite classify_true. split.
      + intros (t & resp & H). exists req, t, resp. tauto.
      + intros (req' & t & resp & E & H). injection E as <-. exists t, resp. tauto.
    - split; [discriminate|]. intros (req & t & resp & E & _). discriminate E. }
  split; [exact Hiff|].
  split.
  { intros E. unfold up. now rewrite E. }
  intros req Ereq.
  assert (Hno : (forall elapsed resp,
                   net req = http.Answered elapsed resp ->
                   (elapsed < responseTimeout * http.Millisecond)%Z ->
                   (200 <= http.StatusCode resp <= 299)%Z -> False) -> up = false).
  { intros Hn. destruct up eqn:Eu; [|reflexivity]. exfalso.
    destruct (proj1 Hiff eq_refl) as (req' & t & resp & E & _ & _ & E1 & E2 & E3).
    rewrite Ereq in E. injection E as <-. eauto. }
  repeat split.
  - intros t e En. apply Hno. intros t' resp En'. rewrite En in En'. discriminate En'.
  - intros Ht. apply Hno. intros t' resp En' Ht'. rewrite En' in Ht.
    cbn [http.elapsed_of] in Ht. lia.
  - intros t resp En Hs. apply Hno. intros t' resp' En'. rewrite En in En'.
    injection En' as <- <-. tauto.
Qed.


Lemma foldl_Add_lookup (kvs : list (string * string)) (h : http.Header) (K : string) :
  foldl (fun h kv => http.Add h kv.1 kv.2) h kvs !! K =
    match values_for K kvs with
    | [] => h !! K
    | vs => Some (default [] (h !! K) ++ vs)
    end.
Proof.
  revert h. induction kvs as [|[k v] kvs IH]; intros h; [reflexivity|].
  cbn [foldl]. rewrite IH. unfold values_for. cbn [omap list_omap fst snd].
  fold (values_for K kvs). unfold http.Add. cbn [fst snd].
  destruct (decide (http.CanonicalMIMEHeaderKey k = K)) as [->|Hne].
  - rewrite lookup_insert_eq.
    destruct (values_for _ kvs); cbn; [reflexivity|].
    now rewrite <- app_assoc.
  - rewrite lookup_insert_ne by exact Hne. reflexivity.
Qed.

Lemma values_for_spec (K v : string) (headers : gmap string string) :
  v ∈ values_for K (map_to_list headers) <->
  exists k, headers !! k = Some v /\ http.CanonicalMIMEHeaderKey k = K.
Proof.
  unfold values_for. rewrite list_elem_of_omap. split.
  - intros ([k v'] & Hin & E). cbn [fst snd] in E.
    destruct (decide _) as [Ek|]; [|discriminate]. injection E as ->.
    exists k. split; [|exact Ek]. now apply elem_of_map_to_list in Hin.
  - intros (k & Hk & Ek). exists (k, v). split; [now apply elem_of_map_to_list|].
    cbn [fst snd]. now rewrite decide_True.
Qed.

(** C8. The request that [check] sends has the method of the site, or GET
    when the site names none; its headers are the headers of the site,
    every value under the canonical form of its key, and nothing else;
    its payload is the body of the site as it is, and there is no payload
    when the body is empty. *)
Theorem check_builds_request (site : HealthCheck) (req : http.Request) :
  request_of site = Some req ->
  (forall net, check net site = Returns (classify (http.Do client net req))) /\
  http.Method req = (if String.eqb (Method site) "" then "GET" else Method site) /\
  (forall K, http.Header_ req !! K =
               match values_for K (site_headers site) with
               | [] => None
               | vs => Some vs
               end) /\
  (forall K v, v ∈ values_for K (site_headers site) <->
               exists k, default ∅ (Headers site) !! k = Some v /\
                         http.CanonicalMIMEHeaderKey k = K) /\
  http.Body req = (if String.eqb (Body site) "" then None else Some (Body site)) /\
  http.ContentLength req = Z.of_nat (String.length (Body site)).
Proof.
  intros Ereq. split.
  { intros net. rewrite check_eq. now rewrite Ereq. }
  assert (Hv : forall K v, v ∈ values_for K (site_headers site) <->
               exists k, default ∅ (Headers site) !! k = Some v /\
                         http.CanonicalMIMEHeaderKey k = K).
  { intros K v. unfold site_headers. destruct (Headers site) as [headers|].
    - apply values_for_spec.
    - cbn. split; [intros H; inversion H|].
      intros (k & Hk & _). now rewrite lookup_empty in Hk. }
  unfold request_of, http.NewRequest in Ereq.
  assert (Em : String.eqb (effectiveMethod site) "" = false).
  { unfold effectiveMethod. destruct (String.eqb_spec (Method site) ""); [reflexivity|].
    now apply String.eqb_neq. }
  rewrite Em in Ereq.
  destruct (negb (http.validMethod (effectiveMethod site))); [discriminate|].
  destruct (url.Parse (URL site)) as [u|e]; [|discriminate].
  injection Ereq as <-. cbn.
  repeat split; try exact Hv; try (intros; apply Hv; assumption).
  intros K. rewrite foldl_Add_lookup, lookup_empty. cbn [default app].
  destruct (values_for K (site_headers site)); reflexivity.
Qed.


Lemma check_builds_request_witness :
  exists req,
    request_of site_post = Some req /\
    http.Method req = "POST" /\
    http.Header_ req !! "Content-Type" = Some ["application/json"] /\
    http.Header_ req !! "User-Agent" = None /\
    http.Body req = Some "x=1".
Proof.
  eexists. split; [vm_compute; reflexivity|].
  match goal with
  | |- context [http.Method ?r] =>
      destruct (check_builds_request site_post r) as (_ & Hm & Hh & _ & Hb & _);
        [vm_compute; reflexivity|]
  end.
  split; [exact Hm|]. split; [rewrite Hh; vm_compute; reflexivity|].
  split; [rewrite Hh; vm_compute; reflexivity|exact Hb].
Defined.

(** ** The [check] of the sequential variant *)

Lemma site_headers_nil (site : HealthCheck) :
  site_headers site = [] <-> Headers site = None \/ Headers site = Some ∅.
Proof.
  unfold site_headers. destruct (Headers site) as [headers|].
  - rewrite map_to_list_empty_iff. split; [intros ->; now right|].
    intros [H|H]; [discriminate|now injection H].
  - split; [now left|reflexivity].
Qed.

Lemma sequential_range_headers (site : HealthCheck) (req : option http.Request) :
  match Headers site with
  | Some headers => add_headers (map_to_list headers) req
  | None => Returns req
  end = add_headers (site_headers site) req.
Proof. unfold site_headers. destruct (Headers site); [reflexivity|now destruct req]. Qed.

(** When the request can be built, both versions of [check] do the same. *)
Lemma sequential_check_same (net : http.Transport) (site : HealthCheck) :
  request_of site <> None -> Sequential.check net site = check net site.
Proof.
  unfold request_of, Sequential.check, check.
  destruct (NewRequest_shape (effectiveMethod site) (URL site) (Some (Body site)))
    as [[r ->]|[e ->]]; [|congruence].
  reflexivity.
Qed.

(** C10, as the code has it.  When [http.NewRequest] fails, the [check] of
    [fetch.go] returns false.  The [check] of the sequential variant adds
    the headers first: it panics on the nil request when the site has at
    least one header, and returns false when the site has no [headers] or
    an empty map, where the loop over the headers never touches the
    request. *)
Theorem sequential_check_nil_request (net : http.Transport) (site : HealthCheck)
    (e : string) :
  http.NewRequest (effectiveMethod site) (URL site) (Some (Body site)) = (None, Some e) ->
  check net site = Returns false /\
  Sequential.check net site =
    match Headers site with
    | None => Returns false
    | Some headers =>
        if decide (headers = ∅) then Returns false
        else Panics "invalid memory address or nil pointer dereference"
    end.
Proof.
  intros E. split.
  - unfold check. now rewrite E.
  - unfold Sequential.check. rewrite E.
    destruct (Headers site) as [headers|]; [|reflexivity].
    rewrite add_headers_nil.
    destruct (decide (headers = ∅)) as [->|Hne].
    + rewrite map_to_list_empty. reflexivity.
    + destruct (map_to_list headers) eqn:El; [|reflexivity].
      apply map_to_list_empty_iff in El. contradiction.
Qed.



Lemma sequential_check_nil_request_witness :
  check no_network site_bad_method = Returns false /\
  Sequential.check no_network site_bad_method
    = Panics "invalid memory address or nil pointer dereference".
Proof.
  destruct (sequential_check_nil_request no_network site_bad_method
              "net/http: invalid method") as [H1 H2].
  - vm_compute. reflexivity.
  - split; [exact H1|]. rewrite H2. vm_compute. reflexivity.
Defined.


(** C10, as stated, fails: the headers of this site are not nil and its
    request cannot be built, and the sequential [check] returns false. *)
Lemma sequential_check_empty_headers :
  Headers site_empty_headers <> None /\
  http.NewRequest (effectiveMethod site_empty_headers) (URL site_empty_headers)
    (Some (Body site_empty_headers)) = (None, Some "net/http: invalid method") /\
  forall net, Sequential.check net site_empty_headers = Returns false.
Proof.
  split; [discriminate|]. split; [vm_compute; reflexivity|].
  intros net. reflexivity.
Qed.

(** ** The sanity checks of [main] *)

Lemma sanity_checks_inl (todo done : list HealthCheck) (sites : gmap string Result)
    (msg : string) :
  sanity_checks todo done sites = inl msg -> Exists bad_entry todo.
Proof.
  revert done sites. induction todo as [|hc todo IH]; intros done sites; [discriminate|].
  cbn [sanity_checks].
  destruct (String.eqb_spec (Name hc) ""); [intros _; left; now left|].
  destruct (String.eqb_spec (URL hc) ""); [intros _; left; right; now left|].
  destruct (url.Parse (URL hc)) as [u|e] eqn:Ep.
  - intros H. right. eapply IH, H.
  - intros _. left. right. right. eauto.
Qed.

Lemma sanity_checks_inr (todo done : list HealthCheck) (sites : gmap string Result)
    (hcs : list HealthCheck) (sites' : gmap string Result) :
  sanity_checks todo done sites = inr (hcs, sites') ->
  Forall (fun hc => ~ bad_entry hc) todo /\
  hcs = done ++ map resolved todo /\
  forall h, sites' !! h =
    if bool_decide (h ∈ hostnames (map resolved todo))
    then Some (mkResult zero zero) else sites !! h.
Proof.
  revert done sites. induction todo as [|hc todo IH]; intros done sites.
  - cbn. intros [= <- <-]. split; [constructor|]. split; [now rewrite app_nil_r|].
    intros h. rewrite bool_decide_eq_false_2; [reflexivity|]. intros H. inversion H.
  - cbn [sanity_checks].
    destruct (String.eqb_spec (Name hc) "") as [|Hn]; [discriminate|].
    destruct (String.eqb_spec (URL hc) "") as [|Hu]; [discriminate|].
    destruct (url.Parse (URL hc)) as [u|e] eqn:Ep; [|discriminate].
    intros H. apply IH in H as (Hf & -> & Hs).
    assert (Eh : url.Hostname u = host_of (URL hc)) by (unfold host_of; now rewrite Ep).
    split; [|split].
    + constructor; [|exact Hf]. intros [?|[?|[e He]]]; congruence.
    + rewrite <- app_assoc. cbn. unfold resolved at 2. now rewrite Eh.
    + intros h. rewrite Hs. cbn [map hostnames]. fold (hostnames (map resolved todo)).
      destruct (bool_decide_reflect (h ∈ hostnames (map resolved todo))) as [Hin|Hin].
      * rewrite bool_decide_eq_true_2; [reflexivity|]. now right.
      * rewrite Eh. cbn [resolved hostname].
        destruct (decide (h = host_of (URL hc))) as [->|Hne].
        -- rewrite lookup_insert_eq, bool_decide_eq_true_2; [reflexivity|]. now left.
        -- rewrite lookup_insert_ne by congruence.
           rewrite bool_decide_eq_false_2; [reflexivity|].
           intros H. apply elem_of_cons in H as [?|?]; contradiction.
Qed.

Lemma main_exit (healthcheck : list HealthCheck) :
  (exists msg code, main healthcheck = Exit msg code) <-> Exists bad_entry healthcheck.
Proof.
  unfold main. destruct (sanity_checks healthcheck [] ∅) as [msg|[hcs sites]] eqn:E.
  - split; [intros _; eapply sanity_checks_inl, E|eauto].
  - apply sanity_checks_inr in E as (Hf & _ & _).
    split; [intros (? & ? & ?); discriminate|].
    intros Hex. exfalso. apply Exists_exists in Hex as (hc & Hin & Hbad).
    rewrite Forall_forall in Hf. exact (Hf hc Hin Hbad).
Qed.

Lemma main_loop (healthcheck hcs : list HealthCheck) (st : state) :
  main healthcheck = Loop hcs st ->
  Forall (fun hc => ~ bad_entry hc) healthcheck /\
  hcs = map resolved healthcheck /\
  st = initial (Sites st) /\
  forall h, Sites st !! h =
    if bool_decide (h ∈ hostnames hcs) then Some (mkResult zero zero) else None.
Proof.
  unfold main. destruct (sanity_checks healthcheck [] ∅) as [msg|[hcs' sites]] eqn:E;
    [discriminate|].
  intros [= <- <-]. apply sanity_checks_inr in E as (Hf & -> & Hs).
  split; [exact Hf|]. split; [reflexivity|]. split; [reflexivity|].
  intros h. cbn [Sites]. rewrite Hs, lookup_empty. reflexivity.
Qed.

Lemma startup_exit_code (healthcheck : list HealthCheck) (msg : string) (code : Z) :
  main healthcheck = Exit msg code -> code = (-1)%Z.
Proof.
  unfold main. destruct (sanity_checks healthcheck [] ∅) as [m|[hcs s]];
    [intros [= _ <-]; reflexivity|discriminate].
Qed.

(** C6, as the code has it.  [main] prints a message and exits with the
    code -1 exactly when some entry has an empty name, an empty url, or a
    url for which [url.Parse] returns an error; otherwise it enters the
    loop with the hostname of every entry set.  An url without a host is
    not an error of [url.Parse]. *)
Theorem startup_validation (healthcheck : list HealthCheck) :
  ((exists msg code, main healthcheck = Exit msg code) <->
   Exists bad_entry healthcheck) /\
  (forall msg code, main healthcheck = Exit msg code -> code = (-1)%Z /\ code <> 0%Z) /\
  (Forall (fun hc => ~ bad_entry hc) healthcheck ->
   exists st, main healthcheck = Loop (map resolved healthcheck) st).
Proof.
  split; [apply main_exit|]. split.
  - unfold main. destruct (sanity_checks healthcheck [] ∅) as [m|[hcs sites]];
      [|discriminate].
    intros msg code [= <- <-]. split; [reflexivity|discriminate].
  - intros Hf. destruct (main healthcheck) as [msg code|hcs st] eqn:E.
    + exfalso. assert (Hex : Exists bad_entry healthcheck) by (apply main_exit; eauto).
      apply Exists_exists in Hex as (hc & Hin & Hbad).
      rewrite Forall_forall in Hf. exact (Hf hc Hin Hbad).
    + destruct (main_loop _ _ _ E) as (_ & -> & _). eauto.
Qed.

(** C6, as stated, fails: no hostname can be extracted from this url, and
    [main] does not exit. *)
Lemma startup_accepts_url_without_host :
  (exists address, url.Parse "example.com/health" = Ok address /\
                   url.Hostname address = "") /\
  exists healthcheck st,
    main [site "home" "example.com/health"] = Loop healthcheck st /\
    hostnames healthcheck = [""].
Proof.
  split.
  - eexists. split; [vm_compute; reflexivity|reflexivity].
  - eexists _, _. split; [vm_compute; reflexivity|reflexivity].
Qed.

(** ** The polling loop: counting goroutines *)

Lemma tally_app (f : goroutine -> bool) (l1 l2 : list goroutine) :
  tally f (l1 ++ l2) = (tally f l1 + tally f l2)%nat.
Proof. unfold tally. apply sum_list_with_app. Qed.

Lemma tally_cons (f : goroutine -> bool) (g : goroutine) (l : list goroutine) :
  tally f (g :: l) = ((if f g then 1 else 0) + tally f l)%nat.
Proof. reflexivity. Qed.

Lemma tally_insert (f : goroutine -> bool) (l : list goroutine) (i : nat)
    (g g' : goroutine) :
  l !! i = Some g ->
  (tally f (<[i := g']> l) + (if f g then 1 else 0)
   = tally f l + (if f g' then 1 else 0))%nat.
Proof.
  revert i. induction l as [|a l IH]; intros [|i] H; try discriminate.
  - injection H as ->. change (<[0%nat := g']> (g :: l)) with (g' :: l).
    rewrite !tally_cons. lia.
  - cbn in H. specialize (IH i H).
    change (<[S i := g']> (a :: l)) with (a :: <[i := g']> l).
    rewrite !tally_cons. lia.
Qed.

Lemma tally_insert_same (f : goroutine -> bool) (l : list goroutine) (i : nat)
    (g g' : goroutine) :
  l !! i = Some g -> f g' = f g -> tally f (<[i := g']> l) = tally f l.
Proof.
  intros H E. pose proof (tally_insert f l i g g' H) as T. rewrite E in T. lia.
Qed.

Lemma tally_le (f f' : goroutine -> bool) (l : list goroutine) :
  (forall g, f g = true -> f' g = true) -> (tally f l <= tally f' l)%nat.
Proof.
  intros H. induction l as [|a l IH]; [reflexivity|].
  rewrite !tally_cons. specialize (H a).
  destruct (f a), (f' a); try lia; discriminate H; reflexivity.
Qed.

Lemma tally_ext (f f' : goroutine -> bool) (l : list goroutine) :
  (forall g, g ∈ l -> f g = f' g) -> tally f l = tally f' l.
Proof.
  induction l as [|a l IH]; intros H; [reflexivity|].
  rewrite !tally_cons. rewrite (H a) by now left.
  rewrite IH; [reflexivity|]. intros g Hg. apply H. now right.
Qed.

Lemma tally_none (f : goroutine -> bool) (l : list goroutine) :
  (forall g, g ∈ l -> f g = false) -> tally f l = 0%nat.
Proof.
  induction l as [|a l IH]; intros H; [reflexivity|].
  rewrite !tally_cons. rewrite (H a) by now left.
  rewrite IH; [reflexivity|]. intros g Hg. apply H. now right.
Qed.

Lemma tally_pos (f : goroutine -> bool) (l : list goroutine) (g : goroutine) :
  g ∈ l -> f g = true -> (1 <= tally f l)%nat.
Proof.
  induction l as [|a l IH]; intros H E; [inversion H|].
  rewrite tally_cons. apply elem_of_cons in H as [<-|H].
  - rewrite E. lia.
  - specialize (IH H E). lia.
Qed.

Lemma tally_two (f : goroutine -> bool) (l : list goroutine) (i j : nat)
    (g g' : goroutine) :
  i <> j -> l !! i = Some g -> l !! j = Some g' -> f g = true -> f g' = true ->
  (2 <= tally f l)%nat.
Proof.
  revert i j. induction l as [|a l IH]; intros [|i] [|j] Hne Hi Hj E E';
    try discriminate; try congruence.
  - injection Hi as ->. cbn in Hj. apply list_elem_of_lookup_2 in Hj.
    pose proof (tally_pos f l g' Hj E'). rewrite tally_cons, E. lia.
  - injection Hj as ->. cbn in Hi. apply list_elem_of_lookup_2 in Hi.
    pose proof (tally_pos f l g Hi E). rewrite tally_cons, E'. lia.
  - cbn in Hi, Hj. assert (i <> j) by congruence.
    specialize (IH i j H Hi Hj E E'). rewrite tally_cons. lia.
Qed.

(** When as many goroutines satisfy [f] and [h] as satisfy [f], all that
    satisfy [f] satisfy [h]. *)
Lemma tally_all (f h : goroutine -> bool) (l : list goroutine) :
  tally (fun g => f g && h g) l = tally f l ->
  forall g, g ∈ l -> f g = true -> h g = true.
Proof.
  induction l as [|a l IH]; intros E g Hg Hf; [inversion Hg|].
  assert (Hl : (tally (fun g => f g && h g) l <= tally f l)%nat).
  { apply tally_le. intros x Hx. now apply andb_true_iff in Hx. }
  rewrite !tally_cons in E.
  apply elem_of_cons in Hg as [->|Hg].
  - rewrite Hf in E. destruct (h a); [reflexivity|]. cbn in E. lia.
  - apply IH; try assumption. destruct (f a), (h a); cbn in E; lia.
Qed.

Lemma set_pc_tag (g : goroutine) (p : go_pc) : tag (set_pc g p) = tag g.
Proof. reflexivity. Qed.

Lemma move_tags (l : list goroutine) (i : nat) (g : goroutine) (p : go_pc) :
  l !! i = Some g -> map tag (<[i := set_pc g p]> l) = map tag l.
Proof.
  intros H. rewrite list_fmap_insert, set_pc_tag.
  apply list_insert_id. now rewrite list_lookup_fmap, H.
Qed.

Lemma elem_of_move (l : list goroutine) (i : nat) (g g' : goroutine) :
  g' ∈ <[i := g]> l ->
  g' = g \/ exists j, j <> i /\ l !! j = Some g'.
Proof.
  intros H. apply list_elem_of_lookup in H as [j Hj].
  destruct (decide (j = i)) as [->|Hne].
  - left. destruct (decide (i < length l)%nat) as [Hlt|Hge].
    + rewrite list_lookup_insert_eq in Hj by exact Hlt. congruence.
    + rewrite list_insert_ge in Hj by lia. apply lookup_lt_Some in Hj. lia.
  - right. exists j. split; [exact Hne|]. now rewrite list_lookup_insert_ne in Hj.
Qed.

(** *** The goroutines started so far *)

Lemma started_spawn (healthcheck : list HealthCheck) (c i : nat) (hc : HealthCheck) :
  healthcheck !! i = Some hc ->
  started healthcheck c (S i) = started healthcheck c i ++ [(hc, c)].
Proof.
  intros H. unfold started. rewrite (take_S_r _ _ _ H), map_app, app_assoc.
  reflexivity.
Qed.

Lemma started_full (healthcheck : list HealthCheck) (c : nat) :
  started healthcheck c (length healthcheck) = started healthcheck (S c) 0.
Proof.
  unfold started. rewrite firstn_all, seq_S, flat_map_app. cbn.
  now rewrite !app_nil_r.
Qed.

Lemma started_wg (healthcheck : list HealthCheck) (c i : nat) (hc : HealthCheck) (k : nat) :
  (hc, k) ∈ started healthcheck c i ->
  hc ∈ healthcheck /\ ((k < c)%nat \/ (k = c /\ (0 < i)%nat)).
Proof.
  unfold started. rewrite elem_of_app. intros [H|H].
  - apply list_elem_of_In, in_flat_map in H as (k' & Hk & H).
    apply in_seq in Hk. apply list_elem_of_In, list_elem_of_fmap in H as (hc' & E & Hin).
    injection E as -> ->. split; [exact Hin|]. left. lia.
  - apply list_elem_of_fmap in H as (hc' & E & Hin). injection E as -> ->.
    apply elem_of_take in Hin as (j & Hj & Hlt).
    split; [eapply list_elem_of_lookup_2, Hj|]. right. split; [reflexivity|lia].
Qed.

Lemma tagged (gs : list goroutine) (g : goroutine) :
  g ∈ gs -> (g_hc g, g_wg g) ∈ map tag gs.
Proof. intros H. apply list_elem_of_fmap. exists g. split; [reflexivity|exact H]. Qed.

Lemma tally_tags (f : HealthCheck * nat -> bool) (gs : list goroutine) :
  tally (fun g => f (tag g)) gs
  = sum_list_with (fun t => if f t then 1%nat else 0%nat) (map tag gs).
Proof.
  induction gs as [|g gs IH]; [reflexivity|].
  rewrite tally_cons, IH. reflexivity.
Qed.

Lemma started_count (healthcheck : list HealthCheck) (c i k : nat) :
  sum_list_with (fun t : HealthCheck * nat => if bool_decide (t.2 = k) then 1%nat else 0%nat)
    (started healthcheck c i)
  = ((if bool_decide (k < c)%nat then length healthcheck else 0)
     + (if bool_decide (k = c) then length (take i healthcheck) else 0))%nat.
Proof.
  unfold started. rewrite sum_list_with_app. f_equal.
  - induction c as [|c IH].
    + cbn. rewrite bool_decide_eq_false_2 by lia. reflexivity.
    + rewrite seq_S, flat_map_app, sum_list_with_app, IH. cbn [flat_map].
      rewrite app_nil_r. cbn [Nat.add].
      assert (E : forall l : list HealthCheck,
                 sum_list_with (fun t : HealthCheck * nat =>
                                  if bool_decide (t.2 = k) then 1%nat else 0%nat)
                   (map (fun hc => (hc, c)) l)
                 = if bool_decide (c = k) then length l else 0%nat).
      { induction l as [|a l IHl]; [cbn; now destruct (bool_decide (c = k))|].
        cbn. rewrite IHl. destruct (bool_decide (c = k)); reflexivity. }
      rewrite E.
      repeat case_bool_decide; lia.
  - generalize (take i healthcheck). intros l.
    induction l as [|a l IHl]; [cbn; now destruct (bool_decide (k = c))|].
    cbn. rewrite IHl.
    repeat case_bool_decide; cbn in *; congruence.
Qed.

(** In a state of the invariant, every goroutine probes an entry of the
    file and holds a WaitGroup that exists. *)
Lemma inv_goroutine (healthcheck : list HealthCheck) (st : state) (g : goroutine) :
  invariant healthcheck st -> g ∈ goroutines st ->
  g_hc g ∈ healthcheck /\ (g_wg g < length (wgs st))%nat.
Proof.
  intros I Hg. apply tagged in Hg. pose proof (inv_started _ _ I) as Hs.
  destruct (pc st).
  - rewrite Hs in Hg. apply started_wg in Hg as [H1 [H2|[_ H2]]]; [auto|lia].
  - destruct Hs as (Hc & Hi & Hs). rewrite Hs in Hg.
    apply started_wg in Hg as [H1 [H2|[H2 _]]]; split; auto; lia.
  - destruct Hs as (Hc & Hs). rewrite Hs in Hg.
    apply started_wg in Hg as [H1 [H2|[_ H2]]]; [auto|lia].
  - destruct Hs as (Hc & Hs). rewrite Hs in Hg.
    apply started_wg in Hg as [H1 [H2|[_ H2]]]; [auto|lia].
  - destruct Hs as (Hc & Hs). rewrite Hs in Hg.
    apply started_wg in Hg as [H1 [H2|[_ H2]]]; [auto|lia].
Qed.

(** The goroutines of a WaitGroup whose entries are all started. *)
Lemma inv_spawned (healthcheck : list HealthCheck) (st : state) (k : nat) :
  invariant healthcheck st ->
  (k < length (wgs st))%nat ->
  (forall i, pc st = AtSpawn i -> (S k < length (wgs st))%nat) ->
  tally (fun g => bool_decide (g_wg g = k)) (goroutines st) = length healthcheck.
Proof.
  intros I Hk Hsp. pose proof (inv_started _ _ I) as Hs.
  etransitivity;
    [exact (tally_tags (fun t => bool_decide (t.2 = k)) (goroutines st))|].
  destruct (pc st) as [|i| | |].
  - rewrite Hs, started_count, take_0. cbn [length].
    repeat case_bool_decide; lia.
  - destruct Hs as (Hc & Hi & ->). specialize (Hsp i eq_refl).
    rewrite started_count. repeat case_bool_decide; lia.
  - destruct Hs as (Hc & ->). rewrite started_count, take_0. cbn [length].
    repeat case_bool_decide; lia.
  - destruct Hs as (Hc & ->). rewrite started_count, take_0. cbn [length].
    repeat case_bool_decide; lia.
  - destruct Hs as (Hc & ->). rewrite started_count, take_0. cbn [length].
    repeat case_bool_decide; lia.
Qed.

(** ** The polling loop: the invariant is kept *)
Section Loop.
Variable healthcheck : list HealthCheck.

Lemma on_host_set_pc (h : string) (g : goroutine) (p : go_pc) :
  on_host h (set_pc g p) = on_host h g.
Proof. reflexivity. Qed.

Lemma attempts_same (h : string) (gs : list goroutine) (i : nat) (g : goroutine)
    (p : go_pc) :
  gs !! i = Some g -> attempt_stored p = attempt_stored (g_pc g) ->
  attempts_of h (<[i := set_pc g p]> gs) = attempts_of h gs.
Proof.
  intros H E. apply (tally_insert_same _ _ _ g); [exact H|].
  cbn [g_pc set_pc]. now rewrite on_host_set_pc, E.
Qed.

Lemma successes_same (h : string) (gs : list goroutine) (i : nat) (g : goroutine)
    (p : go_pc) :
  gs !! i = Some g -> success_stored p = success_stored (g_pc g) ->
  successes_of h (<[i := set_pc g p]> gs) = successes_of h gs.
Proof.
  intros H E. apply (tally_insert_same _ _ _ g); [exact H|].
  cbn [g_pc set_pc]. now rewrite on_host_set_pc, E.
Qed.

Lemma finished_same (k : nat) (gs : list goroutine) (i : nat) (g : goroutine)
    (p : go_pc) :
  gs !! i = Some g -> is_finished p = is_finished (g_pc g) ->
  finished_of k (<[i := set_pc g p]> gs) = finished_of k gs.
Proof.
  intros H E. apply (tally_insert_same _ _ _ g); [exact H|].
  cbn [g_pc g_wg set_pc]. now rewrite E.
Qed.

Lemma attempts_store (h : string) (gs : list goroutine) (i : nat) (g : goroutine)
    (p : go_pc) :
  gs !! i = Some g -> attempt_stored (g_pc g) = false -> attempt_stored p = true ->
  attempts_of h (<[i := set_pc g p]> gs)
  = (attempts_of h gs + if on_host h g then 1 else 0)%nat.
Proof.
  intros H E1 E2. pose proof (tally_insert
    (fun g => on_host h g && attempt_stored (g_pc g)) gs i g (set_pc g p) H) as T.
  cbn [g_pc set_pc] in T. rewrite on_host_set_pc, E1, E2 in T.
  unfold attempts_of. destruct (on_host h g); cbn in T; lia.
Qed.

Lemma successes_store (h : string) (gs : list goroutine) (i : nat) (g : goroutine)
    (p : go_pc) :
  gs !! i = Some g -> success_stored (g_pc g) = false -> success_stored p = true ->
  successes_of h (<[i := set_pc g p]> gs)
  = (successes_of h gs + if on_host h g then 1 else 0)%nat.
Proof.
  intros H E1 E2. pose proof (tally_insert
    (fun g => on_host h g && success_stored (g_pc g)) gs i g (set_pc g p) H) as T.
  cbn [g_pc set_pc] in T. rewrite on_host_set_pc, E1, E2 in T.
  unfold successes_of. destruct (on_host h g); cbn in T; lia.
Qed.

Lemma section_move (gs : list goroutine) (i : nat) (g : goroutine) (p : go_pc) :
  gs !! i = Some g ->
  (tally (fun g => in_section (g_pc g)) (<[i := set_pc g p]> gs)
   + (if in_section (g_pc g) then 1 else 0)
   = tally (fun g => in_section (g_pc g)) gs + if in_section p then 1 else 0)%nat.
Proof. intros H. exact (tally_insert _ gs i g (set_pc g p) H). Qed.

(** The parts of the invariant that a move of one goroutine cannot break. *)
Lemma invariant_move (st : state) (i : nat) (g : goroutine) (p : go_pc)
    (L : bool) (S' : gmap string Result) (W' : list Z) :
  invariant healthcheck st ->
  goroutines st !! i = Some g ->
  is_finished (g_pc g) = false ->
  length W' = length (wgs st) ->
  let gs' := <[i := set_pc g p]> (goroutines st) in
  (forall k n, W' !! k = Some n ->
     n = (Z.of_nat (length healthcheck) - Z.of_nat (finished_of k gs'))%Z) ->
  tally (fun g => in_section (g_pc g)) gs' = (if L then 1%nat else 0%nat) ->
  (forall h, S' !! h =
     if bool_decide (h ∈ hostnames healthcheck)
     then Some (mkResult (count (attempts_of h gs')) (count (successes_of h gs')))
     else None) ->
  (forall g', g' ∈ gs' ->
     match g_pc g' with
     | StoringAttempt _ v => v = count (attempts_of (hostname (g_hc g')) gs')
     | StoringSuccess v => v = count (successes_of (hostname (g_hc g')) gs')
     | _ => True
     end) ->
  invariant healthcheck (mkState L S' W' gs' (pc st)).
Proof.
  intros I Hi Hnf HW gs' Hw Hl Hs Hld.
  assert (Hg : g ∈ goroutines st) by (eapply list_elem_of_lookup_2, Hi).
  pose proof (inv_finished _ _ I g Hg) as Hfin.
  constructor; cbn [pc wgs goroutines locked Sites]; try assumption.
  - pose proof (inv_started _ _ I) as Hst. unfold gs'. rewrite move_tags by exact Hi.
    rewrite HW. exact Hst.
  - intros g' Hg'. apply elem_of_move in Hg' as [->|(j & Hj & Hg')].
    + cbn [g_pc g_wg set_pc]. rewrite HW.
      destruct (pc st); try congruence; intros Hk; specialize (Hfin Hk); congruence.
    + apply list_elem_of_lookup_2 in Hg'. rewrite HW.
      exact (inv_finished _ _ I g' Hg').
Qed.

(** A move that stores nothing and does not end the goroutine. *)
Lemma invariant_quiet (st : state) (i : nat) (g : goroutine) (p : go_pc) (L : bool) :
  invariant healthcheck st ->
  goroutines st !! i = Some g ->
  is_finished (g_pc g) = false -> is_finished p = false ->
  attempt_stored p = attempt_stored (g_pc g) ->
  success_stored p = success_stored (g_pc g) ->
  ((if in_section p then 1 else 0) + (if locked st then 1 else 0)
   = (if in_section (g_pc g) then 1 else 0) + (if L then 1 else 0))%nat ->
  match p with
  | StoringAttempt _ v => v = count (attempts_of (hostname (g_hc g)) (goroutines st))
  | StoringSuccess v => v = count (successes_of (hostname (g_hc g)) (goroutines st))
  | _ => True
  end ->
  invariant healthcheck
    (mkState L (Sites st) (wgs st) (<[i := set_pc g p]> (goroutines st)) (pc st)).
Proof.
  intros I Hi Hnf Hnf' Ha Hs Hl Hp.
  apply invariant_move; try assumption; try reflexivity.
  - intros k n Hk. rewrite (finished_same k _ _ g) by congruence.
    exact (inv_wgs _ _ I k n Hk).
  - pose proof (section_move _ _ _ p Hi) as T. pose proof (inv_lock _ _ I) as Il.
    destruct L, (locked st), (in_section p), (in_section (g_pc g)); lia.
  - intros h. rewrite (attempts_same h _ _ g), (successes_same h _ _ g) by assumption.
    exact (inv_sites _ _ I h).
  - intros g' Hg'.
    assert (Ea : forall h, attempts_of h (<[i := set_pc g p]> (goroutines st))
                           = attempts_of h (goroutines st))
      by (intros h; now apply attempts_same).
    assert (Es : forall h, successes_of h (<[i := set_pc g p]> (goroutines st))
                           = successes_of h (goroutines st))
      by (intros h; now apply successes_same).
    rewrite Ea, Es.
    apply elem_of_move in Hg' as [->|(j & Hj & Hg')].
    + exact Hp.
    + apply list_elem_of_lookup_2 in Hg'. exact (inv_loaded _ _ I g' Hg').
Qed.

(** While one goroutine is between [Lock] and [Unlock], no other is. *)
Lemma inv_exclusion (st : state) (i j : nat) (g g' : goroutine) :
  invariant healthcheck st ->
  goroutines st !! i = Some g -> goroutines st !! j = Some g' ->
  in_section (g_pc g) = true -> in_section (g_pc g') = true -> i = j.
Proof.
  intros I Hi Hj E E'. destruct (decide (i = j)) as [|Hne]; [assumption|].
  pose proof (tally_two (fun g => in_section (g_pc g)) _ i j g g' Hne Hi Hj E E') as T.
  rewrite (inv_lock _ _ I) in T. destruct (locked st); lia.
Qed.

Lemma inv_section_locked (st : state) (i : nat) (g : goroutine) :
  invariant healthcheck st ->
  goroutines st !! i = Some g -> in_section (g_pc g) = true -> locked st = true.
Proof.
  intros I Hi E. apply list_elem_of_lookup_2 in Hi.
  pose proof (tally_pos (fun g => in_section (g_pc g)) _ g Hi E) as T.
  rewrite (inv_lock _ _ I) in T. destruct (locked st); [reflexivity|lia].
Qed.

Lemma inv_site (st : state) (g : goroutine) :
  invariant healthcheck st -> g ∈ goroutines st ->
  Sites st !! hostname (g_hc g)
  = Some (mkResult (count (attempts_of (hostname (g_hc g)) (goroutines st)))
                   (count (successes_of (hostname (g_hc g)) (goroutines st)))).
Proof.
  intros I Hg. rewrite (inv_sites _ _ I).
  assert (Hin : hostname (g_hc g) ∈ hostnames healthcheck).
  { unfold hostnames. apply list_elem_of_fmap. exists (g_hc g). split; [reflexivity|].
    now apply (inv_goroutine healthcheck st g I). }
  now rewrite bool_decide_eq_true_2.
Qed.

Lemma invariant_store_attempt (st : state) (i : nat) (g : goroutine) (success : bool)
    (v : float64) (r : Result) :
  invariant healthcheck st ->
  goroutines st !! i = Some g -> g_pc g = StoringAttempt success v ->
  Sites st !! hostname (g_hc g) = Some r ->
  invariant healthcheck
    (mkState (locked st)
       (<[hostname (g_hc g) := set_Attempt r (fadd v one)]> (Sites st)) (wgs st)
       (<[i := set_pc g (if success then LoadingSuccess else Unlocking false)]>
          (goroutines st))
       (pc st)).
Proof.
  intros I Hi Hpc Hr.
  assert (Hg : g ∈ goroutines st) by (eapply list_elem_of_lookup_2, Hi).
  pose proof (inv_loaded _ _ I g Hg) as Hv. rewrite Hpc in Hv.
  rewrite (inv_site st g I Hg) in Hr. injection Hr as <-.
  set (p := if success then LoadingSuccess else Unlocking false).
  assert (Ep1 : attempt_stored p = true) by (unfold p; now destruct success).
  assert (Ep2 : success_stored p = false) by (unfold p; now destruct success).
  assert (Ep3 : in_section p = true) by (unfold p; now destruct success).
  assert (Ep4 : is_finished p = false) by (unfold p; now destruct success).
  assert (Ea : forall h, attempts_of h (<[i := set_pc g p]> (goroutines st))
                 = (attempts_of h (goroutines st) + if on_host h g then 1 else 0)%nat).
  { intros h. apply attempts_store; [exact Hi| |exact Ep1]. now rewrite Hpc. }
  assert (Es : forall h, successes_of h (<[i := set_pc g p]> (goroutines st))
                 = successes_of h (goroutines st)).
  { intros h. apply successes_same; [exact Hi|]. now rewrite Hpc, Ep2. }
  apply invariant_move; try assumption; try reflexivity.
  - now rewrite Hpc.
  - intros k n Hk. rewrite (finished_same k _ _ g) by (rewrite ?Hpc, ?Ep4; auto).
    exact (inv_wgs _ _ I k n Hk).
  - pose proof (section_move _ _ _ p Hi) as T. rewrite Hpc, Ep3 in T. cbn in T.
    rewrite <- (inv_lock _ _ I). lia.
  - intros h. rewrite Ea, Es. unfold on_host.
    destruct (decide (hostname (g_hc g) = h)) as [<-|Hne].
    + assert (Hin : hostname (g_hc g) ∈ hostnames healthcheck).
      { unfold hostnames. apply list_elem_of_fmap. exists (g_hc g). split; [reflexivity|].
        now apply (inv_goroutine healthcheck st g I). }
      rewrite lookup_insert_eq.
      rewrite (bool_decide_eq_true_2 (_ ∈ _)) by exact Hin.
      rewrite (bool_decide_eq_true_2 (_ = _)) by reflexivity.
      cbn [set_Attempt Success]. rewrite Hv.
      rewrite Uptime_facts.count_S, Nat.add_1_r. reflexivity.
    + rewrite lookup_insert_ne by exact Hne.
      rewrite (bool_decide_eq_false_2 (hostname (g_hc g) = h)) by exact Hne.
      rewrite Nat.add_0_r. exact (inv_sites _ _ I h).
  - intros g' Hg'. apply elem_of_move in Hg' as [->|(j & Hj & Hg')].
    + cbn [g_pc set_pc]. unfold p. now destruct success.
    + destruct (g_pc g') eqn:Epc'; try trivial.
      * exfalso. apply Hj. symmetry.
        apply (inv_exclusion st i j g g' I Hi Hg'); [now rewrite Hpc|now rewrite Epc'].
      * exfalso. apply Hj. symmetry.
        apply (inv_exclusion st i j g g' I Hi Hg'); [now rewrite Hpc|now rewrite Epc'].
Qed.

Lemma invariant_store_success (st : state) (i : nat) (g : goroutine) (v : float64)
    (r : Result) :
  invariant healthcheck st ->
  goroutines st !! i = Some g -> g_pc g = StoringSuccess v ->
  Sites st !! hostname (g_hc g) = Some r ->
  invariant healthcheck
    (mkState (locked st)
       (<[hostname (g_hc g) := set_Success r (fadd v one)]> (Sites st)) (wgs st)
       (<[i := set_pc g (Unlocking true)]> (goroutines st)) (pc st)).
Proof.
  intros I Hi Hpc Hr.
  assert (Hg : g ∈ goroutines st) by (eapply list_elem_of_lookup_2, Hi).
  pose proof (inv_loaded _ _ I g Hg) as Hv. rewrite Hpc in Hv.
  rewrite (inv_site st g I Hg) in Hr. injection Hr as <-.
  set (p := Unlocking true).
  assert (Es : forall h, successes_of h (<[i := set_pc g p]> (goroutines st))
                 = (successes_of h (goroutines st) + if on_host h g then 1 else 0)%nat).
  { intros h. apply successes_store; [exact Hi| |reflexivity]. now rewrite Hpc. }
  assert (Ea : forall h, attempts_of h (<[i := set_pc g p]> (goroutines st))
                 = attempts_of h (goroutines st)).
  { intros h. apply attempts_same; [exact Hi|]. now rewrite Hpc. }
  apply invariant_move; try assumption; try reflexivity.
  - now rewrite Hpc.
  - intros k n Hk. rewrite (finished_same k _ _ g) by (rewrite ?Hpc; auto).
    exact (inv_wgs _ _ I k n Hk).
  - pose proof (section_move _ _ _ p Hi) as T. rewrite Hpc in T. cbn in T.
    rewrite <- (inv_lock _ _ I). lia.
  - intros h. rewrite Ea, Es. unfold on_host.
    destruct (decide (hostname (g_hc g) = h)) as [<-|Hne].
    + assert (Hin : hostname (g_hc g) ∈ hostnames healthcheck).
      { unfold hostnames. apply list_elem_of_fmap. exists (g_hc g). split; [reflexivity|].
        now apply (inv_goroutine healthcheck st g I). }
      rewrite lookup_insert_eq.
      rewrite (bool_decide_eq_true_2 (_ ∈ _)) by exact Hin.
      rewrite (bool_decide_eq_true_2 (_ = _)) by reflexivity.
      cbn [set_Success Attempt]. rewrite Hv.
      rewrite Uptime_facts.count_S, Nat.add_1_r. reflexivity.
    + rewrite lookup_insert_ne by exact Hne.
      rewrite (bool_decide_eq_false_2 (hostname (g_hc g) = h)) by exact Hne.
      rewrite Nat.add_0_r. exact (inv_sites _ _ I h).
  - intros g' Hg'. apply elem_of_move in Hg' as [->|(j & Hj & Hg')].
    + exact Logic.I.
    + destruct (g_pc g') eqn:Epc'; try trivial.
      * exfalso. apply Hj. symmetry.
        apply (inv_exclusion st i j g g' I Hi Hg'); [now rewrite Hpc|now rewrite Epc'].
      * exfalso. apply Hj. symmetry.
        apply (inv_exclusion st i j g g' I Hi Hg'); [now rewrite Hpc|now rewrite Epc'].
Qed.

Lemma invariant_done (st : state) (i : nat) (g : goroutine) (success : bool) (n : Z) :
  invariant healthcheck st ->
  goroutines st !! i = Some g -> g_pc g = Signalling success ->
  wgs st !! g_wg g = Some n ->
  invariant healthcheck
    (mkState (locked st) (Sites st) (<[g_wg g := (n - 1)%Z]> (wgs st))
       (<[i := set_pc g (Finished success)]> (goroutines st)) (pc st)).
Proof.
  intros I Hi Hpc Hn.
  set (p := Finished success).
  assert (Ef : forall k, finished_of k (<[i := set_pc g p]> (goroutines st))
                 = (finished_of k (goroutines st)
                    + if bool_decide (g_wg g = k) then 1 else 0)%nat).
  { intros k. pose proof (tally_insert
      (fun g => bool_decide (g_wg g = k) && is_finished (g_pc g)) _ i g (set_pc g p) Hi) as T.
    cbn [g_pc g_wg set_pc] in T. rewrite Hpc in T. cbn [is_finished p] in T.
    unfold finished_of. destruct (bool_decide (g_wg g = k)); cbn in T; lia. }
  assert (Ea : forall h, attempts_of h (<[i := set_pc g p]> (goroutines st))
                 = attempts_of h (goroutines st)).
  { intros h. apply attempts_same; [exact Hi|]. now rewrite Hpc. }
  assert (Es : forall h, successes_of h (<[i := set_pc g p]> (goroutines st))
                 = successes_of h (goroutines st)).
  { intros h. apply successes_same; [exact Hi|]. now rewrite Hpc. }
  apply invariant_move; try assumption.
  - now rewrite Hpc.
  - apply length_insert.
  - intros k m Hk. rewrite Ef.
    destruct (decide (g_wg g = k)) as [<-|Hne].
    + rewrite list_lookup_insert_eq in Hk by (eapply lookup_lt_Some, Hn).
      injection Hk as <-. rewrite bool_decide_eq_true_2 by reflexivity.
      pose proof (inv_wgs _ _ I _ _ Hn). lia.
    + rewrite list_lookup_insert_ne in Hk by exact Hne.
      rewrite bool_decide_eq_false_2 by exact Hne.
      pose proof (inv_wgs _ _ I _ _ Hk). lia.
  - pose proof (section_move _ _ _ p Hi) as T. rewrite Hpc in T. cbn in T.
    rewrite <- (inv_lock _ _ I). lia.
  - intros h. rewrite Ea, Es. exact (inv_sites _ _ I h).
  - intros g' Hg'. rewrite Ea, Es. apply elem_of_move in Hg' as [->|(j & Hj & Hg')].
    + exact Logic.I.
    + apply list_elem_of_lookup_2 in Hg'. exact (inv_loaded _ _ I g' Hg').
Qed.

Lemma tally_snoc_quiet (f : goroutine -> bool) (gs : list goroutine) (g : goroutine) :
  f g = false -> tally f (gs ++ [g]) = tally f gs.
Proof. intros E. rewrite tally_app, tally_cons, E. cbn. lia. Qed.

(** Every step keeps the invariant. *)
Lemma step_invariant (st : state) (ev : event) (st' : state) :
  invariant healthcheck st -> step healthcheck st ev st' -> invariant healthcheck st'.
Proof.
  intros I Hstep. destruct Hstep.
  - (* top *)
    pose proof (inv_started _ _ I) as Hs. rewrite H in Hs.
    constructor; cbn [pc wgs goroutines locked Sites].
    + rewrite length_app. cbn. split; [lia|]. split; [lia|].
      now replace (length (wgs st) + 1 - 1)%nat with (length (wgs st)) by lia.
    + intros g Hg _. pose proof (inv_finished _ _ I g Hg) as Hf. now rewrite H in Hf.
    + intros k n Hk. apply lookup_app_Some in Hk as [Hk|[Hge Hk]].
      * exact (inv_wgs _ _ I k n Hk).
      * apply list_lookup_singleton_Some in Hk as [Hk <-].
        assert (E : finished_of k (goroutines st) = 0%nat).
        { apply tally_none. intros g Hg.
          destruct (inv_goroutine healthcheck st g I Hg) as [_ Hlt].
          rewrite bool_decide_eq_false_2 by lia. reflexivity. }
        rewrite E. lia.
    + exact (inv_lock _ _ I).
    + exact (inv_sites _ _ I).
    + exact (inv_loaded _ _ I).
  - (* spawn *)
    pose proof (inv_started _ _ I) as Hs. rewrite H in Hs. destruct Hs as (Hc & Hi & Hs).
    assert (Hlt : (i < length healthcheck)%nat) by (eapply lookup_lt_Some, H0).
    constructor; cbn [pc wgs goroutines locked Sites].
    + split; [exact Hc|]. split; [lia|].
      rewrite map_app, Hs. cbn. unfold wg. now rewrite (started_spawn _ _ _ hc).
    + intros g Hg Hk. apply elem_of_app in Hg as [Hg|Hg].
      * pose proof (inv_finished _ _ I g Hg) as Hf. rewrite H in Hf. auto.
      * apply list_elem_of_singleton in Hg as ->. cbn [g_wg] in Hk. unfold wg in Hk. lia.
    + intros k n Hk. unfold finished_of. rewrite tally_snoc_quiet.
      * exact (inv_wgs _ _ I k n Hk).
      * cbn. apply andb_false_r.
    + rewrite tally_snoc_quiet by reflexivity. exact (inv_lock _ _ I).
    + intros h. unfold attempts_of, successes_of.
      rewrite !tally_snoc_quiet by (cbn; apply andb_false_r).
      exact (inv_sites _ _ I h).
    + intros g Hg. unfold attempts_of, successes_of.
      rewrite !tally_snoc_quiet by (cbn; apply andb_false_r).
      apply elem_of_app in Hg as [Hg|Hg].
      * exact (inv_loaded _ _ I g Hg).
      * apply list_elem_of_singleton in Hg as ->. exact Logic.I.
  - (* all spawned *)
    pose proof (inv_started _ _ I) as Hs. rewrite H in Hs. destruct Hs as (Hc & Hi & Hs).
    apply lookup_ge_None in H0.
    assert (i = length healthcheck) as -> by lia.
    constructor; cbn [pc wgs goroutines locked Sites].
    + split; [exact Hc|]. rewrite Hs, started_full. f_equal. lia.
    + intros g Hg Hk. pose proof (inv_finished _ _ I g Hg) as Hf. rewrite H in Hf. auto.
    + exact (inv_wgs _ _ I).
    + exact (inv_lock _ _ I).
    + exact (inv_sites _ _ I).
    + exact (inv_loaded _ _ I).
  - (* wait *)
    pose proof (inv_started _ _ I) as Hs. rewrite H in Hs. destruct Hs as (Hc & Hs).
    constructor; cbn [pc wgs goroutines locked Sites].
    + split; [exact Hc|exact Hs].
    + intros g Hg. pose proof (inv_finished _ _ I g Hg) as Hf. rewrite H in Hf.
      destruct (inv_goroutine healthcheck st g I Hg) as [_ Hlt].
      destruct (decide (S (g_wg g) < length (wgs st))%nat) as [Hk|Hk]; [auto|].
      assert (Ek : g_wg g = wg st) by (unfold wg; lia).
      pose proof (inv_wgs _ _ I _ _ H0) as Hw.
      assert (Hsp : tally (fun g => bool_decide (g_wg g = wg st)) (goroutines st)
                    = length healthcheck).
      { apply inv_spawned; [exact I|unfold wg; lia|]. intros i Ei. congruence. }
      apply (tally_all (fun g => bool_decide (g_wg g = wg st))
               (fun g => is_finished (g_pc g)) (goroutines st)).
      * fold (finished_of (wg st) (goroutines st)). lia.
      * exact Hg.
      * now apply bool_decide_eq_true_2.
    + exact (inv_wgs _ _ I).
    + exact (inv_lock _ _ I).
    + exact (inv_sites _ _ I).
    + exact (inv_loaded _ _ I).
  - (* report *)
    pose proof (inv_started _ _ I) as Hs. rewrite H in Hs.
    constructor; cbn [pc wgs goroutines locked Sites]; try apply I.
    + exact Hs.
    + intros g Hg. pose proof (inv_finished _ _ I g Hg) as Hf. now rewrite H in Hf.
  - (* sleep *)
    pose proof (inv_started _ _ I) as Hs. rewrite H in Hs.
    constructor; cbn [pc wgs goroutines locked Sites]; try apply I.
    + apply Hs.
    + intros g Hg. pose proof (inv_finished _ _ I g Hg) as Hf. now rewrite H in Hf.
  - (* probe *)
    apply invariant_quiet; try assumption; rewrite ?H0; reflexivity.
  - (* lock *)
    apply invariant_quiet; try assumption; rewrite ?H0, ?H1; reflexivity.
  - (* load attempt *)
    apply invariant_quiet; try assumption; rewrite ?H0; try reflexivity.
    assert (Hg : g ∈ goroutines st) by (eapply list_elem_of_lookup_2, H).
    rewrite (inv_site st g I Hg) in H1. now injection H1 as <-.
  - (* store attempt *)
    now apply invariant_store_attempt.
  - (* load success *)
    apply invariant_quiet; try assumption; rewrite ?H0; try reflexivity.
    assert (Hg : g ∈ goroutines st) by (eapply list_elem_of_lookup_2, H).
    rewrite (inv_site st g I Hg) in H1. now injection H1 as <-.
  - (* store success *)
    now apply invariant_store_success.
  - (* unlock *)
    apply invariant_quiet; try assumption; rewrite ?H0, ?H1; reflexivity.
  - (* done *)
    now apply (invariant_done st i g success n).
Qed.
End Loop.

(** ** The polling loop: no panic, no deadlock *)
Section Progress.
Variable healthcheck : list HealthCheck.

Lemma invariant_initial (Sites0 : gmap string Result) :
  (forall h, Sites0 !! h =
     if bool_decide (h ∈ hostnames healthcheck) then Some (mkResult zero zero) else None) ->
  invariant healthcheck (initial Sites0).
Proof.
  intros H. constructor; cbn.
  - reflexivity.
  - intros g Hg. inversion Hg.
  - intros k n Hk. discriminate Hk.
  - reflexivity.
  - exact H.
  - intros g Hg. inversion Hg.
Qed.

Lemma steps_invariant (st : state) (evs : list event) (st' : state) :
  invariant healthcheck st -> steps healthcheck st evs st' -> invariant healthcheck st'.
Proof.
  intros I H. induction H as [|st1 evs st2 ev st3 H IH Hs]; [exact I|].
  exact (step_invariant healthcheck st2 ev st3 (IH I) Hs).
Qed.

Lemma steps_trans (st1 st2 st3 : state) (evs1 evs2 : list event) :
  steps healthcheck st1 evs1 st2 -> steps healthcheck st2 evs2 st3 ->
  steps healthcheck st1 (evs1 ++ evs2) st3.
Proof.
  intros H1 H2. induction H2.
  - now rewrite app_nil_r.
  - rewrite app_assoc. econstructor; eauto.
Qed.

Lemma steps_one (st : state) (ev : event) (st' : state) :
  step healthcheck st ev st' -> steps healthcheck st [ev] st'.
Proof. intros H. apply (steps_step _ st [] st ev st'); [constructor|exact H]. Qed.

Lemma tally_exists (f : goroutine -> bool) (l : list goroutine) :
  (0 < tally f l)%nat -> exists i g, l !! i = Some g /\ f g = true.
Proof.
  induction l as [|a l IH]; [cbn; lia|]. rewrite tally_cons.
  destruct (f a) eqn:E.
  - intros _. exists 0%nat, a. split; [reflexivity|exact E].
  - intros H. destruct IH as (i & g & Hi & Hf); [lia|].
    exists (S i), g. split; assumption.
Qed.

Lemma tally_lt (f h : goroutine -> bool) (l : list goroutine) (g : goroutine) :
  g ∈ l -> f g = true -> h g = false ->
  (tally (fun g => f g && h g) l < tally f l)%nat.
Proof.
  induction l as [|a l IH]; intros Hg Hf Hh; [inversion Hg|].
  assert (Hle : (tally (fun g => f g && h g) l <= tally f l)%nat).
  { apply tally_le. intros x Hx. now apply andb_true_iff in Hx. }
  rewrite !tally_cons. apply elem_of_cons in Hg as [<-|Hg].
  - rewrite Hf, Hh. cbn. lia.
  - specialize (IH Hg Hf Hh). destruct (f a), (h a); cbn; lia.
Qed.

Lemma inv_spawned_le (st : state) (k : nat) :
  invariant healthcheck st ->
  (tally (fun g => bool_decide (g_wg g = k)) (goroutines st) <= length healthcheck)%nat.
Proof.
  intros I. pose proof (inv_started _ _ I) as Hs.
  etransitivity;
    [apply Nat.eq_le_incl;
     exact (tally_tags (fun t => bool_decide (t.2 = k)) (goroutines st))|].
  assert (Hb : forall c i, (i <= length healthcheck)%nat ->
             (sum_list_with (fun t : HealthCheck * nat =>
                               if bool_decide (t.2 = k) then 1%nat else 0%nat)
                (started healthcheck c i) <= length healthcheck)%nat).
  { intros c i Hi. rewrite started_count, length_take.
    repeat case_bool_decide; lia. }
  destruct (pc st).
  - rewrite Hs. apply Hb. lia.
  - destruct Hs as (_ & Hi & ->). now apply Hb.
  - destruct Hs as (_ & ->). apply Hb. lia.
  - destruct Hs as (_ & ->). apply Hb. lia.
  - destruct Hs as (_ & ->). apply Hb. lia.
Qed.

(** The counter of the WaitGroup of a goroutine that has not finished is
    positive. *)
Lemma inv_wg_positive (st : state) (g : goroutine) :
  invariant healthcheck st -> g ∈ goroutines st -> is_finished (g_pc g) = false ->
  exists n, wgs st !! g_wg g = Some n /\ (0 < n)%Z.
Proof.
  intros I Hg Hf. destruct (inv_goroutine healthcheck st g I Hg) as [_ Hlt].
  destruct (lookup_lt_is_Some_2 (wgs st) (g_wg g) Hlt) as [n Hn].
  exists n. split; [exact Hn|]. rewrite (inv_wgs _ _ I _ _ Hn).
  pose proof (inv_spawned_le st (g_wg g) I) as Hle.
  pose proof (tally_lt (fun x => bool_decide (g_wg x = g_wg g))
                (fun x => is_finished (g_pc x)) _ g Hg
                (bool_decide_eq_true_2 _ eq_refl) Hf) as Hl.
  unfold finished_of. lia.
Qed.

(** No reachable state panics. *)
Lemma invariant_no_panic (st : state) (msg : string) :
  invariant healthcheck st -> ~ panics st msg.
Proof.
  intros I Hp. destruct Hp as [st i g net msg Hi Hpc Hc|st i g Hi Hpc Hs
                              |st i g b Hi Hpc Hl|st i g b Hi Hpc Hn].
  - rewrite check_eq in Hc. discriminate Hc.
  - apply list_elem_of_lookup_2 in Hi. rewrite (inv_site healthcheck st g I Hi) in Hs.
    discriminate Hs.
  - rewrite (inv_section_locked healthcheck st i g I Hi) in Hl; [discriminate|].
    now rewrite Hpc.
  - apply list_elem_of_lookup_2 in Hi.
    destruct (inv_wg_positive st g I Hi) as (n & Hw & Hpos); [now rewrite Hpc|].
    specialize (Hn n Hw). lia.
Qed.

(** A goroutine that holds the mutex can move. *)
Lemma holder_moves (st : state) (i : nat) (g : goroutine) :
  invariant healthcheck st -> goroutines st !! i = Some g ->
  in_section (g_pc g) = true -> exists ev st', step healthcheck st ev st'.
Proof.
  intros I Hi Hs.
  assert (Hg : g ∈ goroutines st) by (eapply list_elem_of_lookup_2, Hi).
  pose proof (inv_site healthcheck st g I Hg) as Hr.
  pose proof (inv_section_locked healthcheck st i g I Hi Hs) as Hl.
  destruct (g_pc g) eqn:Hpc; try discriminate Hs.
  - eexists _, _. eapply step_load_attempt; eauto.
  - eexists _, _. eapply step_store_attempt; eauto.
  - eexists _, _. eapply step_load_success; eauto.
  - eexists _, _. eapply step_store_success; eauto.
  - eexists _, _. eapply step_unlock; eauto.
Qed.

(** While a goroutine has not finished, some goroutine can move. *)
Lemma unfinished_moves (st : state) (i : nat) (g : goroutine) :
  invariant healthcheck st -> goroutines st !! i = Some g ->
  is_finished (g_pc g) = false -> exists ev st', step healthcheck st ev st'.
Proof.
  intros I Hi Hf.
  assert (Hg : g ∈ goroutines st) by (eapply list_elem_of_lookup_2, Hi).
  destruct (in_section (g_pc g)) eqn:Hs; [eapply holder_moves; eauto|].
  destruct (g_pc g) eqn:Hpc; try discriminate Hs; try discriminate Hf.
  - eexists _, _. eapply (step_probe _ st i g no_network); eauto. apply check_eq.
  - destruct (locked st) eqn:Hl.
    + pose proof (inv_lock _ _ I) as Il. rewrite Hl in Il.
      destruct (tally_exists (fun g => in_section (g_pc g)) (goroutines st))
        as (j & g' & Hj & Hs'); [lia|].
      eapply holder_moves; eauto.
    + eexists _, _. eapply step_lock; eauto.
  - destruct (inv_wg_positive st g I Hg) as (n & Hw & Hpos); [now rewrite Hpc|].
    eexists _, _. eapply step_done; eauto.
Qed.

(** The loop never blocks: in every state of the invariant a step is
    possible. *)
Lemma invariant_progress (st : state) :
  invariant healthcheck st -> exists ev st', step healthcheck st ev st'.
Proof.
  intros I. destruct (pc st) eqn:Hpc.
  - eexists _, _. now apply step_top.
  - destruct (healthcheck !! i) eqn:Hi.
    + eexists _, _. eapply step_spawn; eauto.
    + eexists _, _. eapply step_spawned; eauto.
  - pose proof (inv_started _ _ I) as Hs. rewrite Hpc in Hs. destruct Hs as (Hc & Hs).
    assert (Hlt : (wg st < length (wgs st))%nat) by (unfold wg; lia).
    destruct (lookup_lt_is_Some_2 (wgs st) (wg st) Hlt) as [n Hn].
    destruct (Z.eq_dec n 0%Z) as [->|Hn0].
    + eexists _, _. now apply step_wait.
    + pose proof (inv_wgs _ _ I _ _ Hn) as Hw.
      assert (Hsp : tally (fun g => bool_decide (g_wg g = wg st)) (goroutines st)
                    = length healthcheck).
      { apply inv_spawned; [exact I|exact Hlt|]. intros i Ei. congruence. }
      assert (Hle : (finished_of (wg st) (goroutines st)
                     <= tally (fun g => bool_decide (g_wg g = wg st)) (goroutines st))%nat).
      { apply tally_le. intros x Hx. now apply andb_true_iff in Hx. }
      destruct (tally_exists
                  (fun g => bool_decide (g_wg g = wg st) && negb (is_finished (g_pc g)))
                  (goroutines st)) as (j & g & Hj & Hg).
      { assert (E : (tally (fun g => bool_decide (g_wg g = wg st)) (goroutines st)
                     = finished_of (wg st) (goroutines st)
                       + tally (fun g => bool_decide (g_wg g = wg st)
                                         && negb (is_finished (g_pc g)))
                           (goroutines st))%nat).
        { unfold finished_of. generalize (goroutines st). intros l.
          induction l as [|a l IH]; [reflexivity|]. rewrite !tally_cons, IH.
          destruct (bool_decide _), (is_finished _); cbn; lia. }
        lia. }
      apply andb_true_iff in Hg as [_ Hg]. apply negb_true_iff in Hg.
      eapply unfinished_moves; eauto.
  - eexists _, _. apply step_report; [exact Hpc|reflexivity].
  - eexists _, _. now apply step_sleep.
Qed.

Lemma work_cons (g : goroutine) (l : list goroutine) :
  work (g :: l) = (remaining (g_pc g) + work l)%nat.
Proof. reflexivity. Qed.

Lemma measure_insert (l : list goroutine) (i : nat) (g : goroutine) (p : go_pc) :
  l !! i = Some g ->
  (work (<[i := set_pc g p]> l) + remaining (g_pc g) = work l + remaining p)%nat.
Proof.
  revert i. induction l as [|a l IH]; intros [|i] H; try discriminate.
  - injection H as ->. change (<[0%nat := set_pc g p]> (g :: l)) with (set_pc g p :: l).
    rewrite !work_cons. cbn [g_pc set_pc]. lia.
  - cbn in H. specialize (IH i H).
    change (<[S i := set_pc g p]> (a :: l)) with (a :: <[i := set_pc g p]> l).
    rewrite !work_cons. lia.
Qed.

(** While a goroutine has not finished, the main goroutine is starting
    goroutines or waiting. *)
Lemma running_main (st : state) (i : nat) (g : goroutine) :
  invariant healthcheck st -> goroutines st !! i = Some g ->
  is_finished (g_pc g) = false -> (exists j, pc st = AtSpawn j) \/ pc st = AtWait.
Proof.
  intros I Hi Hf. apply list_elem_of_lookup_2 in Hi.
  pose proof (inv_finished _ _ I g Hi) as H.
  destruct (pc st); eauto; congruence.
Qed.

(** Every step but the return from [time.Sleep] brings the next sleep
    nearer. *)
Lemma step_measure (st : state) (ev : event) (st' : state) :
  invariant healthcheck st ->
  step healthcheck st ev st' -> pc st <> AtSleep ->
  (measure healthcheck st' < measure healthcheck st)%nat /\
  length (wgs st') = (length (wgs st) + if decide (pc st = AtTop) then 1 else 0)%nat /\
  pc st' <> AtTop.
Proof.
  intros I H Hns. unfold measure.
  destruct H; cbn [pc wgs goroutines locked Sites];
    try (rewrite H; cbn [main_remaining]).
  - rewrite length_app. cbn [length].
    split; [lia|]. split; [destruct (decide _); [lia|congruence]|discriminate].
  - unfold work. rewrite sum_list_with_app. cbn [sum_list_with g_pc remaining].
    apply lookup_lt_Some in H0.
    split; [lia|]. split; [destruct (decide _); [discriminate|lia]|discriminate].
  - split; [lia|]. split; [destruct (decide _); [discriminate|lia]|discriminate].
  - split; [lia|]. split; [destruct (decide _); [discriminate|lia]|discriminate].
  - split; [lia|]. split; [destruct (decide _); [discriminate|lia]|discriminate].
  - congruence.
  - pose proof (measure_insert _ _ _ (Locking success) H) as T.
    rewrite H0 in T. cbn [remaining] in T.
    destruct (running_main st i g I H) as [[j E]|E]; [now rewrite H0|..];
      rewrite E; (split; [lia|]); (split; [|discriminate]);
      destruct (decide _); (discriminate || lia).
  - pose proof (measure_insert _ _ _ (LoadingAttempt success) H) as T.
    rewrite H0 in T. cbn [remaining] in T.
    destruct (running_main st i g I H) as [[j E]|E]; [now rewrite H0|..];
      rewrite E; (split; [lia|]); (split; [|discriminate]);
      destruct (decide _); (discriminate || lia).
  - pose proof (measure_insert _ _ _ (StoringAttempt success (Attempt r)) H) as T.
    rewrite H0 in T. cbn [remaining] in T.
    destruct (running_main st i g I H) as [[j E]|E]; [now rewrite H0|..];
      rewrite E; (split; [lia|]); (split; [|discriminate]);
      destruct (decide _); (discriminate || lia).
  - pose proof (measure_insert _ _ _
                  (if success then LoadingSuccess else Unlocking false) H) as T.
    rewrite H0 in T. cbn [remaining] in T.
    destruct (running_main st i g I H) as [[j E]|E]; [now rewrite H0|..];
      rewrite E; (split; [destruct success; cbn [remaining] in T; lia|]);
      (split; [|discriminate]); destruct (decide _); (discriminate || lia).
  - pose proof (measure_insert _ _ _ (StoringSuccess (Success r)) H) as T.
    rewrite H0 in T. cbn [remaining] in T.
    destruct (running_main st i g I H) as [[j E]|E]; [now rewrite H0|..];
      rewrite E; (split; [lia|]); (split; [|discriminate]);
      destruct (decide _); (discriminate || lia).
  - pose proof (measure_insert _ _ _ (Unlocking true) H) as T.
    rewrite H0 in T. cbn [remaining] in T.
    destruct (running_main st i g I H) as [[j E]|E]; [now rewrite H0|..];
      rewrite E; (split; [lia|]); (split; [|discriminate]);
      destruct (decide _); (discriminate || lia).
  - pose proof (measure_insert _ _ _ (Signalling success) H) as T.
    rewrite H0 in T. cbn [remaining] in T.
    destruct (running_main st i g I H) as [[j E]|E]; [now rewrite H0|..];
      rewrite E; (split; [lia|]); (split; [|discriminate]);
      destruct (decide _); (discriminate || lia).
  - pose proof (measure_insert _ _ _ (Finished success) H) as T.
    rewrite H0 in T. cbn [remaining] in T. rewrite length_insert.
    destruct (running_main st i g I H) as [[j E]|E]; [now rewrite H0|..];
      rewrite E; (split; [lia|]); (split; [|discriminate]);
      destruct (decide _); (discriminate || lia).
Qed.

(** From every state of the invariant the loop can reach its next
    [time.Sleep], without starting another cycle on the way. *)
Lemma run_to_sleep (st : state) :
  invariant healthcheck st ->
  exists evs st',
    steps healthcheck st evs st' /\ pc st' = AtSleep /\
    length (wgs st') = (length (wgs st) + if decide (pc st = AtTop) then 1 else 0)%nat.
Proof.
  remember (measure healthcheck st) as m eqn:Em. revert st Em.
  induction m as [m IH] using lt_wf_ind. intros st Em I.
  destruct (decide (pc st = AtSleep)) as [Hs|Hs].
  - exists [], st. split; [constructor|]. split; [exact Hs|].
    rewrite Hs. destruct (decide _); [discriminate|lia].
  - destruct (invariant_progress st I) as (ev & st1 & Hstep).
    destruct (step_measure st ev st1 I Hstep Hs) as (Hm & Hw & Ht).
    destruct (IH (measure healthcheck st1) ltac:(lia) st1 eq_refl
                 (step_invariant healthcheck st ev st1 I Hstep))
      as (evs & st' & Hsteps & Hpc & Hw').
    exists ([ev] ++ evs), st'. split; [|split; [exact Hpc|]].
    + eapply steps_trans; [apply steps_one, Hstep|exact Hsteps].
    + rewrite Hw', Hw. destruct (decide (pc st1 = AtTop)); [contradiction|lia].
Qed.
End Progress.

(** ** Runs *)

Lemma fire_sound (healthcheck : list HealthCheck) (a : action) (st : state)
    (ev : event) (st' : state) :
  fire healthcheck a st = Some (ev, st') -> step healthcheck st ev st'.
Proof.
  destruct a as [|i net]; cbn [fire].
  - unfold fire_main. destruct (pc st) eqn:Hpc.
    + intros [= <- <-]. now apply step_top.
    + destruct (healthcheck !! i) eqn:Hi; intros [= <- <-].
      * eapply step_spawn; eauto.
      * eapply step_spawned; eauto.
    + destruct (wgs st !! wg st) as [[| |]|] eqn:Hw; try discriminate.
      intros [= <- <-]. now apply step_wait.
    + intros [= <- <-]. now apply step_report.
    + intros [= <- <-]. now apply step_sleep.
  - unfold fire_go. destruct (goroutines st !! i) as [g|] eqn:Hi; [|discriminate].
    cbn. destruct (g_pc g) eqn:Hpc.
    + destruct (check net (g_hc g)) eqn:Hc; [|discriminate].
      intros [= <- <-]. eapply step_probe; eauto.
    + destruct (locked st) eqn:Hl; [discriminate|].
      intros [= <- <-]. eapply step_lock; eauto.
    + destruct (Sites st !! hostname (g_hc g)) eqn:Hr; [|discriminate]. cbn.
      intros [= <- <-]. eapply step_load_attempt; eauto.
    + destruct (Sites st !! hostname (g_hc g)) eqn:Hr; [|discriminate]. cbn.
      intros [= <- <-]. eapply step_store_attempt; eauto.
    + destruct (Sites st !! hostname (g_hc g)) eqn:Hr; [|discriminate]. cbn.
      intros [= <- <-]. eapply step_load_success; eauto.
    + destruct (Sites st !! hostname (g_hc g)) eqn:Hr; [|discriminate]. cbn.
      intros [= <- <-]. eapply step_store_success; eauto.
    + destruct (locked st) eqn:Hl; [|discriminate].
      intros [= <- <-]. eapply step_unlock; eauto.
    + destruct (wgs st !! g_wg g) as [n|] eqn:Hw; [|discriminate]. cbn.
      destruct (Z.ltb_spec 0 n); [|discriminate].
      intros [= <- <-]. eapply step_done; eauto.
    + discriminate.
Qed.

Lemma exec_sound (healthcheck : list HealthCheck) (acts : list action) (st st' : state) :
  exec healthcheck acts st = Some st' -> reachable healthcheck st st'.
Proof.
  revert st. induction acts as [|a acts IH]; intros st.
  - intros [= <-]. exists []. constructor.
  - cbn [exec]. destruct (fire healthcheck a st) as [[ev st1]|] eqn:Hf; [|discriminate].
    intros H. destruct (IH st1 H) as [evs Hs]. exists ([ev] ++ evs).
    eapply steps_trans; [apply steps_one, (fire_sound _ a), Hf|exact Hs].
Qed.

Lemma main_invariant (healthcheck hcs : list HealthCheck) (st0 : state) :
  main healthcheck = Loop hcs st0 -> invariant hcs st0.
Proof.
  intros H. destruct (main_loop _ _ _ H) as (_ & _ & E & Hs).
  rewrite E. apply invariant_initial. exact Hs.
Qed.

Lemma reachable_invariant (healthcheck hcs : list HealthCheck) (st0 st : state) :
  main healthcheck = Loop hcs st0 -> reachable hcs st0 st -> invariant hcs st.
Proof.
  intros H [evs Hs]. eapply steps_invariant; [|exact Hs]. eapply main_invariant, H.
Qed.

Lemma reachable_step (hcs : list HealthCheck) (st0 st : state) (ev : event) (st' : state) :
  reachable hcs st0 st -> step hcs st ev st' -> reachable hcs st0 st'.
Proof. intros [evs Hs] H. exists (evs ++ [ev]). econstructor; eauto. Qed.

Lemma reachable_steps (hcs : list HealthCheck) (st0 st st' : state) (evs : list event) :
  reachable hcs st0 st -> steps hcs st evs st' -> reachable hcs st0 st'.
Proof. intros [evs0 Hs] H. exists (evs0 ++ evs). eapply steps_trans; eauto. Qed.

(** The loop completes any number of cycles. *)
Lemma cycles_exist (healthcheck hcs : list HealthCheck) (st0 : state) (n : nat) :
  main healthcheck = Loop hcs st0 ->
  exists st, reachable hcs st0 st /\ pc st = AtSleep /\ length (wgs st) = S n.
Proof.
  intros Hm. induction n as [|n IH].
  - destruct (run_to_sleep hcs st0 (main_invariant _ _ _ Hm)) as (evs & st & Hs & Hpc & Hw).
    exists st. split; [now exists evs|]. split; [exact Hpc|].
    destruct (main_loop _ _ _ Hm) as (_ & _ & E & _). rewrite E in Hw.
    cbn [initial pc wgs length] in Hw.
    destruct (decide (AtTop = AtTop)); [exact Hw|congruence].
  - destruct IH as (st & Hr & Hpc & Hw).
    pose proof (step_sleep hcs st Hpc) as Hstep.
    set (st1 := mkState (locked st) (Sites st) (wgs st) (goroutines st) AtTop) in *.
    assert (Hr1 : reachable hcs st0 st1) by (eapply reachable_step; eauto).
    destruct (run_to_sleep hcs st1 (reachable_invariant _ _ _ _ Hm Hr1))
      as (evs & st2 & Hs & Hpc2 & Hw2).
    exists st2. split; [eapply reachable_steps; eauto|]. split; [exact Hpc2|].
    unfold st1 in Hw2. cbn [pc wgs] in Hw2.
    destruct (decide (AtTop = AtTop)); [lia|congruence].
Qed.

(** *** The store at the end of a cycle *)

Lemma started_length (hcs : list HealthCheck) (c : nat) :
  length (started hcs c 0) = (c * length hcs)%nat.
Proof.
  unfold started. rewrite take_0, app_nil_r.
  induction c as [|c IH]; [reflexivity|].
  rewrite seq_S, flat_map_app, length_app, IH. cbn.
  rewrite app_nil_r, length_map. lia.
Qed.

Lemma started_hosts (hcs : list HealthCheck) (c : nat) (h : string) :
  sum_list_with (fun t : HealthCheck * nat =>
                   if bool_decide (hostname t.1 = h) then 1%nat else 0%nat)
    (started hcs c 0)
  = (c * occurrences h hcs)%nat.
Proof.
  unfold started. rewrite take_0, app_nil_r.
  induction c as [|c IH]; [reflexivity|].
  rewrite seq_S, flat_map_app, sum_list_with_app, IH. cbn [flat_map Nat.add].
  rewrite app_nil_r.
  assert (E : sum_list_with (fun t : HealthCheck * nat =>
                   if bool_decide (hostname t.1 = h) then 1%nat else 0%nat)
                (map (fun hc => (hc, c)) hcs) = occurrences h hcs).
  { clear IH. unfold occurrences. induction hcs as [|a l IHl]; [reflexivity|].
    cbn. now rewrite IHl. }
  rewrite E. lia.
Qed.

(** When the main goroutine is past [wg.Wait()], every goroutine has
    finished, and the number of attempts of a host is the number of probes
    of that host: no update is lost. *)
Lemma inv_cycles_done (hcs : list HealthCheck) (st : state) :
  invariant hcs st -> pc st = AtReport \/ pc st = AtSleep \/ pc st = AtTop ->
  (forall g, g ∈ goroutines st -> is_finished (g_pc g) = true) /\
  length (goroutines st) = (length (wgs st) * length hcs)%nat /\
  forall h, attempts_of h (goroutines st) = (length (wgs st) * occurrences h hcs)%nat.
Proof.
  intros I Hpc.
  assert (Hf : forall g, g ∈ goroutines st -> is_finished (g_pc g) = true).
  { intros g Hg. pose proof (inv_finished _ _ I g Hg) as H.
    destruct Hpc as [E|[E|E]]; now rewrite E in H. }
  assert (Hs : map tag (goroutines st) = started hcs (length (wgs st)) 0).
  { pose proof (inv_started _ _ I) as H.
    destruct Hpc as [E|[E|E]]; rewrite E in H; tauto. }
  split; [exact Hf|]. split.
  - rewrite <- (length_map tag), Hs. apply started_length.
  - intros h. rewrite <- started_hosts, <- Hs.
    etransitivity;
      [|exact (tally_tags (fun t => bool_decide (hostname t.1 = h)) (goroutines st))].
    apply tally_ext. intros g Hg. specialize (Hf g Hg).
    unfold on_host. destruct (g_pc g); try discriminate Hf. cbn. apply andb_true_r.
Qed.

Lemma occurrences_cons (h : string) (a : HealthCheck) (l : list HealthCheck) :
  occurrences h (a :: l)
  = ((if bool_decide (hostname a = h) then 1 else 0) + occurrences h l)%nat.
Proof. reflexivity. Qed.

Lemma occurrences_pos (h : string) (hcs : list HealthCheck) :
  h ∈ hostnames hcs -> (1 <= occurrences h hcs)%nat.
Proof.
  unfold hostnames. induction hcs as [|a l IH]; intros H; [inversion H|].
  rewrite occurrences_cons. cbn [map] in H. apply elem_of_cons in H as [->|H].
  - rewrite bool_decide_eq_true_2 by reflexivity. lia.
  - specialize (IH H). lia.
Qed.

Lemma occurrences_none (h : string) (hcs : list HealthCheck) :
  h ∉ hostnames hcs -> occurrences h hcs = 0%nat.
Proof.
  unfold hostnames. induction hcs as [|a l IH]; intros H; [reflexivity|].
  rewrite occurrences_cons. cbn [map] in H. apply not_elem_of_cons in H as [Hne H].
  rewrite bool_decide_eq_false_2 by congruence. now rewrite IH.
Qed.

Lemma occurrences_NoDup (h : string) (hcs : list HealthCheck) :
  NoDup (hostnames hcs) -> h ∈ hostnames hcs -> occurrences h hcs = 1%nat.
Proof.
  induction hcs as [|a l IH]; intros Hnd H; [inversion H|].
  rewrite occurrences_cons. unfold hostnames in Hnd, H. cbn [map] in Hnd, H.
  apply NoDup_cons in Hnd as [Hn Hnd]. apply elem_of_cons in H as [->|H].
  - rewrite bool_decide_eq_true_2 by reflexivity.
    now rewrite occurrences_none.
  - rewrite bool_decide_eq_false_2; [now apply IH|]. intros <-. contradiction.
Qed.

(** A map that has exactly the keys of a list without duplicates. *)
Lemma map_of_keys {A : Type} (m : gmap string A) (l : list string) (f : string -> A) :
  NoDup l ->
  (forall h, m !! h = if bool_decide (h ∈ l) then Some (f h) else None) ->
  map_to_list m ≡ₚ map (fun h => (h, f h)) l.
Proof.
  intros Hnd Hm.
  assert (E : m = list_to_map (map (fun h => (h, f h)) l)).
  { apply map_eq. intros h. rewrite Hm. symmetry.
    destruct (bool_decide_reflect (h ∈ l)) as [Hin|Hin].
    - apply elem_of_list_to_map_1.
      + rewrite <- list_fmap_compose. cbn. now rewrite list_fmap_id.
      + apply list_elem_of_fmap. eauto.
    - apply not_elem_of_list_to_map_1. rewrite <- list_fmap_compose. cbn.
      now rewrite list_fmap_id. }
  rewrite E. apply map_to_list_to_map.
  rewrite <- list_fmap_compose. cbn. now rewrite list_fmap_id.
Qed.

(** ** The claims of the specification *)

Import Float64 Float64_facts Uptime_facts.

(** The operations agree with the Standard Library's specification of
    IEEE 754 binary64 on the computation of [Uptime] for 23 successes in 40
    attempts: the product is 57.49999999999999, not 57.5. *)
Example uptime_23_of_40_ieee :
  let q := fdiv (of_Z 23) (of_Z 40) in
  SpecFloat.SFdiv 53 1024 (to_spec (of_Z 23)) (to_spec (of_Z 40)) = to_spec q /\
  SpecFloat.SFmul 53 1024 (to_spec (of_Z 100)) (to_spec q) = to_spec (fmul (of_Z 100) q) /\
  fmul (of_Z 100) q = Fin false 8092405580431359 (-47).
Proof. vm_compute. auto. Qed.

Example counter_saturates_ieee :
  SpecFloat.SFadd 53 1024 (to_spec (of_Z (2 ^ 53))) (to_spec one) = to_spec (of_Z (2 ^ 53)).
Proof. vm_compute. reflexivity. Qed.

(** With counters near 2^53 the two roundings can carry the result over a
    half: 100 * 132734397414325 / 8848959827621667 is below 1.5 and
    [Uptime] is 2. *)
Example uptime_not_nearest :
  let s := 132734397414325%Z in
  let a := 8848959827621667%Z in
  Uptime (mkResult (of_Z a) (of_Z s)) = 2%Z /\ (Z.abs (200 * s - 2 * 2 * a) > a)%Z.
Proof. vm_compute. auto. Qed.

(** C2, as stated, fails: for 23 successes in 40 attempts
    [100 * successes / attempts] is 57.5, which [round] takes to 58 with a
    half going away from zero and with a half going to the even integer,
    and [Uptime] is 57. *)
Lemma uptime_is_not_round :
  Uptime (mkResult (of_Z 40) (of_Z 23)) = 57%Z /\
  uptimePercent round_half_away 23 40 = 58%Z /\
  uptimePercent round_half_even 23 40 = 58%Z.
Proof. vm_compute. auto. Qed.

(** C2, as the code has it.  For counters [0 <= successes <= attempts]
    (at most 2^53, the largest value a counter reaches): [Uptime] is 0 when
    there is no attempt, 100 when every attempt succeeded, and always from 0
    to 100; up to 2^44 attempts it is an integer nearest to
    [100 * successes / attempts], where an exact half may go up or down. *)
Theorem uptime_percent (successes attempts : Z) :
  (0 <= successes <= attempts)%Z -> (attempts <= 2 ^ 53)%Z ->
  let u := Uptime (mkResult (of_Z attempts) (of_Z successes)) in
  (attempts = 0%Z -> u = 0%Z) /\
  (0 < attempts -> successes = attempts -> u = 100)%Z /\
  (0 <= u <= 100)%Z /\
  (0 < attempts <= 2 ^ 44 -> Z.abs (200 * successes - 2 * u * attempts) <= attempts)%Z.
Proof.
  intros Hs Ha u. unfold u. clear u. repeat split.
  - intros ->. now apply Uptime_no_attempt.
  - intros Hp ->. apply Uptime_full. lia.
  - destruct (Z.eq_dec attempts 0%Z) as [->|Hne].
    + rewrite Uptime_no_attempt by reflexivity. lia.
    + apply Uptime_range; lia.
  - destruct (Z.eq_dec attempts 0%Z) as [->|Hne].
    + rewrite Uptime_no_attempt by reflexivity. lia.
    + apply Uptime_range; lia.
  - intros Hb. apply Uptime_nearest; lia.
Qed.

Lemma uptime_percent_witness :
  (0 <= Uptime (mkResult (of_Z 40) (of_Z 23)) <= 100)%Z.
Proof.
  apply (uptime_percent 23 40).
  - vm_compute. split; discriminate.
  - vm_compute. discriminate.
Defined.

Lemma successes_all (h : string) (gs : list goroutine) :
  (forall g, g ∈ gs -> g_pc g = Finished true) ->
  successes_of h gs = attempts_of h gs.
Proof.
  intros H. apply tally_ext. intros g Hg. now rewrite (H g Hg).
Qed.

Lemma successes_le_attempts (h : string) (gs : list goroutine) :
  (successes_of h gs <= attempts_of h gs)%nat.
Proof.
  apply tally_le. intros g Hg. apply andb_true_iff in Hg as [H1 H2].
  rewrite H1. cbn. destruct (g_pc g) as [| | | | | |[]|[]|[]]; try discriminate H2;
    reflexivity.
Qed.

(** C7.  When an entry of the file has no name or no url, [main] prints a
    message and exits with the code -1, and nothing else happens: no event
    of the loop, so no request and no cycle.  When [main] enters the loop,
    no state that it reaches panics, a step is always possible, and a
    goroutine that probes goes on to record the result whatever the
    network does with its request. *)
Theorem config_error_is_fatal (healthcheck : list HealthCheck) :
  (Exists (fun hc => Name hc = "" \/ URL hc = "") healthcheck ->
   exists msg,
     main healthcheck = Exit msg (-1) /\ (-1 <> 0)%Z /\
     forall evs, behaviour (main healthcheck) evs -> evs = []) /\
  (forall hcs st0, main healthcheck = Loop hcs st0 ->
   forall st, reachable hcs st0 st ->
     (forall msg, ~ panics st msg) /\
     (exists ev st', step hcs st ev st') /\
     (forall i g net, goroutines st !! i = Some g -> g_pc g = Probing ->
        exists success,
          check net (g_hc g) = Returns success /\
          step hcs st (EvNet (g_hc g))
            (mkState (locked st) (Sites st) (wgs st)
               (<[i := set_pc g (Locking success)]> (goroutines st)) (pc st)))).
Proof.
  split.
  - intros Hex.
    assert (Hbad : Exists bad_entry healthcheck).
    { apply Exists_exists in Hex as (hc & Hin & H). apply Exists_exists.
      exists hc. split; [exact Hin|]. unfold bad_entry. tauto. }
    apply main_exit in Hbad as (msg & code & E).
    pose proof (startup_exit_code healthcheck msg code E) as ->.
    exists msg. split; [exact E|]. split; [discriminate|].
    intros evs Hb. rewrite E in Hb. now inversion Hb.
  - intros hcs st0 Hm st Hr.
    pose proof (reachable_invariant _ _ _ _ Hm Hr) as I.
    split; [intros msg; now apply (invariant_no_panic hcs)|].
    split; [now apply invariant_progress|].
    intros i g net Hi Hpc. rewrite check_eq. eexists. split; [reflexivity|].
    eapply step_probe; eauto. apply check_eq.
Qed.

Lemma config_error_is_fatal_witness :
  exists msg, main [site "" "http://localhost/"] = Exit msg (-1).
Proof.
  destruct (config_error_is_fatal [site "" "http://localhost/"]) as [H _].
  destruct H as (msg & E & _).
  - left. left. reflexivity.
  - exists msg. exact E.
Defined.

(** C5.  A report is printed only in a state in which every goroutine
    started so far has finished.  In such a state the attempts of every
    host count every probe of that host in every cycle so far.  After the
    first cycle over entries with distinct hostnames in which every probe
    succeeded, the map has one bucket for every entry, each with 1 attempt
    and 1 success, and the report gives 100 for every host. *)
Theorem cycle_without_lost_update (healthcheck hcs : list HealthCheck) (st0 st : state) :
  main healthcheck = Loop hcs st0 -> reachable hcs st0 st ->
  (forall lines st', step hcs st (EvReport lines) st' ->
     pc st = AtReport /\ forall g, g ∈ goroutines st -> is_finished (g_pc g) = true) /\
  (pc st = AtReport ->
   (forall h, h ∈ hostnames hcs ->
      exists r, Sites st !! h = Some r /\
                Attempt r = count (length (wgs st) * occurrences h hcs)) /\
   (length (wgs st) = 1%nat -> NoDup (hostnames hcs) ->
    (forall g, g ∈ goroutines st -> g_pc g = Finished true) ->
    size (Sites st) = length hcs /\
    (forall h, h ∈ hostnames hcs -> Sites st !! h = Some (mkResult (of_Z 1) (of_Z 1))) /\
    Uptime (mkResult (of_Z 1) (of_Z 1)) = 100%Z /\
    forall lines st', step hcs st (EvReport lines) st' ->
      lines ≡ₚ map (fun h => (h, 100%Z)) (hostnames hcs))).
Proof.
  intros Hm Hr. pose proof (reachable_invariant _ _ _ _ Hm Hr) as I.
  assert (Hrep : forall lines st', step hcs st (EvReport lines) st' -> pc st = AtReport).
  { intros lines st' Hs. now inversion Hs. }
  split.
  { intros lines st' Hs. split; [eapply Hrep, Hs|].
    apply (inv_cycles_done hcs st I). left. eapply Hrep, Hs. }
  intros Hpc. destruct (inv_cycles_done hcs st I (or_introl Hpc)) as (Hf & Hl & Ha).
  split.
  { intros h Hh. rewrite (inv_sites _ _ I), bool_decide_eq_true_2 by exact Hh.
    eexists. split; [reflexivity|]. cbn. now rewrite Ha. }
  intros Hw Hnd Hall.
  assert (Hs : forall h, Sites st !! h =
                 if bool_decide (h ∈ hostnames hcs)
                 then Some (mkResult (of_Z 1) (of_Z 1)) else None).
  { intros h. rewrite (inv_sites _ _ I).
    destruct (bool_decide_reflect (h ∈ hostnames hcs)) as [Hh|Hh]; [|reflexivity].
    rewrite (successes_all h _ Hall), Ha, Hw, (occurrences_NoDup h hcs Hnd Hh).
    reflexivity. }
  assert (Hu : Uptime (mkResult (of_Z 1) (of_Z 1)) = 100%Z) by now vm_compute.
  split; [|split; [|split; [exact Hu|]]].
  - rewrite <- length_map_to_list.
    rewrite (map_of_keys (Sites st) (hostnames hcs)
               (fun _ => mkResult (of_Z 1) (of_Z 1)) Hnd Hs).
    unfold hostnames. now rewrite !length_map.
  - intros h Hh. now rewrite Hs, bool_decide_eq_true_2.
  - intros lines st' Hstep. inversion Hstep; subst.
    match goal with H : lines ≡ₚ _ |- _ => rewrite H end.
    apply (map_of_keys (Uptime <$> Sites st) (hostnames hcs) (fun _ => 100%Z) Hnd).
    intros h. rewrite lookup_fmap, Hs.
    destruct (bool_decide (h ∈ hostnames hcs)); [cbn; now rewrite Hu|reflexivity].
Qed.

Lemma cycle_without_lost_update_witness :
  size (Sites two_hosts_done) = 2%nat /\
  forall h, h ∈ ["a.example.com"; "b.example.com"] ->
    Sites two_hosts_done !! h = Some (mkResult (of_Z 1) (of_Z 1)).
Proof.
  destruct (cycle_without_lost_update two_hosts (map resolved two_hosts)
              two_hosts_start two_hosts_done) as [_ H].
  - vm_compute. reflexivity.
  - apply (exec_sound _ interleaved). vm_compute. reflexivity.
  - destruct (H eq_refl) as [_ H2]. destruct H2 as (Hsz & Hb & _).
    + reflexivity.
    + replace (hostnames (map resolved two_hosts))
        with ["a.example.com"; "b.example.com"] by (vm_compute; reflexivity).
      apply NoDup_cons. split; [|apply NoDup_singleton].
      rewrite list_elem_of_singleton. discriminate.
    + intros g Hg. apply list_elem_of_lookup in Hg as [i Hi].
      destruct i as [|[|i]]; cbn in Hi; [now injection Hi as <-..|discriminate].
    + split; [exact Hsz|exact Hb].
Defined.

(** C4.  Two entries whose URLs have the same hostname share one bucket of
    the map: at the report of the first cycle, when [check] returned true
    for one of them and false for the other, the map has that bucket alone,
    with 2 attempts and 1 success, and the report gives 50 for the host. *)
Theorem shared_hostname_aggregates (a b : HealthCheck) (hcs : list HealthCheck)
    (st0 st : state) (sa sb : bool) :
  main [a; b] = Loop hcs st0 -> host_of (URL a) = host_of (URL b) ->
  reachable hcs st0 st -> pc st = AtReport -> length (wgs st) = 1%nat ->
  results st = [(resolved a, sa); (resolved b, sb)] -> sa = negb sb ->
  hostnames hcs = [host_of (URL a); host_of (URL b)] /\
  size (Sites st) = 1%nat /\
  Sites st !! host_of (URL a) = Some (mkResult (of_Z 2) (of_Z 1)) /\
  Uptime (mkResult (of_Z 2) (of_Z 1)) = 50%Z /\
  forall lines st', step hcs st (EvReport lines) st' ->
    lines = [(host_of (URL a), 50%Z)].
Proof.
  intros Hm Hh Hr Hpc Hw Hres Hs.
  pose proof (reachable_invariant _ _ _ _ Hm Hr) as I.
  destruct (main_loop _ _ _ Hm) as (_ & -> & _ & _).
  destruct (inv_cycles_done _ st I (or_introl Hpc)) as (Hf & _ & _).
  set (h := host_of (URL a)) in *.
  assert (Hu : Uptime (mkResult (of_Z 2) (of_Z 1)) = 50%Z) by now vm_compute.
  assert (Hsites : forall k, Sites st !! k =
            if bool_decide (k ∈ [h]) then Some (mkResult (of_Z 2) (of_Z 1)) else None).
  { intros k. rewrite (inv_sites _ _ I). cbn [hostnames map resolved hostname].
    fold h. rewrite <- Hh. fold h.
    unfold results in Hres.
    destruct (goroutines st) as [|g1 [|g2 [|g3 gs]]] eqn:Eg; try discriminate Hres.
    cbn [map] in Hres. injection Hres as E1 S1 E2 S2.
    assert (P1 : g_pc g1 = Finished sa).
    { pose proof (Hf g1 ltac:(left)) as F. destruct (g_pc g1); try discriminate F.
      cbn in S1. congruence. }
    assert (P2 : g_pc g2 = Finished sb).
    { pose proof (Hf g2 ltac:(right; left)) as F. destruct (g_pc g2); try discriminate F.
      cbn in S2. congruence. }
    assert (H1 : hostname (g_hc g1) = h) by now rewrite E1.
    assert (H2 : hostname (g_hc g2) = h) by (rewrite E2; cbn; now rewrite <- Hh).
    destruct (decide (k = h)) as [->|Hk].
    - rewrite !bool_decide_eq_true_2 by (try left; now apply list_elem_of_here).
      unfold attempts_of, successes_of, tally, on_host. cbn [sum_list_with].
      rewrite H1, H2, P1, P2, !bool_decide_eq_true_2 by reflexivity.
      rewrite Hs. destruct sb; reflexivity.
    - rewrite !bool_decide_eq_false_2; [reflexivity|..];
        rewrite ?elem_of_cons, elem_of_nil; tauto. }
  pose proof (map_of_keys (Sites st) [h] (fun _ => mkResult (of_Z 2) (of_Z 1))
                ltac:(apply NoDup_singleton) Hsites) as P.
  split; [reflexivity|]. split; [|split; [|split; [exact Hu|]]].
  - rewrite <- length_map_to_list, P. reflexivity.
  - rewrite Hsites, bool_decide_eq_true_2 by apply list_elem_of_here. reflexivity.
  - intros lines st' Hstep. inversion Hstep; subst.
    apply Permutation_singleton_r.
    match goal with H : lines ≡ₚ _ |- _ => rewrite H end.
    apply (map_of_keys (Uptime <$> Sites st) [h] (fun _ => 50%Z)
             ltac:(apply NoDup_singleton)).
    intros k. rewrite lookup_fmap, Hsites.
    destruct (bool_decide (k ∈ [h])); [cbn; now rewrite Hu|reflexivity].
Qed.

Lemma shared_hostname_aggregates_witness :
  Sites same_host_done !! "a.example.com" = Some (mkResult (of_Z 2) (of_Z 1)) /\
  size (Sites same_host_done) = 1%nat.
Proof.
  destruct (shared_hostname_aggregates
              (site "x" "http://a.example.com/x") (site "y" "http://a.example.com/y")
              (map resolved same_host) same_host_start same_host_done true false)
    as (_ & Hsz & Hb & _).
  - vm_compute. reflexivity.
  - vm_compute. reflexivity.
  - apply (exec_sound _ up_then_down). vm_compute. reflexivity.
  - reflexivity.
  - reflexivity.
  - reflexivity.
  - reflexivity.
  - split; [exact Hb|exact Hsz].
Defined.

(** ** The counters *)

Lemma tally_move_up (f : goroutine -> bool) (gs : list goroutine) (i : nat)
    (g g' : goroutine) :
  gs !! i = Some g -> (f g = true -> f g' = true) ->
  (tally f gs <= tally f (<[i := g']> gs) <= S (tally f gs))%nat.
Proof.
  intros H Hf. pose proof (tally_insert f gs i g g' H) as T.
  destruct (f g); [rewrite Hf in T by reflexivity|destruct (f g')]; lia.
Qed.

(** A step stores at most one attempt and at most one success, and takes
    none back. *)
Lemma step_counts (hcs : list HealthCheck) (st : state) (ev : event) (st' : state)
    (h : string) :
  step hcs st ev st' ->
  (attempts_of h (goroutines st) <= attempts_of h (goroutines st')
   <= S (attempts_of h (goroutines st)))%nat /\
  (successes_of h (goroutines st) <= successes_of h (goroutines st')
   <= S (successes_of h (goroutines st)))%nat.
Proof.
  intros Hstep. unfold attempts_of, successes_of.
  destruct Hstep; cbn [goroutines]; try lia;
    try (rewrite !tally_snoc_quiet by apply andb_false_r; lia);
    (split; (eapply tally_move_up; [eassumption|]);
     cbn [set_pc g_pc g_hc]; unfold on_host; cbn [set_pc g_pc g_hc];
     match goal with E : g_pc _ = _ |- _ => rewrite E end;
     try destruct success; cbn; intros Hx; rewrite ?andb_false_r in Hx;
     try discriminate Hx; rewrite ?andb_true_r in *; assumption).
Qed.

Lemma val_count (n : nat) :
  (val (count n) == inject_Z (Z.min (Z.of_nat n) (2 ^ 53)))%Q.
Proof.
  unfold count. destruct (of_Z_exact (Z.min (Z.of_nat n) (2 ^ 53))) as (m & e & -> & E);
    [lia|]. cbn [val]. now rewrite F2Q_false.
Qed.

Lemma val_count_le (n m : nat) :
  (n <= m <= S n)%nat ->
  (val (count n) <= val (count m) <= val (count n) + 1)%Q.
Proof.
  intros H. rewrite !val_count. change 1%Q with (inject_Z 1).
  rewrite <- inject_Z_plus, <- !Zle_Qle. lia.
Qed.

(** C3, within the reach of a [float64] counter.  [main] enters the loop
    with both counters of every host at zero.  In every state that the loop
    reaches, the map has a bucket for the hostnames of the file and for
    nothing else; the counters of a bucket are the numbers of attempts and
    of successes stored for the host, as far as 2^53, so that
    0 <= successes <= attempts; a step raises each counter by one at most
    and lowers none; and when a cycle is over, the attempts of a host are
    what its entries were probed in the cycles so far: every cycle adds
    one per entry, as long as the sum stays below 2^53. *)
Theorem counters_invariant (healthcheck hcs : list HealthCheck) (st0 : state) :
  main healthcheck = Loop hcs st0 ->
  (forall h, h ∈ hostnames hcs -> Sites st0 !! h = Some (mkResult zero zero)) /\
  forall st, reachable hcs st0 st ->
    (forall h, is_Some (Sites st !! h) <-> h ∈ hostnames hcs) /\
    (forall h r, Sites st !! h = Some r ->
       exists attempts successes : nat,
         (successes <= attempts)%nat /\
         Attempt r = of_Z (Z.min (Z.of_nat attempts) (2 ^ 53)) /\
         Success r = of_Z (Z.min (Z.of_nat successes) (2 ^ 53)) /\
         (0 <= val (Success r) <= val (Attempt r))%Q) /\
    (forall ev st' h r, step hcs st ev st' -> Sites st !! h = Some r ->
       exists r', Sites st' !! h = Some r' /\
         (val (Attempt r) <= val (Attempt r') <= val (Attempt r) + 1)%Q /\
         (val (Success r) <= val (Success r') <= val (Success r) + 1)%Q) /\
    (pc st = AtReport \/ pc st = AtSleep \/ pc st = AtTop ->
     forall h r, Sites st !! h = Some r ->
       let probes := (length (wgs st) * occurrences h hcs)%nat in
       Attempt r = of_Z (Z.min (Z.of_nat probes) (2 ^ 53)) /\
       ((Z.of_nat probes <= 2 ^ 53)%Z ->
        (val (Attempt r) == inject_Z (Z.of_nat probes))%Q)).
Proof.
  intros Hm. split.
  { intros h Hh. destruct (main_loop _ _ _ Hm) as (_ & _ & _ & Hs).
    now rewrite Hs, bool_decide_eq_true_2. }
  intros st Hr. pose proof (reachable_invariant _ _ _ _ Hm Hr) as I.
  assert (Hb : forall s h r, invariant hcs s -> Sites s !! h = Some r ->
            h ∈ hostnames hcs /\
            r = mkResult (count (attempts_of h (goroutines s)))
                         (count (successes_of h (goroutines s)))).
  { intros s h r Is H. rewrite (inv_sites _ _ Is) in H.
    destruct (bool_decide_reflect (h ∈ hostnames hcs)); [|discriminate].
    injection H as <-. now split. }
  split; [|split; [|split]].
  - intros h. rewrite (inv_sites _ _ I).
    destruct (bool_decide_reflect (h ∈ hostnames hcs)) as [Hh|Hh].
    + split; [tauto|eauto].
    + split; [intros [x Hx]; discriminate|tauto].
  - intros h r H. destruct (Hb st h r I H) as [_ ->].
    exists (attempts_of h (goroutines st)), (successes_of h (goroutines st)).
    pose proof (successes_le_attempts h (goroutines st)) as Hle.
    split; [exact Hle|]. split; [reflexivity|]. split; [reflexivity|].
    cbn [Attempt Success]. rewrite !val_count. change 0%Q with (inject_Z 0).
    rewrite <- !Zle_Qle. lia.
  - intros ev st' h r Hstep H. destruct (Hb st h r I H) as [Hh ->].
    pose proof (step_invariant hcs st ev st' I Hstep) as I'.
    eexists. split; [rewrite (inv_sites _ _ I'), bool_decide_eq_true_2 by exact Hh;
                     reflexivity|].
    destruct (step_counts hcs st ev st' h Hstep) as [Ha Hs].
    cbn [Attempt Success]. split; apply val_count_le; assumption.
  - intros Hpc h r H probes. destruct (Hb st h r I H) as [_ ->].
    destruct (inv_cycles_done hcs st I Hpc) as (_ & _ & Ha).
    cbn [Attempt]. rewrite Ha. fold probes. split; [reflexivity|].
    intros Hp. fold (count probes). rewrite val_count, Z.min_l by exact Hp. reflexivity.
Qed.

Lemma counters_invariant_witness :
  Sites two_hosts_start !! "a.example.com" = Some (mkResult zero zero) /\
  is_Some (Sites two_hosts_done !! "b.example.com").
Proof.
  destruct (counters_invariant two_hosts (map resolved two_hosts) two_hosts_start)
    as [H0 H].
  - vm_compute. reflexivity.
  - split.
    + apply H0. vm_compute. left.
    + destruct (H two_hosts_done) as (Hk & _).
      * apply (exec_sound _ interleaved). vm_compute. reflexivity.
      * apply Hk. vm_compute. right. left.
Defined.

(** From one [time.Sleep] the loop reaches the next: one more cycle. *)
Lemma next_cycle (healthcheck hcs : list HealthCheck) (st0 st : state) :
  main healthcheck = Loop hcs st0 -> reachable hcs st0 st -> pc st = AtSleep ->
  exists evs st',
    steps hcs st evs st' /\ pc st' = AtSleep /\
    length (wgs st') = S (length (wgs st)).
Proof.
  intros Hm Hr Hpc. pose proof (step_sleep hcs st Hpc) as Hstep.
  set (st1 := mkState (locked st) (Sites st) (wgs st) (goroutines st) AtTop) in *.
  assert (Hr1 : reachable hcs st0 st1) by (eapply reachable_step; eauto).
  destruct (run_to_sleep hcs st1 (reachable_invariant _ _ _ _ Hm Hr1))
    as (evs & st2 & Hs & Hpc2 & Hw2).
  exists ([EvSleep (outputTimeout * http.Second)] ++ evs), st2.
  split; [eapply steps_trans; [apply steps_one, Hstep|exact Hs]|].
  split; [exact Hpc2|].
  unfold st1 in Hw2. cbn [pc wgs] in Hw2.
  destruct (decide (AtTop = AtTop)); [lia|congruence].
Qed.

(** C3, as stated, fails: after 2^53 cycles over a file with one entry the
    attempts of its host are 2^53, and the next cycle, in which the entry
    is probed once more, leaves them at 2^53. *)
Lemma attempts_saturate :
  exists hcs st0 st evs st' r r',
    main one_host = Loop hcs st0 /\
    reachable hcs st0 st /\ pc st = AtSleep /\
    steps hcs st evs st' /\ pc st' = AtSleep /\
    length (wgs st') = S (length (wgs st)) /\
    length (goroutines st') = S (length (goroutines st)) /\
    Sites st !! "localhost" = Some r /\ Sites st' !! "localhost" = Some r' /\
    Attempt r = of_Z (2 ^ 53) /\ Attempt r' = of_Z (2 ^ 53).
Proof.
  assert (Hm : main one_host = Loop (map resolved one_host) one_host_start)
    by (vm_compute; reflexivity).
  assert (Ho : occurrences "localhost" (map resolved one_host) = 1%nat)
    by (vm_compute; reflexivity).
  assert (Hin : "localhost" ∈ hostnames (map resolved one_host))
    by (vm_compute; left).
  assert (Hl : length (map resolved one_host) = 1%nat) by reflexivity.
  remember (map resolved one_host) as hcs eqn:Eh. clear Eh.
  remember (Z.to_nat (2 ^ 53 - 1)) as n eqn:En.
  assert (Hn : Z.of_nat n = (2 ^ 53 - 1)%Z) by (subst n; apply Z2Nat.id; lia).
  clear En.
  destruct (cycles_exist one_host hcs one_host_start n Hm) as (st & Hr & Hpc & Hw).
  destruct (next_cycle one_host hcs one_host_start st Hm Hr Hpc)
    as (evs & st' & Hs & Hpc' & Hw').
  pose proof (reachable_invariant _ _ _ _ Hm Hr) as I.
  pose proof (reachable_invariant _ _ _ _ Hm (reachable_steps _ _ _ _ _ Hr Hs)) as I'.
  destruct (inv_cycles_done hcs st I (or_intror (or_introl Hpc))) as (_ & Hg & Ha).
  destruct (inv_cycles_done hcs st' I' (or_intror (or_introl Hpc'))) as (_ & Hg' & Ha').
  exists hcs, one_host_start, st, evs, st'.
  eexists. eexists.
  split; [exact Hm|]. split; [exact Hr|]. split; [exact Hpc|]. split; [exact Hs|].
  split; [exact Hpc'|]. split; [exact Hw'|].
  split; [rewrite Hg, Hg', Hw', Hl; lia|].
  split; [rewrite (inv_sites _ _ I), bool_decide_eq_true_2 by exact Hin; reflexivity|].
  split; [rewrite (inv_sites _ _ I'), bool_decide_eq_true_2 by exact Hin; reflexivity|].
  cbn [Attempt]. rewrite Ha, Ha', Ho, Hw', Hw, !Nat.mul_1_r. unfold count.
  split; f_equal; lia.
Qed.

(** ** The sequential variant and the concurrent one *)

Lemma wrap_small (n : Z) : (- 2 ^ 63 <= n < 2 ^ 63)%Z -> Sequential.wrap n = n.
Proof. intros H. unfold Sequential.wrap. rewrite Z.mod_small; lia. Qed.

Lemma bucket_count (c s : Z) : bucket c s !! "count" = Some c.
Proof. unfold bucket. apply lookup_insert_eq. Qed.

Lemma bucket_success (c s : Z) : bucket c s !! "success" = Some s.
Proof. unfold bucket. rewrite lookup_insert_ne by discriminate. apply lookup_insert_eq. Qed.

Lemma incr_count (c s : Z) :
  Sequential.incr "count" (bucket c s) = bucket (Sequential.wrap (c + 1)) s.
Proof.
  unfold Sequential.incr. rewrite bucket_count. cbn [default].
  unfold bucket. apply insert_insert_eq.
Qed.

Lemma incr_success (c s : Z) :
  Sequential.incr "success" (bucket c s) = bucket c (Sequential.wrap (s + 1)).
Proof.
  unfold Sequential.incr. rewrite bucket_success. cbn [default].
  unfold bucket. rewrite insert_insert_ne by discriminate.
  now rewrite insert_insert_eq.
Qed.

Lemma fresh_bucket : Sequential.fresh = bucket 0 0.
Proof. reflexivity. Qed.

(** One probe recorded by the sequential variant. *)
Lemma record_tracks (status : gmap string (gmap string Z)) (hosts : list string)
    (cnt suc : string -> Z) (hc : HealthCheck) (b : bool) :
  tracks status hosts cnt suc -> hostname hc ∈ hosts ->
  (- 2 ^ 63 <= cnt (hostname hc) + 1 < 2 ^ 63)%Z ->
  (- 2 ^ 63 <= suc (hostname hc) + 1 < 2 ^ 63)%Z ->
  exists status',
    Sequential.record status (hc, b) = Returns status' /\
    tracks status' hosts
      (fun h => (cnt h + if bool_decide (hostname hc = h) then 1 else 0)%Z)
      (fun h => (suc h + if bool_decide (hostname hc = h) && b then 1 else 0)%Z).
Proof.
  intros T Hin Hc Hs. unfold Sequential.record. cbn [fst snd].
  rewrite (T (hostname hc)), bool_decide_eq_true_2 by exact Hin.
  eexists. split; [reflexivity|]. intros h.
  destruct (decide (hostname hc = h)) as [<-|Hne].
  - rewrite lookup_insert_eq, !bool_decide_eq_true_2 by (exact Hin || reflexivity).
    f_equal. rewrite incr_count, wrap_small by exact Hc.
    destruct b; [rewrite incr_success, wrap_small by exact Hs|];
      cbn [andb]; f_equal; lia.
  - rewrite lookup_insert_ne by exact Hne. rewrite (T h).
    rewrite (bool_decide_eq_false_2 (hostname hc = h)) by exact Hne.
    cbn [andb]. now rewrite !Z.add_0_r.
Qed.

Lemma probed_le (h : string) (rs : list (HealthCheck * bool)) :
  (succeeded h rs <= probed h rs <= length rs)%nat.
Proof.
  induction rs as [|[hc b] rs IH]; [cbn; lia|].
  unfold succeeded, probed in *. cbn [sum_list_with length fst snd].
  destruct (bool_decide (hostname hc = h)), b; cbn [andb]; lia.
Qed.

(** The probes of any number of cycles recorded by the sequential variant:
    as long as no counter leaves the range of [int], every bucket counts
    the probes of its host and the successful ones. *)
Lemma probes_tracks (rs : list (HealthCheck * bool))
    (status : gmap string (gmap string Z)) (hosts : list string)
    (cnt suc : string -> Z) :
  tracks status hosts cnt suc ->
  (forall p, p ∈ rs -> hostname p.1 ∈ hosts) ->
  (forall h, 0 <= suc h <= cnt h)%Z ->
  (forall h, cnt h + Z.of_nat (probed h rs) < 2 ^ 63)%Z ->
  exists status',
    Sequential.probes rs status = Returns status' /\
    tracks status' hosts (fun h => (cnt h + Z.of_nat (probed h rs))%Z)
      (fun h => (suc h + Z.of_nat (succeeded h rs))%Z).
Proof.
  revert status cnt suc. induction rs as [|[hc b] rs IH]; intros status cnt suc T Hin Hle Hb.
  - exists status. split; [reflexivity|]. intros h. rewrite (T h). cbn.
    now rewrite !Z.add_0_r.
  - assert (Hp : forall h, Z.of_nat (probed h ((hc, b) :: rs))
                 = ((if bool_decide (hostname hc = h) then 1 else 0)
                    + Z.of_nat (probed h rs))%Z).
    { intros h. unfold probed. cbn [sum_list_with fst].
      destruct (bool_decide (hostname hc = h)); lia. }
    assert (Hq : forall h, Z.of_nat (succeeded h ((hc, b) :: rs))
                 = ((if bool_decide (hostname hc = h) && b then 1 else 0)
                    + Z.of_nat (succeeded h rs))%Z).
    { intros h. unfold succeeded. cbn [sum_list_with fst snd].
      destruct (bool_decide (hostname hc = h) && b); lia. }
    pose proof (Hb (hostname hc)) as Hb1. rewrite Hp in Hb1.
    rewrite bool_decide_eq_true_2 in Hb1 by reflexivity.
    pose proof (Hle (hostname hc)) as Hle1.
    destruct (record_tracks status hosts cnt suc hc b T) as (status1 & E1 & T1);
      [apply (Hin (hc, b)); now left|lia|lia|].
    destruct (IH status1 _ _ T1) as (status2 & E2 & T2).
    + intros p Hp'. apply Hin. now right.
    + intros h. specialize (Hle h).
      destruct (bool_decide (hostname hc = h)), b; cbn [andb]; lia.
    + intros h. specialize (Hb h). rewrite Hp in Hb. lia.
    + exists status2. split.
      * cbn [Sequential.probes]. rewrite E1. exact E2.
      * intros h. rewrite (T2 h), Hp, Hq.
        destruct (bool_decide (h ∈ hosts)); [|reflexivity].
        do 2 f_equal; lia.
Qed.

(** The sanity checks of the two variants accept the same files, with the
    same message when they do not, and give the same entries. *)
Lemma sequential_sanity_checks (todo done : list HealthCheck)
    (sites : gmap string Result) (status : gmap string (gmap string Z)) :
  match sanity_checks todo done sites, Sequential.sanity_checks todo done status with
  | inl msg, inl msg' => msg = msg'
  | inr (hcs, _), inr (hcs', status') =>
      hcs = hcs' /\
      forall h, status' !! h =
        if bool_decide (h ∈ hostnames (map resolved todo))
        then Some (bucket 0 0) else status !! h
  | _, _ => False
  end.
Proof.
  revert done sites status. induction todo as [|hc todo IH]; intros done sites status.
  - cbn. split; [reflexivity|]. intros h.
    rewrite bool_decide_eq_false_2; [reflexivity|]. intros H. inversion H.
  - cbn [sanity_checks Sequential.sanity_checks].
    destruct (String.eqb (Name hc) ""); [reflexivity|].
    destruct (String.eqb (URL hc) ""); [reflexivity|].
    destruct (url.Parse (URL hc)) as [u|e] eqn:Ep; [|reflexivity].
    assert (Eh : url.Hostname u = host_of (URL hc)) by (unfold host_of; now rewrite Ep).
    specialize (IH (done ++ [mkHealthCheck (Body hc) (Headers hc) (Method hc) (Name hc)
                               (URL hc) (url.Hostname u)])
                  (<[url.Hostname u := mkResult zero zero]> sites)
                  (<[url.Hostname u := Sequential.fresh]> status)).
    destruct (sanity_checks todo _ _) as [m|[hcs s]],
             (Sequential.sanity_checks todo _ _) as [m'|[hcs' s']]; try exact IH.
    destruct IH as [-> Hs]. split; [reflexivity|]. intros h. rewrite Hs.
    cbn [map hostnames]. fold (hostnames (map resolved todo)).
    destruct (bool_decide_reflect (h ∈ hostnames (map resolved todo))) as [Hin|Hin].
    + rewrite bool_decide_eq_true_2; [reflexivity|]. now right.
    + rewrite Eh. cbn [resolved hostname].
      destruct (decide (h = host_of (URL hc))) as [->|Hne].
      * rewrite lookup_insert_eq, bool_decide_eq_true_2; [reflexivity|]. now left.
      * rewrite lookup_insert_ne by congruence.
        rewrite bool_decide_eq_false_2; [reflexivity|].
        intros H. apply elem_of_cons in H as [?|?]; contradiction.
Qed.

Lemma sequential_main (healthcheck hcs : list HealthCheck) (st0 : state) :
  main healthcheck = Loop hcs st0 ->
  exists status0,
    Sequential.main healthcheck = Sequential.Loop hcs status0 /\
    tracks status0 (hostnames hcs) (fun _ => 0%Z) (fun _ => 0%Z).
Proof.
  intros Hm. destruct (main_loop _ _ _ Hm) as (_ & Eh & _ & _).
  unfold main in Hm. unfold Sequential.main.
  pose proof (sequential_sanity_checks healthcheck [] ∅ ∅) as H.
  destruct (sanity_checks healthcheck [] ∅) as [m|[hcs1 s]]; [discriminate|].
  injection Hm as -> _.
  destruct (Sequential.sanity_checks healthcheck [] ∅) as [m'|[hcs' s']]; [contradiction|].
  destruct H as [<- Hs]. exists s'. split; [reflexivity|].
  intros h. rewrite Hs, <- Eh. now rewrite lookup_empty.
Qed.

Lemma length_results (st : state) : length (results st) = length (goroutines st).
Proof. unfold results. apply length_map. Qed.

(** What the goroutines of finished cycles recorded is what their probes
    returned. *)
Lemma results_finished (h : string) (gs : list goroutine) :
  (forall g, g ∈ gs -> is_finished (g_pc g) = true) ->
  probed h (map (fun g => (g_hc g, default false (success_of (g_pc g)))) gs)
    = attempts_of h gs /\
  succeeded h (map (fun g => (g_hc g, default false (success_of (g_pc g)))) gs)
    = successes_of h gs.
Proof.
  unfold probed, succeeded, attempts_of, successes_of, tally, on_host.
  induction gs as [|g gs IH]; intros Hf; [split; reflexivity|].
  destruct IH as [IH1 IH2]; [intros g' Hg'; apply Hf; now right|].
  cbn [map sum_list_with fst snd]. rewrite IH1, IH2.
  pose proof (Hf g ltac:(left)) as F.
  destruct (g_pc g) as [| | | | | | | |[]]; try discriminate F;
    cbn; rewrite ?andb_true_r, ?andb_false_r; split; reflexivity.
Qed.

Lemma feqb_of_Z_pos (n : Z) : (0 < n <= 2 ^ 53)%Z -> feqb (of_Z n) (of_Z 0) = false.
Proof.
  intros Hn. destruct (of_Z_fin n Hn) as (m & e & -> & _ & E).
  rewrite of_Z_0. cbn [feqb]. apply not_true_is_false. intros H.
  apply Qeq_bool_eq in H. rewrite E in H.
  assert (E0 : (F2Q false 0 0 == inject_Z 0)%Q) by reflexivity.
  rewrite E0 in H. unfold Qeq in H. cbn in H. lia.
Qed.

Lemma uptime_bucket (c s : Z) :
  (0 < c <= 2 ^ 53)%Z ->
  Sequential.uptime (bucket c s) = Uptime (mkResult (of_Z c) (of_Z s)).
Proof.
  intros Hc. unfold Sequential.uptime, Uptime.
  rewrite bucket_count, bucket_success. cbn [default Attempt Success].
  now rewrite feqb_of_Z_pos.
Qed.

(** C9, within the reach of a [float64] counter.  The two variants accept
    the same files.  When a cycle of the concurrent variant is over and it
    has made no more than 2^53 probes, the sequential variant, recording
    the same results of the same probes, does not panic and holds the same
    counters for every host: its [int]s are the numbers that the
    [float64]s of the concurrent variant hold; and the two print the same
    uptime for every host. *)
Theorem variants_agree (healthcheck hcs : list HealthCheck) (st0 st : state) :
  main healthcheck = Loop hcs st0 -> reachable hcs st0 st ->
  pc st = AtReport \/ pc st = AtSleep ->
  (Z.of_nat (length (goroutines st)) <= 2 ^ 53)%Z ->
  exists status0 status,
    Sequential.main healthcheck = Sequential.Loop hcs status0 /\
    Sequential.probes (results st) status0 = Returns status /\
    (forall h, h ∈ hostnames hcs ->
       exists r m count success,
         Sites st !! h = Some r /\ status !! h = Some m /\
         m !! "count" = Some count /\ m !! "success" = Some success /\
         (0 <= success <= count)%Z /\ (0 < count)%Z /\
         Attempt r = of_Z count /\ (val (Attempt r) == inject_Z count)%Q /\
         Success r = of_Z success /\ (val (Success r) == inject_Z success)%Q /\
         Uptime r = Sequential.uptime m) /\
    (forall h, h ∉ hostnames hcs -> Sites st !! h = None /\ status !! h = None) /\
    Uptime <$> Sites st = Sequential.report status.
Proof.
  intros Hm Hr Hpc Hn.
  pose proof (reachable_invariant _ _ _ _ Hm Hr) as I.
  destruct (sequential_main _ _ _ Hm) as (status0 & Es & T0).
  assert (Hpc' : pc st = AtReport \/ pc st = AtSleep \/ pc st = AtTop) by tauto.
  destruct (inv_cycles_done hcs st I Hpc') as (Hf & Hl & Ha).
  assert (Hw : (0 < length (wgs st))%nat).
  { pose proof (inv_started _ _ I) as H. destruct Hpc as [E|E]; rewrite E in H; tauto. }
  destruct (probes_tracks (results st) status0 (hostnames hcs) _ _ T0)
    as (status & Ep & T).
  { intros p Hp. unfold results in Hp. apply list_elem_of_fmap in Hp as (g & -> & Hg).
    cbn [fst]. destruct (inv_goroutine hcs st g I Hg) as [Hin _].
    unfold hostnames. apply list_elem_of_fmap. eauto. }
  { intros h. lia. }
  { intros h. pose proof (probed_le h (results st)) as P.
    rewrite length_results in P. lia. }
  assert (Hc : forall h, (Z.of_nat (successes_of h (goroutines st))
                          <= Z.of_nat (attempts_of h (goroutines st)) <= 2 ^ 53)%Z).
  { intros h. pose proof (successes_le_attempts h (goroutines st)).
    destruct (results_finished h (goroutines st) Hf) as [E1 _].
    pose proof (probed_le h (results st)) as P. fold (results st) in E1.
    rewrite E1, length_results in P. lia. }
  assert (Hcount : forall n : nat, (Z.of_nat n <= 2 ^ 53)%Z -> count n = of_Z (Z.of_nat n)).
  { intros n Hle. unfold count. now rewrite Z.min_l. }
  assert (Hbucket : forall h, h ∈ hostnames hcs ->
            Sites st !! h = Some (mkResult (of_Z (Z.of_nat (attempts_of h (goroutines st))))
                                   (of_Z (Z.of_nat (successes_of h (goroutines st))))) /\
            status !! h = Some (bucket (Z.of_nat (attempts_of h (goroutines st)))
                                  (Z.of_nat (successes_of h (goroutines st)))) /\
            (0 < Z.of_nat (attempts_of h (goroutines st)))%Z).
  { intros h Hh. destruct (results_finished h (goroutines st) Hf) as [E1 E2].
    fold (results st) in E1, E2. specialize (Hc h). split; [|split].
    - rewrite (inv_sites _ _ I), bool_decide_eq_true_2 by exact Hh.
      rewrite !Hcount by lia. reflexivity.
    - rewrite (T h), bool_decide_eq_true_2 by exact Hh. now rewrite E1, E2.
    - rewrite Ha. pose proof (occurrences_pos h hcs Hh). nia. }
  exists status0, status. split; [exact Es|]. split; [exact Ep|].
  split; [|split].
  - intros h Hh. destruct (Hbucket h Hh) as (E1 & E2 & Hpos). specialize (Hc h).
    eexists _, _, _, _. split; [exact E1|]. split; [exact E2|].
    split; [apply bucket_count|]. split; [apply bucket_success|].
    split; [lia|]. split; [exact Hpos|]. cbn [Attempt Success].
    split; [reflexivity|]. split.
    { rewrite <- Hcount, val_count, Z.min_l by lia. reflexivity. }
    split; [reflexivity|]. split.
    { rewrite <- Hcount, val_count, Z.min_l by lia. reflexivity. }
    symmetry. apply uptime_bucket. lia.
  - intros h Hh. split.
    + now rewrite (inv_sites _ _ I), bool_decide_eq_false_2.
    + now rewrite (T h), bool_decide_eq_false_2.
  - apply map_eq. intros h. unfold Sequential.report. rewrite !lookup_fmap.
    destruct (decide (h ∈ hostnames hcs)) as [Hh|Hh].
    + destruct (Hbucket h Hh) as (E1 & E2 & Hpos). specialize (Hc h).
      rewrite E1, E2. cbn. f_equal. symmetry. apply uptime_bucket. lia.
    + rewrite (inv_sites _ _ I), (T h), !bool_decide_eq_false_2 by exact Hh.
      reflexivity.
Qed.

Lemma variants_agree_witness :
  exists status0 status,
    Sequential.main two_hosts = Sequential.Loop (map resolved two_hosts) status0 /\
    Sequential.probes (results two_hosts_done) status0 = Returns status /\
    Uptime <$> Sites two_hosts_done = Sequential.report status.
Proof.
  destruct (variants_agree two_hosts (map resolved two_hosts) two_hosts_start
              two_hosts_done) as (status0 & status & H1 & H2 & _ & _ & H3).
  - vm_compute. reflexivity.
  - apply (exec_sound _ interleaved). vm_compute. reflexivity.
  - left. reflexivity.
  - vm_compute. discriminate.
  - exists status0, status. split; [exact H1|]. split; [exact H2|exact H3].
Defined.

(** C9, as stated, fails: after 2^53 + 1 cycles over a file with one entry
    the sequential variant has counted 2^53 + 1 probes of the host, and the
    concurrent variant holds 2^53. *)
Lemma variants_differ :
  exists hcs st0 st status0 status r m,
    main one_host = Loop hcs st0 /\
    Sequential.main one_host = Sequential.Loop hcs status0 /\
    reachable hcs st0 st /\ pc st = AtSleep /\
    Z.of_nat (length (wgs st)) = (2 ^ 53 + 1)%Z /\
    Sequential.probes (results st) status0 = Returns status /\
    status !! "localhost" = Some m /\ Sites st !! "localhost" = Some r /\
    m !! "count" = Some (2 ^ 53 + 1)%Z /\
    (val (Attempt r) == inject_Z (2 ^ 53))%Q /\
    ~ (val (Attempt r) == inject_Z (2 ^ 53 + 1))%Q.
Proof.
  assert (Hm : main one_host = Loop (map resolved one_host) one_host_start)
    by (vm_compute; reflexivity).
  assert (Ho : occurrences "localhost" (map resolved one_host) = 1%nat)
    by (vm_compute; reflexivity).
  assert (Hin : "localhost" ∈ hostnames (map resolved one_host))
    by (vm_compute; left).
  assert (Hl : length (map resolved one_host) = 1%nat) by reflexivity.
  remember (map resolved one_host) as hcs eqn:Eh. clear Eh.
  remember (Z.to_nat (2 ^ 53)) as n eqn:En.
  assert (Hn : Z.of_nat n = (2 ^ 53)%Z) by (subst n; apply Z2Nat.id; lia).
  clear En.
  destruct (cycles_exist one_host hcs one_host_start n Hm) as (st & Hr & Hpc & Hw).
  pose proof (reachable_invariant _ _ _ _ Hm Hr) as I.
  destruct (inv_cycles_done hcs st I (or_intror (or_introl Hpc))) as (Hf & Hg & Ha).
  destruct (sequential_main _ _ _ Hm) as (status0 & Es & T0).
  destruct (probes_tracks (results st) status0 (hostnames hcs) _ _ T0)
    as (status & Ep & T).
  { intros p Hp. unfold results in Hp. apply list_elem_of_fmap in Hp as (g & -> & Hg').
    cbn [fst]. destruct (inv_goroutine hcs st g I Hg') as [Hin' _].
    unfold hostnames. apply list_elem_of_fmap. eauto. }
  { intros h. lia. }
  { intros h. pose proof (probed_le h (results st)) as P.
    rewrite length_results, Hg, Hw, Hl in P. lia. }
  destruct (results_finished "localhost" (goroutines st) Hf) as [E1 _].
  fold (results st) in E1.
  assert (Hp : Z.of_nat (probed "localhost" (results st)) = (2 ^ 53 + 1)%Z).
  { rewrite E1, Ha, Ho, Hw. lia. }
  exists hcs, one_host_start, st, status0, status. eexists. eexists.
  split; [exact Hm|]. split; [exact Es|]. split; [exact Hr|]. split; [exact Hpc|].
  split; [rewrite Hw; lia|]. split; [exact Ep|].
  split; [rewrite (T "localhost"), bool_decide_eq_true_2 by exact Hin; reflexivity|].
  split; [rewrite (inv_sites _ _ I), bool_decide_eq_true_2 by exact Hin; reflexivity|].
  split; [rewrite bucket_count; f_equal; exact Hp|].
  cbn [Attempt]. rewrite val_count, Ha, Ho, Hw.
  assert (E : Z.min (Z.of_nat (S n * 1)) (2 ^ 53) = (2 ^ 53)%Z) by lia.
  rewrite E. split; [reflexivity|].
  intros H. unfold Qeq in H. cbn in H. lia.
Qed.

(** ** Further properties of the polling loop *)

(** X1.  At most one goroutine is between [status.lock.Lock()] and
    [status.lock.Unlock()], and the mutex is locked exactly when one is. *)
Theorem mutual_exclusion (healthcheck hcs : list HealthCheck) (st0 st : state) :
  main healthcheck = Loop hcs st0 -> reachable hcs st0 st ->
  (forall i j g g',
     goroutines st !! i = Some g -> goroutines st !! j = Some g' ->
     in_section (g_pc g) = true -> in_section (g_pc g') = true -> i = j) /\
  (locked st = true <->
   exists i g, goroutines st !! i = Some g /\ in_section (g_pc g) = true).
Proof.
  intros Hm Hr. pose proof (reachable_invariant _ _ _ _ Hm Hr) as I. split.
  - intros i j g g'. apply (inv_exclusion hcs st i j g g' I).
  - split.
    + intros Hl. apply tally_exists. rewrite (inv_lock _ _ I), Hl. lia.
    + intros (i & g & Hi & Hs). exact (inv_section_locked hcs st i g I Hi Hs).
Qed.

Lemma mutual_exclusion_witness : locked two_hosts_midway = true.
Proof.
  destruct (mutual_exclusion two_hosts (map resolved two_hosts) two_hosts_start
              two_hosts_midway) as [_ H].
  - vm_compute. reflexivity.
  - apply (exec_sound _ (take 8 interleaved)). vm_compute. reflexivity.
  - apply H. exists 0%nat. eexists. split; vm_compute; reflexivity.
Defined.

(** X3.  The counter of the WaitGroup of a cycle is the number of goroutines of
    the cycle that have not called [wg.Done()]: it stays between 0 and the
    number of entries, and it is 0 for every earlier cycle and whenever the
    main goroutine is past [wg.Wait()]. *)
Theorem waitgroup_counters (healthcheck hcs : list HealthCheck) (st0 st : state)
    (k : nat) (n : Z) :
  main healthcheck = Loop hcs st0 -> reachable hcs st0 st ->
  wgs st !! k = Some n ->
  n = (Z.of_nat (length hcs) - Z.of_nat (finished_of k (goroutines st)))%Z /\
  (0 <= n <= Z.of_nat (length hcs))%Z /\
  ((S k < length (wgs st))%nat \/ pc st = AtReport \/ pc st = AtSleep \/ pc st = AtTop ->
   n = 0%Z).
Proof.
  intros Hm Hr Hk. pose proof (reachable_invariant _ _ _ _ Hm Hr) as I.
  pose proof (inv_wgs _ _ I k n Hk) as Hn.
  pose proof (inv_spawned_le hcs st k I) as Hle.
  assert (Hf : (finished_of k (goroutines st)
                <= tally (fun g => bool_decide (g_wg g = k)) (goroutines st))%nat).
  { apply tally_le. intros g Hg. now apply andb_true_iff in Hg as [Hg _]. }
  split; [exact Hn|]. split; [lia|].
  intros Hc.
  assert (E : finished_of k (goroutines st)
              = tally (fun g => bool_decide (g_wg g = k)) (goroutines st)).
  { apply tally_ext. intros g Hg. pose proof (inv_finished _ _ I g Hg) as F.
    destruct (bool_decide_reflect (g_wg g = k)) as [Ek|]; [|reflexivity].
    cbn [andb]. destruct Hc as [Hc|[Hc|[Hc|Hc]]]; try (rewrite Hc in F; exact F).
    destruct (pc st); try exact F; apply F; lia. }
  rewrite E, (inv_spawned hcs st k I) in Hn.
  - lia.
  - eapply lookup_lt_Some, Hk.
  - intros i Hi. destruct Hc as [Hc|[Hc|[Hc|Hc]]]; [exact Hc|congruence..].
Qed.

Lemma waitgroup_counters_witness : wgs two_hosts_midway !! 0%nat = Some 2%Z.
Proof.
  destruct (waitgroup_counters two_hosts (map resolved two_hosts) two_hosts_start
              two_hosts_midway 0 2) as (H & _ & _).
  - vm_compute. reflexivity.
  - apply (exec_sound _ (take 8 interleaved)). vm_compute. reflexivity.
  - vm_compute. reflexivity.
  - vm_compute. reflexivity.
Defined.

(** During [time.Sleep] nothing else happens: every goroutine has
    finished. *)
Lemma sleeping (hcs : list HealthCheck) (st : state) (ev : event) (st' : state) :
  invariant hcs st -> pc st = AtSleep -> step hcs st ev st' ->
  ev = EvSleep (outputTimeout * http.Second) /\ pc st' = AtTop.
Proof.
  intros I Hpc Hstep.
  assert (Hg : forall i g, goroutines st !! i = Some g -> is_finished (g_pc g) = true).
  { intros i g Hi. apply list_elem_of_lookup_2 in Hi.
    pose proof (inv_finished _ _ I g Hi) as F. now rewrite Hpc in F. }
  destruct Hstep; try congruence; try (split; reflexivity);
    match goal with
    | Hi : goroutines _ !! _ = Some ?g, E : g_pc ?g = _ |- _ =>
        specialize (Hg _ _ Hi); rewrite E in Hg; discriminate Hg
    end.
Qed.

Lemma steps_measure (hcs : list HealthCheck) (st : state) (evs : list event)
    (st' : state) :
  invariant hcs st -> steps hcs st evs st' -> sleeps_of evs = 0%nat ->
  (length evs + measure hcs st' <= measure hcs st)%nat.
Proof.
  intros I H. induction H as [|st1 evs st2 ev st3 H IH Hs]; intros Hn; [cbn; lia|].
  unfold sleeps_of in Hn. rewrite sum_list_with_app in Hn. cbn in Hn.
  specialize (IH I ltac:(unfold sleeps_of; lia)).
  pose proof (steps_invariant hcs _ _ _ I H) as I2.
  destruct (decide (pc st2 = AtSleep)) as [E|E].
  - destruct (sleeping hcs st2 ev st3 I2 E Hs) as [-> _]. cbn in Hn. lia.
  - destruct (step_measure hcs st2 ev st3 I2 Hs E) as (Hlt & _ & _).
    rewrite length_app. cbn [length]. lia.
Qed.

(** X4.  The loop never blocks and every cycle ends: in every state some step is
    possible, the next [time.Sleep] can be reached, and a run without a
    sleep has at most [measure] steps, which is 9 for every entry and 4 more
    at the top of the loop. *)
Theorem cycle_terminates (healthcheck hcs : list HealthCheck) (st0 st : state) :
  main healthcheck = Loop hcs st0 -> reachable hcs st0 st ->
  (exists ev st', step hcs st ev st') /\
  (exists evs st', steps hcs st evs st' /\ pc st' = AtSleep) /\
  (forall evs st', steps hcs st evs st' -> sleeps_of evs = 0%nat ->
     (length evs <= measure hcs st)%nat) /\
  (pc st = AtTop -> measure hcs st = (9 * length hcs + 4)%nat).
Proof.
  intros Hm Hr. pose proof (reachable_invariant _ _ _ _ Hm Hr) as I.
  split; [now apply invariant_progress|]. split; [|split].
  - destruct (run_to_sleep hcs st I) as (evs & st' & Hs & Hpc & _). eauto.
  - intros evs st' Hs Hn. pose proof (steps_measure hcs st evs st' I Hs Hn). lia.
  - intros Hpc. unfold measure. rewrite Hpc. cbn [main_remaining].
    assert (E : work (goroutines st) = 0%nat); [|lia].
    unfold work. pose proof (inv_finished _ _ I) as F. rewrite Hpc in F.
    induction (goroutines st) as [|g gs IH]; [reflexivity|].
    cbn [sum_list_with]. rewrite IH by (intros g' Hg'; apply F; now right).
    specialize (F g ltac:(left)). destruct (g_pc g); try discriminate F. reflexivity.
Qed.

Lemma cycle_terminates_witness :
  measure (map resolved two_hosts) two_hosts_start = 22%nat.
Proof.
  destruct (cycle_terminates two_hosts (map resolved two_hosts) two_hosts_start
              two_hosts_start) as (_ & _ & _ & H).
  - vm_compute. reflexivity.
  - exists []. constructor.
  - apply H. reflexivity.
Defined.

Lemma Uptime_count_range (a s : nat) :
  (s <= a)%nat -> (0 <= Uptime (mkResult (count a) (count s)) <= 100)%Z.
Proof.
  intros H. destruct a as [|a].
  - rewrite Uptime_no_attempt by apply count_0. lia.
  - unfold count. apply Uptime_range; lia.
Qed.

(** X6.  Every report has one line for every hostname of the file and no other
    line, and every percentage in it is between 0 and 100, for as long as
    the loop runs. *)
Theorem report_lines (healthcheck hcs : list HealthCheck) (st0 st : state)
    (lines : list (string * Z)) (st' : state) :
  main healthcheck = Loop hcs st0 -> reachable hcs st0 st ->
  step hcs st (EvReport lines) st' ->
  NoDup lines.*1 /\
  (forall h, h ∈ lines.*1 <-> h ∈ hostnames hcs) /\
  (forall h u, (h, u) ∈ lines -> (0 <= u <= 100)%Z) /\
  length lines = length (remove_dups (hostnames hcs)).
Proof.
  intros Hm Hr Hstep. pose proof (reachable_invariant _ _ _ _ Hm Hr) as I.
  inversion Hstep as [| | | |st1 lines1 Hpc Hl| | | | | | | | |]; subst.
  assert (Hin : forall h u, (h, u) ∈ lines <->
            h ∈ hostnames hcs /\
            u = Uptime (mkResult (count (attempts_of h (goroutines st)))
                                 (count (successes_of h (goroutines st))))).
  { intros h u. rewrite Hl, elem_of_map_to_list, lookup_fmap, (inv_sites _ _ I).
    destruct (bool_decide_reflect (h ∈ hostnames hcs)) as [Hh|Hh]; cbn.
    - split; [intros [= <-]; now split|intros [_ ->]; reflexivity].
    - split; [discriminate|tauto]. }
  assert (Hk : forall h, h ∈ lines.*1 <-> h ∈ hostnames hcs).
  { intros h. rewrite list_elem_of_fmap. split.
    - intros ([h' u] & -> & Hx). now apply Hin in Hx as [Hx _].
    - intros Hh. eexists (h, _). split; [reflexivity|]. apply Hin. now split. }
  assert (Hnd : NoDup lines.*1) by (rewrite Hl; apply NoDup_fst_map_to_list).
  split; [exact Hnd|]. split; [exact Hk|]. split.
  - intros h u Hx. apply Hin in Hx as [_ ->].
    apply Uptime_count_range, successes_le_attempts.
  - rewrite <- (length_fmap fst). apply Permutation_length, NoDup_Permutation.
    + exact Hnd.
    + apply NoDup_remove_dups.
    + intros h. now rewrite Hk, elem_of_remove_dups.
Qed.

Lemma report_lines_witness :
  length (map_to_list (Uptime <$> Sites two_hosts_done)) = 2%nat.
Proof.
  destruct (report_lines two_hosts (map resolved two_hosts) two_hosts_start
              two_hosts_done (map_to_list (Uptime <$> Sites two_hosts_done))
              (mkState (locked two_hosts_done) (Sites two_hosts_done)
                 (wgs two_hosts_done) (goroutines two_hosts_done) AtSleep))
    as (_ & _ & _ & H).
  - vm_compute. reflexivity.
  - apply (exec_sound _ interleaved). vm_compute. reflexivity.
  - apply step_report; reflexivity.
  - rewrite H. vm_compute. reflexivity.
Defined.

Lemma sites_of_results (hcs : list HealthCheck) (st : state) (h : string) :
  invariant hcs st ->
  pc st = AtReport \/ pc st = AtSleep \/ pc st = AtTop ->
  Sites st !! h =
    if bool_decide (h ∈ hostnames hcs)
    then Some (mkResult (count (probed h (results st)))
                        (count (succeeded h (results st))))
    else None.
Proof.
  intros I Hpc. destruct (inv_cycles_done hcs st I Hpc) as (Hf & _ & _).
  destruct (results_finished h (goroutines st) Hf) as [E1 E2].
  fold (results st) in E1, E2. rewrite E1, E2. apply (inv_sites _ _ I).
Qed.

(** X8.  What the map holds when a cycle is over depends on what the probes
    returned and on nothing else: not on the order in which the goroutines
    ran. *)
Theorem counts_independent_of_schedule (healthcheck hcs : list HealthCheck)
    (st0 st1 st2 : state) :
  main healthcheck = Loop hcs st0 ->
  reachable hcs st0 st1 -> reachable hcs st0 st2 ->
  pc st1 = AtReport \/ pc st1 = AtSleep \/ pc st1 = AtTop ->
  pc st2 = AtReport \/ pc st2 = AtSleep \/ pc st2 = AtTop ->
  results st1 ≡ₚ results st2 ->
  Sites st1 = Sites st2 /\
  forall h, Sites st1 !! h =
    if bool_decide (h ∈ hostnames hcs)
    then Some (mkResult (count (probed h (results st1)))
                        (count (succeeded h (results st1))))
    else None.
Proof.
  intros Hm Hr1 Hr2 Hpc1 Hpc2 Hres.
  pose proof (reachable_invariant _ _ _ _ Hm Hr1) as I1.
  pose proof (reachable_invariant _ _ _ _ Hm Hr2) as I2.
  split; [|intros h; now apply sites_of_results].
  apply map_eq. intros h.
  rewrite (sites_of_results hcs st1 h I1 Hpc1), (sites_of_results hcs st2 h I2 Hpc2).
  unfold probed, succeeded. now rewrite Hres.
Qed.

Lemma counts_independent_of_schedule_witness :
  Sites two_hosts_done !! "a.example.com"
  = Some (mkResult (count (probed "a.example.com" (results two_hosts_done)))
                   (count (succeeded "a.example.com" (results two_hosts_done)))).
Proof.
  destruct (counts_independent_of_schedule two_hosts (map resolved two_hosts)
              two_hosts_start two_hosts_done two_hosts_done) as [_ H].
  - vm_compute. reflexivity.
  - apply (exec_sound _ interleaved). vm_compute. reflexivity.
  - apply (exec_sound _ interleaved). vm_compute. reflexivity.
  - left. reflexivity.
  - left. reflexivity.
  - reflexivity.
  - rewrite H. vm_compute. reflexivity.
Defined.

(** X9.  With an empty file the loop runs all the same: it starts no goroutine,
    keeps an empty map, and every report it prints is empty. *)
Theorem empty_file (st : state) :
  reachable [] (initial ∅) st ->
  main [] = Loop [] (initial ∅) /\
  goroutines st = [] /\ Sites st = ∅ /\ locked st = false /\
  (exists ev st', step [] st ev st') /\
  forall lines st', step [] st (EvReport lines) st' -> lines = [].
Proof.
  intros Hr. assert (Hm : main [] = Loop [] (initial ∅)) by reflexivity.
  pose proof (reachable_invariant _ _ _ _ Hm Hr) as I.
  assert (Hg : goroutines st = []).
  { pose proof (inv_started _ _ I) as Hs.
    assert (E : forall c i, started [] c i = []).
    { intros c i. unfold started. rewrite take_nil. cbn [map]. rewrite app_nil_r.
      induction (seq 0 c) as [|x l IH]; [reflexivity|exact IH]. }
    assert (Hmap : map tag (goroutines st) = []).
    { destruct (pc st); rewrite E in Hs; tauto. }
    now destruct (goroutines st). }
  assert (Hs : Sites st = ∅).
  { apply map_empty. intros h. rewrite (inv_sites _ _ I). reflexivity. }
  split; [exact Hm|]. split; [exact Hg|]. split; [exact Hs|]. split.
  { pose proof (inv_lock _ _ I) as L. rewrite Hg in L. cbn in L.
    destruct (locked st); [discriminate|reflexivity]. }
  split; [now apply invariant_progress|].
  intros lines st' Hstep. inversion Hstep; subst.
  match goal with H : lines ≡ₚ _ |- _ => rewrite Hs, fmap_empty, map_to_list_empty in H;
    now apply Permutation_nil_r in H end.
Qed.

Lemma empty_file_witness : main [] = Loop [] (initial ∅).
Proof.
  destruct (empty_file (initial ∅)) as [H _].
  - exists []. constructor.
  - exact H.
Defined.

(** ** The events of a run *)





(** ** Further properties of the sequential variant *)

Lemma tracks_ext (status : gmap string (gmap string Z)) (hosts : list string)
    (cnt suc cnt' suc' : string -> Z) :
  tracks status hosts cnt suc ->
  (forall h, cnt h = cnt' h) -> (forall h, suc h = suc' h) ->
  tracks status hosts cnt' suc'.
Proof. intros T Hc Hs h. now rewrite (T h), Hc, Hs. Qed.

Lemma request_of_None (site : HealthCheck) :
  request_of site = None ->
  exists e, http.NewRequest (effectiveMethod site) (URL site) (Some (Body site))
            = (None, Some e).
Proof.
  unfold request_of.
  destruct (NewRequest_shape (effectiveMethod site) (URL site) (Some (Body site)))
    as [[r E]|[e E]]; rewrite E; [discriminate|eauto].
Qed.

(** When the request of a site can be built, or the site has no header,
    the [check] of the sequential variant returns what the [check] of the
    concurrent variant returns. *)
Lemma sequential_check_returns (net : http.Transport) (site : HealthCheck) :
  request_of site <> None \/ site_headers site = [] ->
  Sequential.check net site = check net site.
Proof.
  intros [H|H]; [now apply sequential_check_same|].
  destruct (request_of site) eqn:E; [apply sequential_check_same; congruence|].
  destruct (request_of_None site E) as [e He].
  unfold Sequential.check, check. rewrite He, sequential_range_headers, H. reflexivity.
Qed.

(** A turn of the probing loop, given what [check] returns. *)
Lemma cycle_probes (hcs : list HealthCheck) (nets : list http.Transport) :
  length nets = length hcs ->
  (forall hc, hc ∈ hcs -> request_of hc <> None \/ site_headers hc = []) ->
  exists bs, length bs = length hcs /\
    Forall2 (fun hc_net b => check hc_net.2 hc_net.1 = Returns b) (zip hcs nets) bs /\
    forall status, Sequential.cycle hcs nets status = Sequential.probes (zip hcs bs) status.
Proof.
  revert nets. induction hcs as [|hc hcs IH]; intros [|net nets] Hl Hok; try discriminate.
  - exists []. repeat split. constructor.
  - destruct (IH nets) as (bs & Hb & Hf & Hc).
    + cbn in Hl. lia.
    + intros hc' Hin. apply Hok. now right.
    + pose proof (sequential_check_returns net hc (Hok hc ltac:(left))) as E.
      rewrite check_eq in E.
      eexists (_ :: bs). split; [cbn; now rewrite Hb|]. split.
      * constructor; [cbn; apply check_eq|exact Hf].
      * intros status. cbn [Sequential.cycle zip zip_with Sequential.probes].
        rewrite E. cbn. destruct (Sequential.record status _); [apply Hc|reflexivity].
Qed.

Lemma probed_zip (h : string) (hcs : list HealthCheck) (bs : list bool) :
  length bs = length hcs ->
  probed h (zip hcs bs) = occurrences h hcs /\
  (succeeded h (zip hcs bs) <= occurrences h hcs)%nat.
Proof.
  revert bs. induction hcs as [|hc hcs IH]; intros [|b bs] Hl; try discriminate.
  - split; [reflexivity|cbn; lia].
  - destruct (IH bs) as [E1 E2]; [cbn in Hl; lia|].
    unfold probed, succeeded, occurrences in *.
    cbn [zip zip_with sum_list_with fst snd]. rewrite E1.
    split; [reflexivity|]. destruct (bool_decide (hostname hc = h)), b; cbn [andb]; lia.
Qed.

Lemma occurrences_le (h : string) (hcs : list HealthCheck) :
  (occurrences h hcs <= length hcs)%nat.
Proof.
  unfold occurrences. induction hcs as [|hc hcs IH]; [reflexivity|].
  cbn [sum_list_with length]. destruct (bool_decide _); lia.
Qed.

Lemma sequential_loop_tracks (hcs : list HealthCheck)
    (netss : list (list http.Transport)) :
  (forall hc, hc ∈ hcs -> request_of hc <> None \/ site_headers hc = []) ->
  Forall (fun nets => length nets = length hcs) netss ->
  forall (status : gmap string (gmap string Z)) (k : nat) (suc : string -> Z),
    tracks status (hostnames hcs) (fun h => Z.of_nat (k * occurrences h hcs)) suc ->
    (forall h, 0 <= suc h <= Z.of_nat (k * occurrences h hcs))%Z ->
    (Z.of_nat ((k + length netss) * length hcs) <= 2 ^ 53)%Z ->
    exists reports status' suc',
      sequential_loop hcs netss status = Returns (reports, status') /\
      length reports = length netss /\
      tracks status' (hostnames hcs)
        (fun h => Z.of_nat ((k + length netss) * occurrences h hcs)) suc' /\
      (forall h, 0 <= suc' h <= Z.of_nat ((k + length netss) * occurrences h hcs))%Z /\
      forall report, report ∈ reports ->
        forall h, if bool_decide (h ∈ hostnames hcs)
                  then exists u, report !! h = Some u /\ (0 <= u <= 100)%Z
                  else report !! h = None.
Proof.
  intros Hok Hl. induction Hl as [|nets netss Hn Hl IH]; intros status k suc T Hs Hb.
  - exists [], status, suc. cbn [sequential_loop length]. rewrite Nat.add_0_r.
    split; [reflexivity|]. split; [reflexivity|]. split; [exact T|]. split; [exact Hs|].
    intros report Hr. inversion Hr.
  - destruct (cycle_probes hcs nets Hn Hok) as (bs & Hbs & _ & Hc).
    cbn [length] in Hb.
    assert (Hocc : forall h, (occurrences h hcs <= length hcs)%nat)
      by (intros h; apply occurrences_le).
    destruct (probes_tracks (zip hcs bs) status (hostnames hcs) _ _ T)
      as (status1 & E1 & T1).
    { intros [hc b] Hp. cbn [fst]. apply elem_of_zip_l in Hp.
      unfold hostnames. apply list_elem_of_fmap. eauto. }
    { exact Hs. }
    { intros h. destruct (probed_zip h hcs bs Hbs) as [-> _]. specialize (Hocc h). nia. }
    set (suc1 := fun h => (suc h + Z.of_nat (succeeded h (zip hcs bs)))%Z).
    assert (T1' : tracks status1 (hostnames hcs)
                    (fun h => Z.of_nat (S k * occurrences h hcs)) suc1).
    { eapply tracks_ext; [exact T1| |reflexivity].
      intros h. destruct (probed_zip h hcs bs Hbs) as [-> _]. lia. }
    assert (Hs1 : forall h, (0 <= suc1 h <= Z.of_nat (S k * occurrences h hcs))%Z).
    { intros h. unfold suc1. destruct (probed_zip h hcs bs Hbs) as [_ Hle].
      specialize (Hs h). lia. }
    destruct (IH status1 (S k) suc1 T1' Hs1) as (reports & status2 & suc2 & E2 & L2 & T2 & Hs2 & R2).
    { replace (S k + length netss)%nat with (k + S (length netss))%nat by lia. exact Hb. }
    exists (Sequential.report status1 :: reports), status2, suc2.
    split; [cbn [sequential_loop]; rewrite Hc, E1; cbn; rewrite E2; reflexivity|].
    split; [cbn; now rewrite L2|].
    assert (Ek : (k + length (nets :: netss) = S k + length netss)%nat)
      by (cbn [length]; lia).
    split; [eapply tracks_ext; [exact T2|intros h; now rewrite Ek|reflexivity]|].
    split; [intros h; rewrite Ek; apply Hs2|].
    intros report Hr h. apply elem_of_cons in Hr as [->|Hr]; [|now apply R2].
    unfold Sequential.report. rewrite lookup_fmap, (T1' h).
    destruct (bool_decide_reflect (h ∈ hostnames hcs)) as [Hh|Hh]; [|reflexivity].
    cbn. eexists. split; [reflexivity|].
    pose proof (occurrences_pos h hcs Hh) as Hp. specialize (Hs1 h). specialize (Hocc h).
    rewrite uptime_bucket by nia. apply Uptime_range; nia.
Qed.

(** X14.  The loop of the sequential variant, started by its [main] on a file
    whose requests can all be built (or have no headers): it never panics;
    after [n] turns every host has been counted [n] times for each of its
    entries, with no more successes than attempts; and at every report
    every host has been probed, so that no uptime is the quotient 0/0, and
    every uptime printed is between 0 and 100. *)
Theorem sequential_loop_counts (healthcheck hcs : list HealthCheck)
    (status0 : gmap string (gmap string Z)) (netss : list (list http.Transport)) :
  Sequential.main healthcheck = Sequential.Loop hcs status0 ->
  (forall hc, hc ∈ hcs -> request_of hc <> None \/ site_headers hc = []) ->
  Forall (fun nets => length nets = length hcs) netss ->
  (Z.of_nat (length netss * length hcs) <= 2 ^ 53)%Z ->
  exists reports status,
    sequential_loop hcs netss status0 = Returns (reports, status) /\
    length reports = length netss /\
    (forall h, h ∈ hostnames hcs ->
       exists m count success,
         status !! h = Some m /\
         m !! "count" = Some count /\ m !! "success" = Some success /\
         count = Z.of_nat (length netss * occurrences h hcs) /\
         (0 <= success <= count)%Z) /\
    (forall h, h ∉ hostnames hcs -> status !! h = None) /\
    forall report, report ∈ reports ->
      forall h, if bool_decide (h ∈ hostnames hcs)
                then exists u, report !! h = Some u /\ (0 <= u <= 100)%Z
                else report !! h = None.
Proof.
  intros Hm Hok Hl Hb.
  assert (T0 : tracks status0 (hostnames hcs) (fun h => Z.of_nat (0 * occurrences h hcs))
                 (fun _ => 0%Z)).
  { unfold Sequential.main in Hm.
    pose proof (sequential_sanity_checks healthcheck [] ∅ ∅) as H.
    pose proof (sanity_checks_inr healthcheck [] ∅) as H'.
    destruct (Sequential.sanity_checks healthcheck [] ∅) as [m'|[hcs' s']]; [discriminate|].
    injection Hm as -> ->.
    destruct (sanity_checks healthcheck [] ∅) as [m|[hcs1 s]]; [contradiction|].
    destruct H as [-> Hs]. destruct (H' hcs s eq_refl) as (_ & Eh & _). cbn in Eh.
    intros h. rewrite Hs, <- Eh, lookup_empty. reflexivity. }
  destruct (sequential_loop_tracks hcs netss Hok Hl status0 0 (fun _ => 0%Z) T0)
    as (reports & status & suc & E & L & T & Hs & R).
  { intros h. lia. }
  { exact Hb. }
  exists reports, status. split; [exact E|]. split; [exact L|]. split; [|split].
  - intros h Hh. eexists _, _, _. split.
    { rewrite (T h), bool_decide_eq_true_2 by exact Hh. reflexivity. }
    split; [apply bucket_count|]. split; [apply bucket_success|].
    split; [reflexivity|]. apply Hs.
  - intros h Hh. now rewrite (T h), bool_decide_eq_false_2.
  - exact R.
Qed.

Lemma sequential_loop_counts_witness :
  exists reports status,
    sequential_loop (map resolved two_hosts)
      [[network_up; network_down]; [network_down; network_up]] two_hosts_status
    = Returns (reports, status) /\
    length reports = 2%nat.
Proof.
  destruct (sequential_loop_counts two_hosts (map resolved two_hosts) two_hosts_status
              [[network_up; network_down]; [network_down; network_up]])
    as (reports & status & E & L & _).
  - vm_compute. reflexivity.
  - intros hc Hhc. left.
    apply elem_of_cons in Hhc as [->|Hhc];
      [|apply list_elem_of_singleton in Hhc as ->]; vm_compute; discriminate.
  - repeat constructor.
  - vm_compute. discriminate.
  - exists reports, status. split; [exact E|exact L].
Defined.

(** ** The two [check]s *)

(** X13.  The [check] of the sequential variant returns what the [check] of the
    concurrent variant returns, whatever the network does, except where it
    panics: then the request could not be built, the site has headers, and
    the concurrent [check] returns false. *)
Theorem sequential_check_agrees (net : http.Transport) (site : HealthCheck) :
  match Sequential.check net site with
  | Returns up => check net site = Returns up
  | Panics _ =>
      check net site = Returns false /\ request_of site = None /\
      site_headers site <> []
  end.
Proof.
  destruct (request_of site) as [req|] eqn:E.
  - rewrite sequential_check_same by congruence. now rewrite check_eq.
  - destruct (request_of_None site E) as [e He].
    assert (H1 : check net site = Returns false) by (unfold check; now rewrite He).
    unfold Sequential.check. rewrite He, sequential_range_headers, add_headers_nil.
    destruct (site_headers site) as [|kv kvs]; cbn; [exact H1|].
    split; [exact H1|]. split; [reflexivity|discriminate].
Qed.

(** ** The sanity checks *)

Lemma sanity_checks_refusal (todo done : list HealthCheck) (sites : gmap string Result)
    (msg : string) :
  sanity_checks todo done sites = inl msg <->
  exists i hc,
    todo !! i = Some hc /\ bad_entry hc /\ msg = refusal hc /\
    forall j hc', (j < i)%nat -> todo !! j = Some hc' -> ~ bad_entry hc'.
Proof.
  revert done sites. induction todo as [|hc todo IH]; intros done sites.
  - cbn. split; [discriminate|]. intros (i & hc & Hi & _). discriminate Hi.
  - assert (Hcase : bad_entry hc /\ sanity_checks (hc :: todo) done sites = inl (refusal hc)
                    \/ ~ bad_entry hc /\
                       exists done' sites',
                         sanity_checks (hc :: todo) done sites
                         = sanity_checks todo done' sites').
    { cbn [sanity_checks]. unfold refusal, bad_entry.
      destruct (String.eqb_spec (Name hc) ""); [left; tauto|].
      destruct (String.eqb_spec (URL hc) ""); [left; tauto|].
      destruct (url.Parse (URL hc)) as [u|e] eqn:E.
      - right. split; [intros [?|[?|[e He]]]; congruence|eauto].
      - left. split; [eauto|reflexivity]. }
    destruct Hcase as [[Hb E]|[Hg (done' & sites' & E)]]; rewrite E.
    + split.
      * intros [= <-]. exists 0%nat, hc. split; [reflexivity|]. split; [exact Hb|].
        split; [reflexivity|]. intros j hc' Hj. lia.
      * intros ([|i] & hc' & Hi & Hb' & -> & Hfirst).
        -- now injection Hi as <-.
        -- exfalso. apply (Hfirst 0%nat hc); [lia|reflexivity|exact Hb].
    + rewrite IH. split.
      * intros (i & hc' & Hi & Hb & -> & Hfirst). exists (S i), hc'.
        split; [exact Hi|]. split; [exact Hb|]. split; [reflexivity|].
        intros [|j] hc2 Hj Hl; [injection Hl as <-; exact Hg|].
        apply (Hfirst j); [lia|exact Hl].
      * intros ([|i] & hc' & Hi & Hb & -> & Hfirst).
        -- injection Hi as <-. contradiction.
        -- exists i, hc'. split; [exact Hi|]. split; [exact Hb|]. split; [reflexivity|].
           intros j hc2 Hj Hl. apply (Hfirst (S j)); [lia|exact Hl].
Qed.

(** X10.  The sanity checks stop at the first entry without a name, without a
    url, or with a url that [url.Parse] refuses: the process prints the
    message of that entry, name before url before parsing, and exits with
    -1 without looking at the entries after it.  The sequential variant
    refuses the same files with the same message and the same code. *)
Theorem first_bad_entry (healthcheck : list HealthCheck) (msg : string) (code : Z) :
  (main healthcheck = Exit msg code <->
   code = (-1)%Z /\
   exists i hc,
     healthcheck !! i = Some hc /\ bad_entry hc /\ msg = refusal hc /\
     forall j hc', (j < i)%nat -> healthcheck !! j = Some hc' -> ~ bad_entry hc') /\
  (Sequential.main healthcheck = Sequential.Exit msg code <->
   main healthcheck = Exit msg code).
Proof.
  split.
  - rewrite <- sanity_checks_refusal with (done := []) (sites := ∅).
    unfold main. destruct (sanity_checks healthcheck [] ∅) as [m|[hcs s]].
    + split; [intros [= -> <-]; now split|intros [-> [= ->]]; reflexivity].
    + split; [discriminate|intros [_ H]; discriminate H].
  - pose proof (sequential_sanity_checks healthcheck [] ∅ ∅) as H.
    unfold main, Sequential.main.
    destruct (sanity_checks healthcheck [] ∅) as [m|[hcs s]],
             (Sequential.sanity_checks healthcheck [] ∅) as [m'|[hcs' s']];
      try contradiction.
    + subst m'. split; intros [= -> <-]; reflexivity.
    + split; discriminate.
Qed.

(** ** The front of [main] *)

Lemma main_enters_loop (healthcheck hcs : list HealthCheck) (st : state) :
  main healthcheck = Loop hcs st <->
  Forall (fun hc => ~ bad_entry hc) healthcheck /\
  hcs = map resolved healthcheck /\
  st = initial (Sites st) /\
  forall h, Sites st !! h =
    if bool_decide (h ∈ hostnames hcs) then Some (mkResult zero zero) else None.
Proof.
  split; [apply main_loop|].
  intros (Hf & -> & Es & Hs).
  destruct (main healthcheck) as [msg code|hcs' st'] eqn:Em.
  - exfalso. assert (Hex : Exists bad_entry healthcheck) by (apply main_exit; eauto).
    apply Exists_exists in Hex as (hc & Hin & Hbad).
    rewrite Forall_forall in Hf. exact (Hf hc Hin Hbad).
  - destruct (main_loop _ _ _ Em) as (_ & -> & Es' & Hs').
    f_equal. rewrite Es, Es'. f_equal. apply map_eq. intros h. now rewrite Hs, Hs'.
Qed.

(** X11.  The whole of [main] never exits with code 0: it panics when it
    is started without any argument, it exits with -1 when the file is not
    named, cannot be read or parsed, or fails the sanity checks, and it
    enters the loop otherwise: exactly when the file named by the first
    argument after the name of the program is read and parsed and every
    entry has a name and a url that [url.Parse] accepts; the loop then
    starts with the entries of the file in their order, the hostname of
    each set, and a bucket of zeros for every hostname. *)
Theorem run_outcomes (env : environment) :
  (forall msg code, run env = Returns (Exit msg code) -> code = (-1)%Z) /\
  (forall hcs st, run env = Returns (Loop hcs st) <->
     exists program yamlConfigFile others yamlFile healthcheck,
       Args env = program :: yamlConfigFile :: others /\
       ReadFile env yamlConfigFile = Ok yamlFile /\
       Unmarshal env yamlFile = Ok healthcheck /\
       Forall (fun hc => ~ bad_entry hc) healthcheck /\
       hcs = map resolved healthcheck /\
       st = initial (Sites st) /\
       forall h, Sites st !! h =
         if bool_decide (h ∈ hostnames hcs) then Some (mkResult zero zero) else None) /\
  (forall msg, run env = Panics msg <-> Args env = [] /\
     msg = "index out of range [0] with length 0") /\
  (length (Args env) = 1%nat ->
   exists program, Args env = [program] /\
     run env = Returns (Exit ("Usage: " +:+ program +:+ " <configFile.yaml>" +:+ newline) (-1))).
Proof.
  unfold run. destruct (Args env) as [|program [|yamlConfigFile others]].
  - split; [discriminate|]. split; [|split].
    + intros hcs st. split; [discriminate|]. intros (? & ? & ? & ? & ? & H & _).
      discriminate H.
    + intros msg. split; [intros [= <-]; now split|intros [_ ->]; reflexivity].
    + discriminate.
  - split; [intros msg code [= _ <-]; reflexivity|]. split; [|split].
    + intros hcs st. split; [discriminate|]. intros (? & ? & ? & ? & ? & H & _).
      discriminate H.
    + intros msg. split; [discriminate|]. intros [H _]. discriminate H.
    + intros _. eauto.
  - split; [|split; [|split]].
    + intros msg code.
      destruct (ReadFile env yamlConfigFile) as [yamlFile|err];
        [|intros [= _ <-]; reflexivity].
      destruct (Unmarshal env yamlFile) as [healthcheck|err];
        [|intros [= _ <-]; reflexivity].
      intros [= H]. exact (startup_exit_code healthcheck msg code H).
    + intros hcs st. split.
      * destruct (ReadFile env yamlConfigFile) as [yamlFile|err] eqn:Er; [|discriminate].
        destruct (Unmarshal env yamlFile) as [healthcheck|err] eqn:Eu; [|discriminate].
        intros [= H]. exists program, yamlConfigFile, others, yamlFile, healthcheck.
        split; [reflexivity|]. split; [exact Er|]. split; [exact Eu|].
        now apply main_enters_loop.
      * intros (p & f & o & y & h & [= _ <- _] & Er & Eu & Hm).
        rewrite Er, Eu. f_equal. now apply main_enters_loop.
    + intros msg. split; [|intros [H _]; discriminate H].
      destruct (ReadFile env yamlConfigFile) as [yamlFile|err]; [|discriminate].
      destruct (Unmarshal env yamlFile) as [healthcheck|err]; discriminate.
    + cbn. discriminate.
Qed.

(** ** More on [Uptime] *)

Section Monotone.
Local Open Scope Q_scope.

Lemma Qfloor_unique (x : Q) (k : Z) :
  inject_Z k <= x -> x < inject_Z (k + 1) -> Qfloor x = k.
Proof.
  intros H1 H2. pose proof (Qfloor_le x) as F1. pose proof (Qlt_floor x) as F2.
  assert (A : inject_Z k < inject_Z (Qfloor x + 1)) by lra.
  assert (B : inject_Z (Qfloor x) < inject_Z (k + 1)) by lra.
  rewrite <- Zlt_Qlt in A, B. lia.
Qed.

(** Rounding to the nearest integer keeps the order. *)
Lemma rne_mono (x y : Q) : x <= y -> (rne x <= rne y)%Z.
Proof.
  intros Hxy. destruct (Qlt_le_dec (inject_Z (rne y)) x) as [Hk|Hk];
    [|now apply rne_le].
  pose proof (Qfloor_le y) as F1. pose proof (Qlt_floor y) as F2.
  rewrite inject_Z_plus in F2. change (inject_Z 1) with 1 in F2.
  destruct (rne_cases y) as [[E Hf]|[E Hf]].
  - assert (Ex : Qfloor x = Qfloor y).
    { apply Qfloor_unique; [rewrite <- E; lra|].
      rewrite inject_Z_plus. change (inject_Z 1) with 1. lra. }
    rewrite E in Hk.
    destruct (Qlt_le_dec (x - inject_Z (Qfloor x)) (1 # 2)) as [Hlt|Hge].
    + rewrite E. unfold rne. rewrite (proj1 (Qlt_alt _ _) Hlt). lia.
    + assert (Exy : x == y) by (rewrite Ex in Hge; lra).
      rewrite (rne_comp _ _ Exy). lia.
  - exfalso. rewrite E, inject_Z_plus in Hk. change (inject_Z 1) with 1 in Hk. lra.
Qed.

(** Rounding to [float64] keeps the order. *)
Lemma round_pos_mono (x y : Q) :
  0 < x -> x <= y -> val (round_pos false x) <= val (round_pos false y).
Proof.
  intros Hx Hxy. assert (Hy : 0 < y) by lra.
  destruct (exponent_spec x Hx) as [X1 X2]. destruct (exponent_spec y Hy) as [Y1 Y2].
  destruct (round_pos_val false y Hy) as (my & ey & Ey & Hmy & Hry & Evy).
  assert (Hee : (exponent x <= exponent y)%Z).
  { assert (H : 2 ^ (52 + exponent x) < 2 ^ (53 + exponent y)) by lra.
    apply Qpower_lt_compat_l_inv in H; [lia|reflexivity]. }
  destruct (Z.eq_dec (exponent x) (exponent y)) as [Ee|Hne].
  - destruct (round_pos_val false x Hx) as (mx & ex & Ex & _ & _ & Evx).
    rewrite Ex, Ey. cbn [val]. rewrite !F2Q_false, Evx, Evy, Ee.
    pose proof (two_pow_pos (exponent y)) as Hp.
    apply Qmult_le_compat_r; [|lra].
    rewrite <- Zle_Qle. apply rne_mono.
    apply Qmult_le_compat_r; [exact Hxy|]. apply Qlt_le_weak, Qinv_lt_0_compat, Hp.
  - apply Qle_trans with (inject_Z (2 ^ 52) * 2 ^ (exponent x + 1)).
    + apply round_pos_le; [exact Hx|lia|].
      rewrite two_pow_inj by lia. rewrite <- Qpower_plus by discriminate.
      replace (52 + (exponent x + 1))%Z with (53 + exponent x)%Z by lia. lra.
    + rewrite Ey. cbn [val]. rewrite F2Q_false, Evy.
      apply Qle_trans with (inject_Z (2 ^ 52) * 2 ^ exponent y).
      * pose proof (two_pow_pos 52) as H52. rewrite two_pow_inj by lia.
        apply Qmult_le_l; [exact H52|].
        apply Qpower_le_compat_l; [lia|discriminate].
      * pose proof (two_pow_pos (exponent y)) as Hp.
        apply Qmult_le_compat_r; [|lra]. rewrite <- Zle_Qle. lia.
Qed.

Lemma percent_mono (s a s' a' : Z) :
  (0 < s)%Z -> (0 < a)%Z -> (0 < a')%Z -> (s * a' <= s' * a)%Z ->
  percent s a <= percent s' a'.
Proof.
  intros Hs Ha Ha' Hc.
  pose proof (inject_Z_pos a Ha) as HA. pose proof (inject_Z_pos a' Ha') as HA'.
  pose proof (inject_Z_pos s Hs) as HS.
  assert (Hq : 0 < inject_Z s / inject_Z a).
  { apply Qlt_shift_div_l; [exact HA|]. now rewrite Qmult_0_l. }
  assert (Hle : inject_Z s / inject_Z a <= inject_Z s' / inject_Z a').
  { apply Qle_shift_div_l; [exact HA'|].
    assert (E : inject_Z s / inject_Z a * inject_Z a'
                == inject_Z (s * a') / inject_Z a).
    { rewrite inject_Z_mult. field. lra. }
    rewrite E. apply Qle_shift_div_r; [exact HA|].
    rewrite <- inject_Z_mult, <- Zle_Qle. exact Hc. }
  unfold percent, quotient.
  pose proof (round_pos_mono _ _ Hq Hle) as Hm.
  destruct (round_pos_fin _ Hq) as (m & e & E & _ & _ & Hv).
  apply round_pos_mono.
  - rewrite E. cbn [val]. lra.
  - lra.
Qed.

End Monotone.

(** X15.  [Uptime] follows the ratio of successes to attempts: when the ratio of
    one pair of counters is no more than that of another, neither is its
    uptime.  So a success more never lowers the uptime of a host and a
    failure more never raises it. *)
Theorem uptime_monotone (s a s' a' : Z) :
  (0 <= s <= a)%Z -> (0 < a <= 2 ^ 53)%Z ->
  (0 <= s' <= a')%Z -> (0 < a' <= 2 ^ 53)%Z ->
  (s * a' <= s' * a)%Z ->
  (Uptime (mkResult (of_Z a) (of_Z s)) <= Uptime (mkResult (of_Z a') (of_Z s')))%Z.
Proof.
  intros Hs Ha Hs' Ha' Hc.
  destruct (Z.eq_dec s 0%Z) as [->|Hs0].
  - rewrite Uptime_no_success by lia. apply Uptime_range; lia.
  - assert (Hs'0 : (0 < s')%Z) by nia.
    rewrite !Uptime_counts by lia. apply Qfloor_resp_le.
    apply Qplus_le_l. apply percent_mono; lia.
Qed.

Lemma uptime_monotone_witness :
  (Uptime (mkResult (of_Z 3) (of_Z 1)) <= Uptime (mkResult (of_Z 4) (of_Z 2)))%Z.
Proof. apply uptime_monotone; lia. Defined.

(** X16.  Where 100 * successes / attempts is not half-way between two integers,
    [Uptime] is that number rounded to the nearest integer:
    [round(100 * successes / attempts)], for up to 2^44 attempts. *)
Theorem uptime_rounds (s a : Z) :
  (0 <= s <= a)%Z -> (0 < a <= 2 ^ 44)%Z -> ((200 * s) mod (2 * a) <> a)%Z ->
  Uptime (mkResult (of_Z a) (of_Z s)) = ((200 * s + a) / (2 * a))%Z /\
  Uptime (mkResult (of_Z a) (of_Z s)) = uptimePercent round_half_away s a.
Proof.
  intros Hs Ha Hn.
  pose proof (Uptime_nearest s a Hs Ha) as H. cbv zeta in H.
  pose proof (Uptime_range s a Hs ltac:(lia)) as Hr.
  set (u := Uptime (mkResult (of_Z a) (of_Z s))) in *.
  assert (H1 : (200 * s - 2 * u * a <> a)%Z).
  { intros E. apply Hn. symmetry. apply (Z.mod_unique _ _ u); lia. }
  assert (H2 : (200 * s - 2 * u * a <> - a)%Z).
  { intros E. apply Hn. symmetry. apply (Z.mod_unique _ _ (u - 1)); lia. }
  assert (Eu : u = ((200 * s + a) / (2 * a))%Z).
  { apply (Z.div_unique _ _ u (200 * s + a - 2 * a * u)); lia. }
  split; [exact Eu|].
  unfold uptimePercent, round_half_away.
  destruct (Z.ltb_spec 0 a); [|lia].
  assert (Ha0 : (0 < inject_Z a)%Q) by (apply inject_Z_pos; lia).
  assert (Hpos : (0 <= 100 * inject_Z s / inject_Z a)%Q).
  { apply Qle_shift_div_l; [exact Ha0|]. rewrite Qmult_0_l.
    change 0%Q with (inject_Z 0). change 100%Q with (inject_Z 100).
    rewrite <- inject_Z_mult, <- Zle_Qle. lia. }
  rewrite (proj2 (Qle_bool_iff _ _) Hpos).
  rewrite Eu, Zdiv_Qdiv. apply Qfloor_comp.
  rewrite inject_Z_plus, !inject_Z_mult. change (inject_Z 200) with 200%Q.
  change (inject_Z 2) with 2%Q. field. lra.
Qed.

Lemma uptime_rounds_witness : Uptime (mkResult (of_Z 3) (of_Z 2)) = 67%Z.
Proof.
  destruct (uptime_rounds 2 3) as [H _]; [lia|lia|vm_compute; discriminate|].
  rewrite H. reflexivity.
Defined.

(** ** The increments of the counters *)

(** X2.  [status.Sites[hc.hostname].Attempt++] and [...Success++] are a load and
    a store; between the two no other goroutine changes the counter: what a
    goroutine is about to store is one more than what the map holds, and
    the mutex is locked. *)
Theorem increment_atomic (healthcheck hcs : list HealthCheck) (st0 st : state)
    (i : nat) (g : goroutine) :
  main healthcheck = Loop hcs st0 -> reachable hcs st0 st ->
  goroutines st !! i = Some g ->
  match g_pc g with
  | StoringAttempt _ v =>
      locked st = true /\
      exists r, Sites st !! hostname (g_hc g) = Some r /\ Attempt r = v
  | StoringSuccess v =>
      locked st = true /\
      exists r, Sites st !! hostname (g_hc g) = Some r /\ Success r = v
  | _ => True
  end.
Proof.
  intros Hm Hr Hi. pose proof (reachable_invariant _ _ _ _ Hm Hr) as I.
  pose proof (list_elem_of_lookup_2 _ _ _ Hi) as Hg.
  pose proof (inv_loaded _ _ I g Hg) as L.
  pose proof (inv_site hcs st g I Hg) as S.
  pose proof (inv_section_locked hcs st i g I Hi) as K.
  destruct (g_pc g); try exact Logic.I;
    (split; [now apply K|]); eexists; (split; [exact S|]); cbn; now rewrite L.
Qed.

Lemma increment_atomic_witness :
  exists r, Sites two_hosts_midway !! "a.example.com" = Some r /\ Attempt r = zero.
Proof.
  pose proof (increment_atomic two_hosts (map resolved two_hosts) two_hosts_start
                two_hosts_midway 0
                (mkGoroutine (resolved (site "a" "http://a.example.com/")) 0
                   (StoringAttempt true zero))) as H.
  cbn [g_pc] in H. destruct H as [_ H].
  - vm_compute. reflexivity.
  - apply (exec_sound _ (take 8 interleaved)). vm_compute. reflexivity.
  - vm_compute. reflexivity.
  - exact H.
Defined.

(** ** The order of the headers *)

Lemma values_for_in (K : string) (kvs : list (string * string)) :
  values_for K kvs <> [] ->
  K ∈ map (fun kv : string * string => http.CanonicalMIMEHeaderKey kv.1) kvs.
Proof.
  induction kvs as [|kv kvs IH]; [intros H; now contradiction H|].
  unfold values_for in *. cbn [omap list_omap map].
  destruct (decide (http.CanonicalMIMEHeaderKey kv.1 = K)) as [<-|Hne].
  - intros _. left.
  - intros H. right. now apply IH.
Qed.

Lemma values_for_short (K : string) (kvs : list (string * string)) :
  NoDup (map (fun kv : string * string => http.CanonicalMIMEHeaderKey kv.1) kvs) ->
  (length (values_for K kvs) <= 1)%nat.
Proof.
  induction kvs as [|kv kvs IH]; [cbn; lia|].
  cbn [map]. intros Hnd. apply NoDup_cons in Hnd as [Hni Hnd].
  specialize (IH Hnd). unfold values_for in *. cbn [omap list_omap].
  destruct (decide (http.CanonicalMIMEHeaderKey kv.1 = K)) as [E|Hne]; [|exact IH].
  cbn [length]. destruct (omap _ kvs) eqn:Eo; [cbn; lia|].
  exfalso. apply Hni. rewrite E. apply values_for_in. unfold values_for.
  rewrite Eo. discriminate.
Qed.

(** X12.  The loop that adds the headers visits a Go map, in an order that the
    language leaves open.  Whatever the order, every header name gets the
    same values; and when no two names of the map are the same but for
    their case, the request is the same. *)
Theorem headers_order (kvs kvs' : list (string * string)) (r : http.Request) :
  kvs ≡ₚ kvs' ->
  (forall K, values_for K kvs ≡ₚ values_for K kvs') /\
  (NoDup (map (fun kv : string * string => http.CanonicalMIMEHeaderKey kv.1) kvs) ->
   add_headers kvs (Some r) = add_headers kvs' (Some r)).
Proof.
  intros Hp.
  assert (Hv : forall K, values_for K kvs ≡ₚ values_for K kvs').
  { intros K. unfold values_for. now rewrite Hp. }
  split; [exact Hv|]. intros Hnd. rewrite !add_headers_some. do 2 f_equal.
  unfold with_headers. f_equal. apply map_eq. intros K.
  rewrite !foldl_Add_lookup.
  pose proof (values_for_short K kvs Hnd) as Hs. specialize (Hv K).
  destruct (values_for K kvs) as [|v [|v' vs]].
  - apply Permutation_nil_l in Hv. now rewrite <- Hv.
  - apply Permutation_singleton_l in Hv. now rewrite <- Hv.
  - cbn in Hs. lia.
Qed.

Lemma headers_order_witness :
  add_headers [("foo", "bar"); ("content-type", "application/json")] (Some plain_request)
  = add_headers [("content-type", "application/json"); ("foo", "bar")]
      (Some plain_request).
Proof.
  apply headers_order.
  - apply perm_swap.
  - apply NoDup_cons. split; [|apply NoDup_singleton].
    rewrite list_elem_of_singleton. vm_compute. discriminate.
Defined.

(** ** Hosts that are always up, or always down *)

Lemma succeeded_all (h : string) (rs : list (HealthCheck * bool)) (b : bool) :
  (forall p, p ∈ rs -> hostname p.1 = h -> p.2 = b) ->
  succeeded h rs = if b then probed h rs else 0%nat.
Proof.
  induction rs as [|[hc up] rs IH]; intros H; [now destruct b|].
  unfold succeeded, probed in *. cbn [sum_list_with fst snd].
  rewrite IH by (intros p Hp; apply H; now right).
  destruct (bool_decide_reflect (hostname hc = h)) as [E|E]; cbn [andb].
  - pose proof (H (hc, up) ltac:(left) E) as Eu. cbn in Eu. subst up. now destruct b.
  - now destruct b.
Qed.

(** The line of a host all of whose probes returned the same. *)
Lemma steady_line (hcs : list HealthCheck) (st : state) (h : string) (up : bool) :
  invariant hcs st -> pc st = AtReport -> h ∈ hostnames hcs ->
  (forall p, p ∈ results st -> hostname p.1 = h -> p.2 = up) ->
  (Uptime <$> Sites st) !! h = Some (if up then 100%Z else 0%Z).
Proof.
  intros I Hpc Hh Hall. rewrite lookup_fmap.
  rewrite (sites_of_results hcs st h I (or_introl Hpc)), bool_decide_eq_true_2 by exact Hh.
  cbn. f_equal. rewrite (succeeded_all h _ up Hall).
  destruct (inv_cycles_done hcs st I (or_introl Hpc)) as (Hf & _ & Ha).
  destruct (results_finished h (goroutines st) Hf) as [E1 _].
  fold (results st) in E1. rewrite E1, Ha.
  pose proof (inv_started _ _ I) as Hs. rewrite Hpc in Hs. destruct Hs as [Hw _].
  pose proof (occurrences_pos h hcs Hh) as Ho.
  destruct up.
  - unfold count. apply Uptime_full. nia.
  - unfold count at 2. change (Z.min (Z.of_nat 0) (2 ^ 53)) with 0%Z.
    unfold count. apply Uptime_no_success. nia.
Qed.

(** X7.  A host whose probes have all succeeded is reported with 100, and
    a host whose probes have all failed with 0, at every report, however
    long the loop has run. *)
Theorem steady_host (healthcheck hcs : list HealthCheck) (st0 st : state)
    (lines : list (string * Z)) (st' : state) (h : string) (up : bool) :
  main healthcheck = Loop hcs st0 -> reachable hcs st0 st ->
  step hcs st (EvReport lines) st' -> h ∈ hostnames hcs ->
  (forall p, p ∈ results st -> hostname p.1 = h -> p.2 = up) ->
  (h, if up then 100%Z else 0%Z) ∈ lines.
Proof.
  intros Hm Hr Hstep Hh Hall. pose proof (reachable_invariant _ _ _ _ Hm Hr) as I.
  inversion Hstep as [| | | |st1 lines1 Hpc Hl| | | | | | | | |]; subst.
  rewrite Hl, elem_of_map_to_list. now apply (steady_line hcs).
Qed.

Lemma steady_host_witness :
  ("a.example.com"%string, 100%Z) ∈ map_to_list (Uptime <$> Sites two_hosts_done).
Proof.
  apply (steady_host two_hosts (map resolved two_hosts) two_hosts_start two_hosts_done
           (map_to_list (Uptime <$> Sites two_hosts_done))
           (mkState (locked two_hosts_done) (Sites two_hosts_done)
              (wgs two_hosts_done) (goroutines two_hosts_done) AtSleep)
           "a.example.com" true).
  - vm_compute. reflexivity.
  - apply (exec_sound _ interleaved). vm_compute. reflexivity.
  - apply step_report; reflexivity.
  - vm_compute. left.
  - intros p Hp _. apply list_elem_of_lookup in Hp as [i Hi].
    destruct i as [|[|i]]; cbn in Hi; [now injection Hi as <-..|discriminate].
Defined.

(** ** What the goroutines record *)

Lemma step_recorded (hcs : list HealthCheck) (st : state) (ev : event) (st' : state) :
  (forall g b, g ∈ goroutines st -> success_of (g_pc g) = Some b ->
     exists net, check net (g_hc g) = Returns b) ->
  step hcs st ev st' ->
  forall g b, g ∈ goroutines st' -> success_of (g_pc g) = Some b ->
    exists net, check net (g_hc g) = Returns b.
Proof.
  intros P Hstep. destruct Hstep; cbn [goroutines]; try exact P.
  - intros g b Hg Hb. apply elem_of_app in Hg as [Hg|Hg]; [now apply (P g)|].
    apply list_elem_of_singleton in Hg as ->. discriminate Hb.
  - intros g' b Hg' Hb. apply elem_of_move in Hg' as [->|(j & _ & Hj)];
      [|apply (P g'); [eapply list_elem_of_lookup_2, Hj|exact Hb]].
    cbn in Hb. injection Hb as <-. eauto.
  - intros g' b Hg' Hb. apply elem_of_move in Hg' as [->|(j & _ & Hj)];
      [|apply (P g'); [eapply list_elem_of_lookup_2, Hj|exact Hb]].
    apply (P g); [eapply list_elem_of_lookup_2; eassumption|].
    rewrite H0. exact Hb.
  - intros g' b Hg' Hb. apply elem_of_move in Hg' as [->|(j & _ & Hj)];
      [|apply (P g'); [eapply list_elem_of_lookup_2, Hj|exact Hb]].
    apply (P g); [eapply list_elem_of_lookup_2; eassumption|].
    rewrite H0. exact Hb.
  - intros g' b Hg' Hb. apply elem_of_move in Hg' as [->|(j & _ & Hj)];
      [|apply (P g'); [eapply list_elem_of_lookup_2, Hj|exact Hb]].
    apply (P g); [eapply list_elem_of_lookup_2; eassumption|].
    rewrite H0. destruct success; exact Hb.
  - intros g' b Hg' Hb. apply elem_of_move in Hg' as [->|(j & _ & Hj)];
      [|apply (P g'); [eapply list_elem_of_lookup_2, Hj|exact Hb]].
    apply (P g); [eapply list_elem_of_lookup_2; eassumption|].
    rewrite H0. exact Hb.
  - intros g' b Hg' Hb. apply elem_of_move in Hg' as [->|(j & _ & Hj)];
      [|apply (P g'); [eapply list_elem_of_lookup_2, Hj|exact Hb]].
    apply (P g); [eapply list_elem_of_lookup_2; eassumption|].
    rewrite H0. exact Hb.
  - intros g' b Hg' Hb. apply elem_of_move in Hg' as [->|(j & _ & Hj)];
      [|apply (P g'); [eapply list_elem_of_lookup_2, Hj|exact Hb]].
    apply (P g); [eapply list_elem_of_lookup_2; eassumption|].
    rewrite H0. exact Hb.
  - intros g' b Hg' Hb. apply elem_of_move in Hg' as [->|(j & _ & Hj)];
      [|apply (P g'); [eapply list_elem_of_lookup_2, Hj|exact Hb]].
    apply (P g); [eapply list_elem_of_lookup_2; eassumption|].
    rewrite H0. exact Hb.
Qed.

Lemma steps_recorded (hcs : list HealthCheck) (Sites0 : gmap string Result)
    (evs : list event) (st : state) :
  steps hcs (initial Sites0) evs st ->
  forall g b, g ∈ goroutines st -> success_of (g_pc g) = Some b ->
    exists net, check net (g_hc g) = Returns b.
Proof.
  intros H. remember (initial Sites0) as s0 eqn:E0.
  induction H as [|st1 evs st2 ev st3 H IH Hs].
  - subst. intros g b Hg. inversion Hg.
  - exact (step_recorded hcs st2 ev st3 (IH E0) Hs).
Qed.

(** X17.  What a goroutine records is what [check] returned for its entry:
    every goroutine probes an entry of the file, and once a cycle is over
    every result it counted is a value that [check] returned for that entry
    on some network. *)
Theorem results_are_checks (healthcheck hcs : list HealthCheck) (st0 st : state) :
  main healthcheck = Loop hcs st0 -> reachable hcs st0 st ->
  (forall g, g ∈ goroutines st ->
     g_hc g ∈ hcs /\
     forall b, success_of (g_pc g) = Some b ->
       exists net, check net (g_hc g) = Returns b) /\
  (pc st = AtReport \/ pc st = AtSleep \/ pc st = AtTop ->
   forall hc b, (hc, b) ∈ results st ->
     hc ∈ hcs /\ exists net, check net hc = Returns b).
Proof.
  intros Hm Hr. pose proof (reachable_invariant _ _ _ _ Hm Hr) as I.
  destruct (main_loop _ _ _ Hm) as (_ & _ & E0 & _).
  assert (P : forall g b, g ∈ goroutines st -> success_of (g_pc g) = Some b ->
                exists net, check net (g_hc g) = Returns b).
  { destruct Hr as [evs Hs]. rewrite E0 in Hs. exact (steps_recorded _ _ _ _ Hs). }
  split.
  - intros g Hg. split; [apply (inv_goroutine hcs st g I Hg)|].
    intros b. now apply P.
  - intros Hpc hc b Hin. destruct (inv_cycles_done hcs st I Hpc) as (Hf & _ & _).
    unfold results in Hin. apply list_elem_of_fmap in Hin as (g & [= -> ->] & Hg).
    split; [apply (inv_goroutine hcs st g I Hg)|].
    apply (P g); [exact Hg|]. specialize (Hf g Hg).
    destruct (g_pc g); try discriminate Hf. reflexivity.
Qed.

Lemma results_are_checks_witness :
  exists net,
    check net (resolved (site "a" "http://a.example.com/")) = Returns true.
Proof.
  destruct (results_are_checks two_hosts (map resolved two_hosts) two_hosts_start
              two_hosts_done) as [_ H].
  - vm_compute. reflexivity.
  - apply (exec_sound _ interleaved). vm_compute. reflexivity.
  - apply H; [left; reflexivity|]. vm_compute. left.
Defined.

(** X18.  The sites that are down whatever the network does: [check]
    returns false on every network exactly when the request cannot be
    built (a method that is not a token, a url that does not parse), or
    its url has a scheme other than http and https, or no host.  Nothing
    is sent for such a site. *)
Theorem check_offline (site : HealthCheck) :
  (forall net, check net site = Returns false) <->
  request_of site = None \/
  exists req, request_of site = Some req /\
    (~ (url.Scheme (http.URL req) = "http" \/ url.Scheme (http.URL req) = "https")
     \/ url.Host (http.URL req) = "").
Proof.
  split.
  - intros H. destruct (request_of site) as [req|] eqn:E; [|now left].
    right. exists req. split; [reflexivity|].
    specialize (H network_up). rewrite check_eq, E in H. injection H as H.
    destruct (String.eqb_spec (url.Host (http.URL req)) "") as [Eh|Eh]; [now right|].
    left. intros Hs. apply not_true_iff_false in H. apply H.
    apply classify_true. exists 1000%Z, (http.mkResponse 200 EmptyString).
    split; [exact Hs|]. split; [exact Eh|]. split; [reflexivity|].
    split; [reflexivity|]. cbn. lia.
  - intros [E|(req & E & Hbad)] net; rewrite check_eq, E; [reflexivity|].
    f_equal. apply not_true_iff_false. intros H.
    apply classify_true in H as (elapsed & resp & Hs & Hh & _).
    destruct Hbad as [Hbad|Hbad]; [exact (Hbad Hs)|exact (Hh Hbad)].
Qed.

(** X19.  A host all of whose entries are down whatever the network does
    (a method that is not a token, a scheme that is not http or https)
    passes the sanity checks all the same, and is reported with 0 at every
    report. *)
Theorem offline_host_reported_down (healthcheck hcs : list HealthCheck)
    (st0 st : state) (lines : list (string * Z)) (st' : state) (h : string) :
  main healthcheck = Loop hcs st0 -> reachable hcs st0 st ->
  step hcs st (EvReport lines) st' -> h ∈ hostnames hcs ->
  (forall hc, hc ∈ hcs -> hostname hc = h -> forall net, check net hc = Returns false) ->
  (h, 0%Z) ∈ lines.
Proof.
  intros Hm Hr Hstep Hh Hoff. pose proof (reachable_invariant _ _ _ _ Hm Hr) as I.
  destruct (main_loop _ _ _ Hm) as (_ & _ & E0 & _).
  inversion Hstep as [| | | |st1 lines1 Hpc Hl| | | | | | | | |]; subst lines1 st1 st'.
  rewrite Hl, elem_of_map_to_list.
  apply (steady_line hcs st h false I Hpc Hh).
  intros [hc b] Hin Eh. cbn [fst snd] in *.
  destruct (inv_cycles_done hcs st I (or_introl Hpc)) as (Hf & _ & _).
  unfold results in Hin. apply list_elem_of_fmap in Hin as (g & [= -> ->] & Hg).
  destruct (inv_goroutine hcs st g I Hg) as [Hin _].
  assert (P : exists net, check net (g_hc g)
                          = Returns (default false (success_of (g_pc g)))).
  { destruct Hr as [evs Hs]. rewrite E0 in Hs.
    apply (steps_recorded _ _ _ _ Hs g); [exact Hg|].
    specialize (Hf g Hg). destruct (g_pc g); try discriminate Hf. reflexivity. }
  destruct P as [net P]. rewrite (Hoff (g_hc g) Hin Eh net) in P. now injection P.
Qed.

Lemma offline_host_reported_down_witness :
  ("files.example.com"%string, 0%Z) ∈ map_to_list (Uptime <$> Sites ftp_host_done).
Proof.
  apply (offline_host_reported_down ftp_host (map resolved ftp_host) ftp_host_start
           ftp_host_done (map_to_list (Uptime <$> Sites ftp_host_done))
           (mkState (locked ftp_host_done) (Sites ftp_host_done)
              (wgs ftp_host_done) (goroutines ftp_host_done) AtSleep)
           "files.example.com").
  - vm_compute. reflexivity.
  - apply (exec_sound _ (replicate 3 ActMain ++ whole_goroutine 0 network_up false
                           ++ [ActMain])).
    vm_compute. reflexivity.
  - apply step_report; reflexivity.
  - vm_compute. left.
  - intros hc Hhc _ net. apply list_elem_of_singleton in Hhc as ->.
    apply check_offline. right. eexists. split; [vm_compute; reflexivity|].
    left. cbn. intros [H|H]; discriminate H.
Defined.
